(** * zipfs: a read-only filesystem view over a zip archive

    Shallow embedding of [zipfs/zipfs.go] (package [zipfs] of
    dolmen-go/modfs) and of the parts of Go's [path], [strings], [io/fs],
    [unicode/utf8] and [slices] packages that it calls.

    Go strings are byte strings: they are modelled by [string], whose
    characters are the 256 values of [ascii].  Go's [int] is the 64-bit
    two's-complement integer; it is modelled by [Z] with the wrap-around
    written out ([wrap_int]).  Pointers to [dirInfo] objects are addresses
    into an explicit heap, because [buildIndex] mutates directory objects
    through the aliases stored in the path map. *)

From Stdlib Require Import ZArith Ascii String List Lia Permutation.
From stdpp Require Import base option list strings gmap sorting.

Local Open Scope Z_scope.
Local Open Scope nat_scope.

(** ** Byte strings *)

Module bytes.

Definition slash : ascii := "/"%char.

Definition is_slash (c : ascii) : bool := Ascii.eqb c slash.

(** [s[n:]] for [n <= len(s)]. *)
Fixpoint from (n : nat) (s : string) : string :=
  match n, s with
  | 0, _ => s
  | S k, String _ r => from k r
  | S _, EmptyString => EmptyString
  end.

(** [s[:n]] for [n <= len(s)]. *)
Fixpoint upto (n : nat) (s : string) : string :=
  match n, s with
  | 0, _ => EmptyString
  | S k, String c r => String c (upto k r)
  | S _, EmptyString => EmptyString
  end.

(** The first byte of [s] is a slash ([len(s) > 0 && s[0] == '/']). *)
Definition rooted (s : string) : bool :=
  match s with
  | String c _ => is_slash c
  | EmptyString => false
  end.

(** The last byte of [s], when there is one. *)
Fixpoint last_byte (s : string) : option ascii :=
  match s with
  | EmptyString => None
  | String c EmptyString => Some c
  | String _ r => last_byte r
  end.

Fixpoint has_slash (s : string) : bool :=
  match s with
  | EmptyString => false
  | String c r => is_slash c || has_slash r
  end.

(** The elements of [s] between slashes, empty ones included:
    [split "a//b" = ["a"; ""; "b"]], [split "" = [""]]. *)
Fixpoint split (s : string) : list string :=
  match s with
  | EmptyString => [EmptyString]
  | String c r =>
      if is_slash c then EmptyString :: split r
      else match split r with
           | h :: t => String c h :: t
           | [] => [String c EmptyString]
           end
  end.

(** The elements joined by single slashes. *)
Fixpoint join (l : list string) : string :=
  match l with
  | [] => EmptyString
  | [x] => x
  | x :: r => x +:+ String slash (join r)
  end.

End bytes.

(** ** Package [strings] *)

Module strings.

(** [strings.CutPrefix]: the rest of [s] after [pre], when [s] starts
    with [pre]. *)
Fixpoint CutPrefix (s pre : string) : option string :=
  match pre, s with
  | EmptyString, _ => Some s
  | String a p, String b r => if Ascii.eqb a b then CutPrefix r p else None
  | String _ _, EmptyString => None
  end.

Definition HasPrefix (s pre : string) : bool :=
  match CutPrefix s pre with Some _ => true | None => false end.

(** [strings.TrimPrefix]: [s] without the leading [pre]; [s] itself when
    it does not start with [pre]. *)
Definition TrimPrefix (s pre : string) : string :=
  match CutPrefix s pre with Some r => r | None => s end.

(** [strings.Compare]: byte-wise lexicographic comparison. *)
Definition Compare (a b : string) : comparison := String.compare a b.

(** [strings.LastIndexByte]: [None] stands for Go's [-1]. *)
Fixpoint LastIndexByte (s : string) (c : ascii) : option nat :=
  match s with
  | EmptyString => None
  | String a r =>
      match LastIndexByte r c with
      | Some i => Some (S i)
      | None => if Ascii.eqb a c then Some 0 else None
      end
  end.

End strings.

(** ** Package [unicode/utf8] *)

Module utf8.

Definition byte_in (lo hi : N) (c : ascii) : bool :=
  let n := N_of_ascii c in (N.leb lo n && N.leb n hi)%bool.

Definition cont (c : ascii) : bool := byte_in 128 191 c.

(** [utf8.ValidString]: the bytes are a sequence of well-formed UTF-8
    encodings (no overlong form, no surrogate half, nothing above
    U+10FFFF). *)
Fixpoint ValidString (s : string) : bool :=
  match s with
  | EmptyString => true
  | String b r =>
      if byte_in 0 127 b then ValidString r
      else if byte_in 194 223 b then
        match r with
        | String c1 r1 => cont c1 && ValidString r1
        | _ => false
        end
      else if byte_in 224 239 b then
        match r with
        | String c1 (String c2 r2) =>
            (if byte_in 224 224 b then byte_in 160 191 c1
             else if byte_in 237 237 b then byte_in 128 159 c1
             else cont c1)
            && cont c2 && ValidString r2
        | _ => false
        end
      else if byte_in 240 244 b then
        match r with
        | String c1 (String c2 (String c3 r3)) =>
            (if byte_in 240 240 b then byte_in 144 191 c1
             else if byte_in 244 244 b then byte_in 128 143 c1
             else cont c1)
            && cont c2 && cont c3 && ValidString r3
        | _ => false
        end
      else false
  end%bool.

End utf8.

(** ** Package [path] *)

Module path.
Import bytes.

(** One step of [path.Clean]'s scan, per path element.  [out] is the
    output buffer as the reversed list of the elements written so far and
    [dotdot] the number of leading elements that a [..] may not remove
    (Go keeps both as byte offsets into the buffer). *)
Definition clean_elem (rt : bool) (st : list string * nat) (e : string)
  : list string * nat :=
  let '(out, dotdot) := st in
  if decide (e = "") then st
  else if decide (e = ".") then st
  else if decide (e = "..") then
    if decide (dotdot < length out) then (tail out, dotdot)
    else if rt then st
    else (".." :: out, S (length out))
  else (e :: out, dotdot).

(** [path.Clean]. *)
Definition Clean (p : string) : string :=
  if decide (p = "") then "."
  else
    let rt := rooted p in
    let out := rev (fold_left (clean_elem rt) (split p) ([], 0)).1 in
    if rt then String slash (join out)
    else match out with
         | [] => "."
         | _ => join out
         end.

(** [path.Split]: [path[:i+1], path[i+1:]] for [i] the index of the last
    slash. *)
Definition Split (p : string) : string * string :=
  match strings.LastIndexByte p slash with
  | Some i => (upto (S i) p, from (S i) p)
  | None => (EmptyString, p)
  end.

(** The loop of [path.Base] that strips the trailing slashes. *)
Fixpoint strip_slashes (s : string) : string :=
  match s with
  | EmptyString => EmptyString
  | String c r =>
      match strip_slashes r with
      | EmptyString => if is_slash c then EmptyString else String c EmptyString
      | r' => String c r'
      end
  end.

(** [path.Base]. *)
Definition Base (p : string) : string :=
  if decide (p = "") then "."
  else
    let p1 := strip_slashes p in
    let p2 := match strings.LastIndexByte p1 slash with
              | Some i => from (S i) p1
              | None => p1
              end in
    if decide (p2 = "") then "/" else p2.

(** [path.Dir]. *)
Definition Dir (p : string) : string := Clean (Split p).1.

(** [path.Join] of two elements. *)
Definition Join (a b : string) : string :=
  match a, b with
  | EmptyString, EmptyString => EmptyString
  | EmptyString, _ => Clean b
  | _, EmptyString => Clean a
  | _, _ => Clean (a +:+ String slash b)
  end.

End path.

(** ** Package [io/fs]: paths, errors and file modes *)

Module fs.

(** An element that [fs.ValidPath] refuses. *)
Definition bad_elem (elem : string) : bool :=
  bool_decide (elem = "" ∨ elem = "." ∨ elem = "..").

(** [fs.ValidPath]: valid UTF-8, and either the root token ["."] or
    slash-separated elements none of which is empty, ["."] or [".."]. *)
Definition ValidPath (name : string) : bool :=
  if negb (utf8.ValidString name) then false
  else if decide (name = ".") then true
  else forallb (λ elem, negb (bad_elem elem)) (bytes.split name).

Inductive errno := ErrInvalid | ErrNotExist.

(** The [error] values that this package produces: [*fs.PathError] and
    [io.EOF]. *)
Inductive error :=
| PathError (Op Path : string) (Err : errno)
| EOF.

(** A Go result pair [(v, err)] with exactly one side set. *)
Inductive result (A : Type) :=
| Ok (v : A)
| Failed (err : error).
Global Arguments Ok {A} v.
Global Arguments Failed {A} err.

(** [fs.FileMode] is a [uint32]. *)
Definition FileMode := Z.
Definition ModeDir : FileMode := Z.shiftl 1 31%Z.
Definition ModePerm : FileMode := 511%Z.      (* 0777 *)
Definition write_bits : FileMode := 146%Z.    (* 0222 *)
Definition dir_perm : FileMode := 365%Z.      (* 0555 *)

End fs.

(** ** Package [archive/zip]: what [zipfs] reads of a [*zip.File] *)

Module zip.

(** [Name] and [UncompressedSize64] are header fields; [Mode] and
    [ModTime] are what [FileInfo().Mode()] and [FileInfo().ModTime()]
    report; [data] is the uncompressed content. *)
Record File := {
  Name : string;
  UncompressedSize64 : Z;
  Mode : fs.FileMode;
  ModTime : Z;
  data : string
}.

Global Instance File_eq_dec : EqDecision File.
Proof. solve_decision. Defined.

End zip.

(** ** Package [slices] *)

Module slices.

Section Sort.
Context {A : Type} (cmp : A → A → comparison).

Fixpoint insert (x : A) (l : list A) : list A :=
  match l with
  | [] => [x]
  | y :: r =>
      match cmp x y with
      | Gt => y :: insert x r
      | _ => x :: l
      end
  end.

(** [slices.SortFunc]: the elements in ascending order of [cmp].  Go
    promises no stability: elements that [cmp] holds equal come in an
    order that the library does not fix.  The insertion sort here is one
    sort that meets the contract; the statements on listings use of it
    that the result is in ascending order and a permutation of the
    argument, which fixes the result when no two elements compare equal
    ([sorted_listing_unique]). *)
Definition SortFunc (l : list A) : list A := foldr insert [] l.
End Sort.

End slices.

(** ** The index: [ZipFS], [dirInfo], [fileEntry] *)

(** An [fs.DirEntry] of this package is a [fileEntry] value or a
    [*dirInfo], the address of a directory object. *)
Inductive DirEntry :=
| fileEntry (file : zip.File)
| dirInfoRef (p : nat).

Global Instance DirEntry_eq_dec : EqDecision DirEntry.
Proof. solve_decision. Defined.

Record dirInfo := {
  name : string;
  modTime : Z;
  entries : list DirEntry
}.

(** [heap] holds the [dirInfo] objects that the pointers of [dirs] and of
    the [entries] lists refer to. *)
Record ZipFS := {
  reader : list zip.File;
  files : gmap string zip.File;
  dirs : gmap string nat;
  heap : list dirInfo
}.

Definition with_modTime (t : Z) (d : dirInfo) : dirInfo :=
  {| name := name d; modTime := t; entries := entries d |}.

(** [d.entries = append(d.entries, e)] *)
Definition append_entry (e : DirEntry) (d : dirInfo) : dirInfo :=
  {| name := name d; modTime := modTime d; entries := entries d ++ [e] |}.

Definition with_heap (z : ZipFS) (h : list dirInfo) : ZipFS :=
  {| reader := reader z; files := files z; dirs := dirs z; heap := h |}.

(** [p := &dirInfo{...}; z.dirs[key] = p]: the new object gets the next
    free address. *)
Definition new_dir (z : ZipFS) (key : string) (d : dirInfo) : ZipFS :=
  {| reader := reader z; files := files z;
     dirs := <[key := length (heap z)]> (dirs z);
     heap := heap z ++ [d] |}.

Definition set_file (z : ZipFS) (key : string) (f : zip.File) : ZipFS :=
  {| reader := reader z; files := <[key := f]> (files z);
     dirs := dirs z; heap := heap z |}.

(** The inner loop of [buildIndex]: hang [entry] under [dir], creating the
    missing directories upwards until one exists.  [None] when the fuel runs
    out or a pointer of the map is dangling. *)
Fixpoint populate (fuel : nat) (dirModTime : Z) (z : ZipFS)
    (dir : string) (entry : DirEntry) : option ZipFS :=
  match fuel with
  | O => None
  | S fuel' =>
      match dirs z !! dir with
      | Some p =>
          match heap z !! p with
          | Some parent =>
              Some (with_heap z (<[p := append_entry entry parent]> (heap z)))
          | None => None
          end
      | None =>
          let parent :=
            {| name := path.Base dir; modTime := dirModTime;
               entries := [entry] |} in
          populate fuel' dirModTime (new_dir z dir parent)
            (path.Dir dir) (dirInfoRef (length (heap z)))
      end
  end.

Definition isDir (f : zip.File) : bool :=
  bool_decide (String.length (zip.Name f) = 0)
  || bool_decide (bytes.last_byte (zip.Name f) = Some bytes.slash).

(** One iteration of the loop of [buildIndex] over [z.reader.File]. *)
Definition index_file (dirModTime : Z) (z : ZipFS) (f : zip.File)
  : option ZipFS :=
  let name := path.Clean (zip.Name f) in
  if decide (name = ".") then Some z
  else if bytes.rooted name then Some z
  else if isDir f then
    if decide (zip.UncompressedSize64 f ≠ 0%Z) then Some z
    else
      let dir := {| name := path.Base name; modTime := zip.ModTime f;
                    entries := [] |} in
      populate (S (String.length name)) dirModTime (new_dir z name dir)
        (path.Dir name) (dirInfoRef (length (heap z)))
  else
    populate (S (String.length name)) dirModTime (set_file z name f)
      (path.Dir name) (fileEntry f).

Fixpoint index_files (dirModTime : Z) (z : ZipFS) (l : list zip.File)
  : option ZipFS :=
  match l with
  | [] => Some z
  | f :: r =>
      match index_file dirModTime z f with
      | Some z' => index_files dirModTime z' r
      | None => None
      end
  end.

(** [buildIndex]; [dirModTime] is the value of [time.Now()]. *)
Definition buildIndex (dirModTime : Z) (z : ZipFS) : option ZipFS :=
  match dirs z !! "." with
  | Some p =>
      match heap z !! p with
      | Some root =>
          index_files dirModTime
            (with_heap z (<[p := with_modTime dirModTime root]> (heap z)))
            (reader z)
      | None => None
      end
  | None => None
  end.

(** [NewZipFS]; the zero [time.Time] is [0]. *)
Definition NewZipFS (now : Z) (r : list zip.File) : option ZipFS :=
  buildIndex now
    {| reader := r; files := ∅; dirs := {[ "." := 0 ]};
       heap := [ {| name := "."; modTime := 0%Z; entries := [] |} ] |}.

(** ** Go's [int] and run-time panics *)

Definition int_max : Z := (2 ^ 63 - 1)%Z.
Definition int_min : Z := (- 2 ^ 63)%Z.

(** The value that a Go [int] holds after an arithmetic overflow. *)
Definition wrap_int (x : Z) : Z := ((x + 2 ^ 63) mod 2 ^ 64 - 2 ^ 63)%Z.

(** A call either returns or stops the goroutine with a run-time panic
    (nil dereference, slice bounds out of range). *)
Inductive outcome (A : Type) :=
| Ret (a : A)
| Panic.
Global Arguments Ret {A} a.
Global Arguments Panic {A}.

(** ** Slices of directory entries

    A slice value is a window on a backing array.  The arrays that matter
    here are the live [entries] of a directory object of the index, and the
    arrays that [ZipFS.ReadDir] allocates for its callers. *)

Inductive array :=
| no_array                  (* the nil slice *)
| entries_of (p : nat)      (* the entries of the [dirInfo] at address p *)
| copy (k : nat).           (* the k-th array allocated by ReadDir *)

Record slice := { arr : array; off : nat; len : nat }.

Definition live_entries (z : ZipFS) (p : nat) : list DirEntry :=
  match heap z !! p with
  | Some d => entries d
  | None => []
  end.

Definition array_elems (z : ZipFS) (cs : list (list DirEntry)) (a : array)
  : list DirEntry :=
  match a with
  | no_array => []
  | entries_of p => live_entries z p
  | copy k => default [] (cs !! k)
  end.

(** The elements that a slice shows. *)
Definition elems (z : ZipFS) (cs : list (list DirEntry)) (s : slice)
  : list DirEntry :=
  take (len s) (drop (off s) (array_elems z cs (arr s))).

Definition with_entries (l : list DirEntry) (d : dirInfo) : dirInfo :=
  {| name := name d; modTime := modTime d; entries := l |}.

(** [s[i] = v], written through to the backing array. *)
Definition slice_set (z : ZipFS) (cs : list (list DirEntry)) (s : slice)
    (i : nat) (v : DirEntry) : outcome (ZipFS * list (list DirEntry)) :=
  if decide (i < len s) then
    match arr s with
    | no_array => Panic
    | entries_of p =>
        match heap z !! p with
        | Some d =>
            Ret (with_heap z
                   (<[p := with_entries (<[off s + i := v]> (entries d)) d]>
                      (heap z)), cs)
        | None => Panic
        end
    | copy k =>
        match cs !! k with
        | Some a => Ret (z, <[k := <[off s + i := v]> a]> cs)
        | None => Panic
        end
    end
  else Panic.

(** ** Directory entries and file information *)

(** An [fs.FileInfo] of this package is a [roFileInfo] around the
    information of a zip record, or a [*dirInfo]. *)
Inductive FileInfo :=
| roFileInfo (fsFileInfo : zip.File)
| dirInfoPtr (p : nat).

Module roFileInfo.
(** [rfi.fsFileInfo.Mode() &^ 0222] *)
Definition Mode (fsFileInfo : zip.File) : fs.FileMode :=
  Z.ldiff (zip.Mode fsFileInfo) fs.write_bits.
End roFileInfo.

Module dirInfo.
Definition Name (z : ZipFS) (p : nat) : string :=
  match heap z !! p with
  | Some i => name i
  | None => ""
  end.
Definition Mode (p : nat) : fs.FileMode := Z.lor fs.ModeDir fs.dir_perm.
Definition IsDir (p : nat) : bool := true.
Definition Info (p : nat) : FileInfo := dirInfoPtr p.
End dirInfo.

Module fileEntry.
Definition Name (file : zip.File) : string := path.Base (zip.Name file).
Definition IsDir (file : zip.File) : bool := false.
Definition Info (file : zip.File) : FileInfo := roFileInfo file.
End fileEntry.

(** Method dispatch on the two interfaces. *)
Definition Name (z : ZipFS) (e : DirEntry) : string :=
  match e with
  | fileEntry f => fileEntry.Name f
  | dirInfoRef p => dirInfo.Name z p
  end.

Definition IsDir (e : DirEntry) : bool :=
  match e with
  | fileEntry f => fileEntry.IsDir f
  | dirInfoRef p => dirInfo.IsDir p
  end.

Definition Info (e : DirEntry) : FileInfo :=
  match e with
  | fileEntry f => fileEntry.Info f
  | dirInfoRef p => dirInfo.Info p
  end.

Definition Mode (fi : FileInfo) : fs.FileMode :=
  match fi with
  | roFileInfo f => roFileInfo.Mode f
  | dirInfoPtr p => dirInfo.Mode p
  end.

(** ** Readers *)

Record dirReader := { info : nat; path : string; pos : Z }.

Record fileReader := { file : zip.File; rc : option string }.

(** An [fs.File] of this package. *)
Inductive File :=
| dirFile (d : dirReader)
| regFile (f : fileReader).

Module dirReader.

Definition rebase (d : dirReader) (prefix : string) : dirReader :=
  {| info := info d;
     path := strings.TrimPrefix (path d) (prefix +:+ "/");
     pos := pos d |}.

Definition Stat (d : dirReader) : FileInfo := dirInfoPtr (info d).

Definition with_pos (d : dirReader) (p : Z) : dirReader :=
  {| info := info d; path := path d; pos := p |}.

(** [Close] returns the reader with its cursor reset and the nil error. *)
Definition Close (d : dirReader) : dirReader * option fs.error :=
  (with_pos d 0%Z, None).

(** [ReadDir].  The slice expressions [entries[pos:]] and
    [entries[pos:end]] panic unless [0 <= pos <= end <= cap]; [end] never
    exceeds the length here, so the capacity plays no part. *)
Definition ReadDir (z : ZipFS) (d : dirReader) (n : Z)
  : outcome (fs.result slice * dirReader) :=
  match heap z !! info d with
  | None => Panic
  | Some i =>
      let l := Z.of_nat (length (entries i)) in
      if decide (n ≤ 0)%Z then
        if decide (0 ≤ pos d ≤ l)%Z then
          Ret (fs.Ok {| arr := entries_of (info d);
                        off := Z.to_nat (pos d);
                        len := Z.to_nat (l - pos d) |},
               with_pos d l)
        else Panic
      else if decide (l ≤ pos d)%Z then Ret (fs.Failed fs.EOF, d)
      else
        let end0 := wrap_int (pos d + n) in
        let end_ := if decide (l < end0)%Z then l else end0 in
        if decide (0 ≤ pos d ≤ end_)%Z then
          if decide (Z.to_nat (end_ - pos d) = 0) then
            Ret (fs.Failed fs.EOF, with_pos d end_)
          else
            Ret (fs.Ok {| arr := entries_of (info d);
                          off := Z.to_nat (pos d);
                          len := Z.to_nat (end_ - pos d) |},
                 with_pos d end_)
        else Panic
  end.

End dirReader.

Module fileReader.
Definition Stat (f : fileReader) : FileInfo := roFileInfo (file f).
End fileReader.

Definition Stat (f : File) : FileInfo :=
  match f with
  | dirFile d => dirReader.Stat d
  | regFile r => fileReader.Stat r
  end.

(** ** The root view: methods of [*ZipFS] *)

Record subFS := { parent : ZipFS; prefix : string }.

(** An [fs.FS] value handed out by [Sub]: the [*ZipFS] itself, or the
    address of a [subFS] object in the store of allocated views. *)
Inductive FS :=
| rootFS
| subFSRef (a : nat).

Module ZipFS.

Definition Open (z : ZipFS) (name : string) : fs.result File :=
  if negb (fs.ValidPath name)
  then fs.Failed (fs.PathError "open" name fs.ErrInvalid)
  else
    let name := path.Clean name in
    match dirs z !! name with
    | Some dir => fs.Ok (dirFile {| info := dir; path := name; pos := 0%Z |})
    | None =>
        match files z !! name with
        | Some f => fs.Ok (regFile {| file := f; rc := None |})
        | None => fs.Failed (fs.PathError "open" name fs.ErrNotExist)
        end
    end.

Definition by_name (z : ZipFS) (a b : DirEntry) : comparison :=
  strings.Compare (Name z a) (Name z b).

(** [ReadDir]: the sorted copy lives in a new array, unless the directory
    is empty ([append] of nothing to the nil slice is the nil slice). *)
Definition ReadDir (z : ZipFS) (cs : list (list DirEntry)) (name : string)
  : fs.result slice * list (list DirEntry) :=
  if negb (fs.ValidPath name)
  then (fs.Failed (fs.PathError "readdir" name fs.ErrInvalid), cs)
  else
    let cleanName := path.Clean name in
    match dirs z !! cleanName with
    | None => (fs.Failed (fs.PathError "readdir" name fs.ErrNotExist), cs)
    | Some dir =>
        match live_entries z dir with
        | [] => (fs.Ok {| arr := no_array; off := 0; len := 0 |}, cs)
        | l =>
            (fs.Ok {| arr := copy (length cs); off := 0; len := length l |},
             cs ++ [slices.SortFunc (by_name z) l])
        end
    end.

Definition Sub (z : ZipFS) (views : list subFS) (dir : string)
  : fs.result FS * list subFS :=
  if negb (fs.ValidPath dir)
  then (fs.Failed (fs.PathError "sub" dir fs.ErrInvalid), views)
  else
    let dir := path.Clean dir in
    if decide (dir = ".") then (fs.Ok rootFS, views)
    else
      match dirs z !! dir with
      | None => (fs.Failed (fs.PathError "sub" dir fs.ErrNotExist), views)
      | Some _ =>
          (fs.Ok (subFSRef (length views)),
           views ++ [ {| parent := z; prefix := dir |} ])
      end.

End ZipFS.

(** ** Sub-tree views: methods of [*subFS] *)

Module subFS.

Definition rebaseAny (s : subFS) (f : File) : File :=
  match f with
  | dirFile d => dirFile (dirReader.rebase d (prefix s))
  | regFile r => regFile r
  end.

Definition rebaseError (s : subFS) (err : fs.error) : fs.error :=
  match err with
  | fs.PathError op p e =>
      fs.PathError op (strings.TrimPrefix p (prefix s +:+ "/")) e
  | fs.EOF => fs.EOF
  end.

Definition Open (s : subFS) (name : string) : fs.result File :=
  if negb (fs.ValidPath name)
  then fs.Failed (fs.PathError "open" name fs.ErrInvalid)
  else
    match ZipFS.Open (parent s) (path.Join (prefix s) name) with
    | fs.Ok f => fs.Ok (rebaseAny s f)
    | fs.Failed err => fs.Failed (rebaseError s err)
    end.

Definition Sub (s : subFS) (views : list subFS) (dir : string)
  : fs.result FS * list subFS :=
  if negb (fs.ValidPath dir)
  then (fs.Failed (fs.PathError "sub" dir fs.ErrInvalid), views)
  else
    match ZipFS.Sub (parent s) views (path.Join (prefix s) dir) with
    | (fs.Ok ss, views') => (fs.Ok ss, views')
    | (fs.Failed err, views') => (fs.Failed (rebaseError s err), views')
    end.

End subFS.

(** Method dispatch on an [fs.FS] value; [z] is the archive filesystem that
    [rootFS] stands for.  A dangling view address is a nil dereference. *)
Definition FS_Open (z : ZipFS) (views : list subFS) (v : FS) (name : string)
  : outcome (fs.result File) :=
  match v with
  | rootFS => Ret (ZipFS.Open z name)
  | subFSRef a =>
      match views !! a with
      | Some s => Ret (subFS.Open s name)
      | None => Panic
      end
  end.

Definition FS_Sub (z : ZipFS) (views : list subFS) (v : FS) (dir : string)
  : outcome (fs.result FS * list subFS) :=
  match v with
  | rootFS => Ret (ZipFS.Sub z views dir)
  | subFSRef a =>
      match views !! a with
      | Some s => Ret (subFS.Sub s views dir)
      | None => Panic
      end
  end.

(** ** Notions used in the statements *)

(** Sum of the lengths of the elements, each counted with one separator. *)
Definition size (l : list string) : nat :=
  list_sum (map (λ e, S (String.length e)) l).

(** An element that [fs.ValidPath] accepts. *)
Definition good_elem (e : string) : Prop := e ≠ "" ∧ e ≠ "." ∧ e ≠ "..".

(** Every element kept in the buffer of [path.Clean] is a non-empty element
    of the path. *)
Definition kept (e : string) : Prop := e ≠ "" ∧ bytes.has_slash e = false.

(** Well-formed index: the root is present and no pointer dangles. *)
Definition wf (z : ZipFS) : Prop :=
  is_Some (dirs z !! ".") ∧ ∀ k p, dirs z !! k = Some p → p < length (heap z).

(** Values of Go's type [int]. *)
Definition is_int (n : Z) : Prop := (int_min ≤ n ≤ int_max)%Z.

(** The entries are in ascending order of their names. *)
Definition sorted_by_name (z : ZipFS) (l : list DirEntry) : Prop :=
  StronglySorted (λ a b, String.le (Name z a) (Name z b)) l.

(** The names shown by the child list of the directory at [key]. *)
Definition child_names (z : ZipFS) (key : string) : list string :=
  match dirs z !! key with
  | Some p => Name z <$> live_entries z p
  | None => []
  end.

(** The record is indexed as a file: it passes the checks of [buildIndex]
    and is not classified as a directory. *)
Definition indexed_file (f : zip.File) : bool :=
  negb (bool_decide (path.Clean (zip.Name f) = "."))
  && negb (bytes.rooted (path.Clean (zip.Name f)))
  && negb (isDir f).

(** The record is indexed as a file under the path [key]. *)
Definition indexed_at (key : string) (f : zip.File) : bool :=
  indexed_file f && bool_decide (path.Clean (zip.Name f) = key).

Definition files_of (l : list DirEntry) : list zip.File :=
  omap (λ e, match e with fileEntry f => Some f | dirInfoRef _ => None end) l.

(** The file entries of all the directory objects. *)
Definition file_entries (z : ZipFS) : list zip.File :=
  heap z ≫= λ d, files_of (entries d).

(** A record that [buildIndex] drops: absolute path, or directory with
    declared content. *)
Definition malformed (f : zip.File) : Prop :=
  bytes.rooted (zip.Name f) = true
  ∨ (isDir f = true ∧ zip.UncompressedSize64 f ≠ 0%Z).

(** Two build results hold the same index. *)
Definition same_index (o1 o2 : option ZipFS) : Prop :=
  match o1, o2 with
  | Some z1, Some z2 =>
      files z1 = files z2 ∧ dirs z1 = dirs z2 ∧ heap z1 = heap z2
  | _, _ => False
  end.

Definition with_reader (r : list zip.File) (z : ZipFS) : ZipFS :=
  {| reader := r; files := files z; dirs := dirs z; heap := heap z |}.

(** The index before the first record is read. *)
Definition empty_index (now : Z) : ZipFS :=
  {| reader := []; files := ∅; dirs := {[ "." := 0 ]};
     heap := [ {| name := "."; modTime := now; entries := [] |} ] |}.

(** What [ZipFS.Sub] guarantees of the views it allocates. *)
Definition view_ok (s : subFS) : Prop :=
  fs.ValidPath (prefix s) = true ∧ prefix s ≠ "."
  ∧ is_Some (dirs (parent s) !! prefix s).

(** [Sub(".")] hands back the receiver itself. *)
Definition Sub_dot_returns_receiver (z : ZipFS) (views : list subFS) (v : FS)
  : Prop :=
  ∃ views', FS_Sub z views v "." = Ret (fs.Ok v, views').

(** [a] and [b] are the same kind of result with the same content: the same
    file, the same directory object at the same cursor, or the same error
    kind; an error of [a] reports the path [rel]. *)
Definition same_open (rel : string) (a b : fs.result File) : Prop :=
  match a, b with
  | fs.Ok (regFile f), fs.Ok (regFile g) => f = g
  | fs.Ok (dirFile d), fs.Ok (dirFile e) => info d = info e ∧ pos d = pos e
  | fs.Failed (fs.PathError op p err), fs.Failed (fs.PathError op' _ err') =>
      op = op' ∧ err = err' ∧ p = rel
  | _, _ => False
  end.

(** A path all of whose elements [fs.ValidPath] accepts. *)
Definition good_path (k : string) : Prop := Forall good_elem (bytes.split k).


(** The path under which the index holds the object of an entry. *)
Definition path_of (z : ZipFS) (e : DirEntry) (k : string) : Prop :=
  match e with
  | fileEntry f => files z !! k = Some f
  | dirInfoRef q => dirs z !! k = Some q
  end.

(** [k] lies below the path of an indexed file. *)
Definition under_file (z : ZipFS) (k : string) : Prop :=
  map_Exists (λ a _, strings.HasPrefix k (a +:+ "/") = true) (files z).

(** The index is a tree without duplicate names; [pend] is the path of the
    one object that is in the maps and not yet in a child list. *)
Record inv (z : ZipFS) (pend : option string) : Prop := {
  inv_root : is_Some (dirs z !! ".");
  inv_bound : ∀ k p, dirs z !! k = Some p → p < length (heap z);
  inv_dname : ∀ k p d, dirs z !! k = Some p → heap z !! p = Some d →
                k ≠ "." → good_path k ∧ name d = path.Base k;
  inv_inj : ∀ k1 k2 p, dirs z !! k1 = Some p → dirs z !! k2 = Some p → k1 = k2;
  inv_fname : ∀ k f, files z !! k = Some f → good_path k ∧ zip.Name f = k;
  inv_kids : ∀ dk p d e, dirs z !! dk = Some p → heap z !! p = Some d →
               e ∈ entries d →
               ∃ k, path_of z e k ∧ path.Dir k = dk ∧ good_path k ∧ Some k ≠ pend;
  inv_nodup : ∀ dk p d, dirs z !! dk = Some p → heap z !! p = Some d →
                NoDup (Name z <$> entries d)
}.

(** A record that collides with nothing in the index: it is dropped, or its
    path is a good path in normal form that is new to both maps and lies
    below no indexed file. *)
Definition admissible (z : ZipFS) (f : zip.File) : Prop :=
  let k := path.Clean (zip.Name f) in
  k = "." ∨ bytes.rooted k = true
  ∨ (isDir f = true ∧ zip.UncompressedSize64 f ≠ 0%Z)
  ∨ (good_path k ∧ dirs z !! k = None ∧ files z !! k = None
     ∧ ¬ under_file z k ∧ (isDir f = false → zip.Name f = k)).

(** Every record of the list is admissible when its turn comes. *)
Fixpoint collision_free (now : Z) (z : ZipFS) (l : list zip.File) : Prop :=
  match l with
  | [] => True
  | f :: r =>
      admissible z f
      ∧ match index_file now z f with
        | Some z' => collision_free now z' r
        | None => True
        end
  end.

Global Instance good_elem_dec e : Decision (good_elem e).
Proof. unfold good_elem. apply _. Defined.

Global Instance good_path_dec k : Decision (good_path k).
Proof. unfold good_path. apply _. Defined.

Global Instance under_file_dec z k : Decision (under_file z k).
Proof. unfold under_file. apply _. Defined.

Global Instance admissible_dec z f : Decision (admissible z f).
Proof. unfold admissible. apply _. Defined.

Global Instance collision_free_dec now z l : Decision (collision_free now z l).
Proof.
  revert z. induction l as [|f l IH]; intros z; simpl; [apply _|].
  destruct (index_file now z f); apply _.
Defined.


(** ** The other methods of entries, readers and views *)

(** [fs.ModeType], the mask of the type bits: [ModeDir | ModeSymlink |
    ModeNamedPipe | ModeSocket | ModeDevice | ModeCharDevice |
    ModeIrregular]. *)
Definition ModeType : fs.FileMode :=
  Z.lor fs.ModeDir
    (Z.lor (Z.shiftl 1 27)
       (Z.lor (Z.shiftl 1 25)
          (Z.lor (Z.shiftl 1 24)
             (Z.lor (Z.shiftl 1 26)
                (Z.lor (Z.shiftl 1 21) (Z.shiftl 1 19)))))).

(** [fs.FileMode.Type]: [m & ModeType]. *)
Definition FileMode_Type (m : fs.FileMode) : fs.FileMode := Z.land m ModeType.

(** [fileEntry.Type]: [i.file.FileInfo().Mode().Type()]. *)
Definition fileEntry_Type (file : zip.File) : fs.FileMode :=
  FileMode_Type (zip.Mode file).

(** [dirInfo.Type], [dirInfo.ModTime]. *)
Definition dirInfo_Type (p : nat) : fs.FileMode := fs.ModeDir.

Definition dirInfo_ModTime (z : ZipFS) (p : nat) : Z :=
  match heap z !! p with
  | Some i => modTime i
  | None => 0%Z
  end.

(** Method dispatch of [fs.DirEntry.Type]. *)
Definition EntryType (e : DirEntry) : fs.FileMode :=
  match e with
  | fileEntry f => fileEntry_Type f
  | dirInfoRef p => dirInfo_Type p
  end.

(** [dirReader.Read]: the byte count and the error; the buffer is not
    looked at. *)
Definition dirReader_Read (d : dirReader) : Z * fs.error :=
  (0%Z, fs.PathError "read" (path d) fs.ErrInvalid).

(** [subFS.ReadDir].  [rebaseSlice] changes nothing: it calls [rebaseAny]
    on every entry, and neither [*fileEntry] nor [*dirInfo] has a [rebase]
    method. *)
Definition subFS_ReadDir (s : subFS) (cs : list (list DirEntry))
    (name : string) : fs.result slice * list (list DirEntry) :=
  if negb (fs.ValidPath name)
  then (fs.Failed (fs.PathError "readdir" name fs.ErrInvalid), cs)
  else
    match ZipFS.ReadDir (parent s) cs (path.Join (prefix s) name) with
    | (fs.Ok entries, cs') => (fs.Ok entries, cs')
    | (fs.Failed err, cs') => (fs.Failed (subFS.rebaseError s err), cs')
    end.

(** ** Reading the content of a file: [ReadFile] *)

(** Error values of any origin: the two sentinels of [io/fs], an error of
    another package (kept as its text), a [*fs.PathError] around an error,
    and an error wrapped by [fmt.Errorf]. *)
Inductive any_error :=
| Errno (e : fs.errno)
| Foreign (msg : string)
| PathErr (Op Path : string) (Err : any_error)
| Errorf (text : string) (err : any_error).   (* fmt.Errorf("%v: %w", text, err) *)

Section ReadFile.

(** What the archive gives for a record: the error of [zip.File.Open],
    or the bytes and the error that [io.ReadAll] returns on the opened
    stream. *)
Variable ReadAll : zip.File → any_error + (string * option any_error).

(** [ZipFS.ReadFile]; the nil byte slice is the empty string. *)
Definition ZipFS_ReadFile (z : ZipFS) (name : string)
  : string * option any_error :=
  if negb (fs.ValidPath name)
  then ("", Some (PathErr "readfile" name (Errno fs.ErrInvalid)))
  else
    let cleanName := path.Clean name in
    match files z !! cleanName with
    | None => ("", Some (PathErr "readfile" name (Errno fs.ErrNotExist)))
    | Some file =>
        match ReadAll file with
        | inl err => ("", Some (PathErr "readfile" name err))
        | inr r => r
        end
    end.

(** [subFS.rebaseError] on these error values. *)
Definition rebaseError_any (s : subFS) (err : any_error) : any_error :=
  match err with
  | PathErr op p e => PathErr op (strings.TrimPrefix p (prefix s +:+ "/")) e
  | _ => err
  end.

(** [subFS.ReadFile]. *)
Definition subFS_ReadFile (s : subFS) (name : string)
  : string * option any_error :=
  if negb (fs.ValidPath name)
  then ("", Some (PathErr "readfile" name (Errno fs.ErrInvalid)))
  else
    let '(b, err) := ZipFS_ReadFile (parent s) (path.Join (prefix s) name) in
    (b, rebaseError_any s <$> err).

End ReadFile.

(** An archive all of whose records open and read without error. *)
Definition intact (f : zip.File) : any_error + (string * option any_error) :=
  inr (zip.data f, None).

(** ** The file reader: [fileReader.Read], [fileReader.Close]

    The stream of a record is opened by the first [Read] and dropped by
    [Close].  What [archive/zip] does is given by three functions; the
    calls to it are recorded. *)

Inductive stream_event :=
| StreamOpen (ok : bool)       (* f.file.Open(), and whether it succeeded *)
| StreamRead                   (* f.rc.Read(b) *)
| StreamClose.                 (* f.rc.Close() *)

Global Instance stream_event_eq_dec : EqDecision stream_event.
Proof. solve_decision. Defined.

(** The calls that a user makes on a file reader. *)
Inductive call := CallRead (n : nat) | CallClose.

Section FileReader.

(** [zip.File.Open]: the error, or the state of the new stream. *)
Variable zopen : zip.File → any_error + string.

(** [rc.Read(b)] with [len(b) = n]: the bytes and the error, and the state
    of the stream after the call. *)
Variable sread : string → nat → (string * option any_error) * string.

(** [rc.Close()]. *)
Variable sclose : string → option any_error.

Definition fileReader_Read (f : fileReader) (n : nat)
  : (string * option any_error) * fileReader * list stream_event :=
  match rc f with
  | None =>
      match zopen (file f) with
      | inl err => (("", Some err), f, [StreamOpen false])
      | inr st =>
          let '(res, st') := sread st n in
          (res, {| file := file f; rc := Some st' |},
           [StreamOpen true; StreamRead])
      end
  | Some st =>
      let '(res, st') := sread st n in
      (res, {| file := file f; rc := Some st' |}, [StreamRead])
  end.

Definition fileReader_Close (f : fileReader)
  : option any_error * fileReader * list stream_event :=
  match rc f with
  | Some st => (sclose st, {| file := file f; rc := None |}, [StreamClose])
  | None => (None, f, [])
  end.

(** The reader and the trace after a sequence of calls. *)
Fixpoint calls (f : fileReader) (l : list call)
  : fileReader * list stream_event :=
  match l with
  | [] => (f, [])
  | c :: l =>
      let '(f', t) :=
        match c with
        | CallRead n => let '(_, f', t) := fileReader_Read f n in (f', t)
        | CallClose => let '(_, f', t) := fileReader_Close f in (f', t)
        end in
      let '(f'', t') := calls f' l in
      (f'', t ++ t')
  end.

End FileReader.

(** The number of streams that the reader holds. *)
Definition held (f : fileReader) : Z :=
  match rc f with Some _ => 1%Z | None => 0%Z end.

(** The number of streams that a trace leaves open. *)
Definition open_streams (t : list stream_event) : Z :=
  (Z.of_nat (length (filter (λ e, e = StreamOpen true) t))
   - Z.of_nat (length (filter (λ e, e = StreamClose) t)))%Z.

(** ** The caller: [Version.OpenFS] of package [modfs]

    [OpenFS] fetches the zip file of a module version from the module
    filesystem, copies it to a temporary file when it cannot be read at
    arbitrary offsets, builds the [ZipFS] and returns the view on the
    directory [module@version].  The calls into the operating system and
    into the module filesystem are recorded as a trace of events; their
    outcomes are given by the world. *)

Module modfs.

(** The two files that [OpenFS] holds: [f], opened from the module
    filesystem, and the temporary copy. *)
Inductive handle := source | temp.

Inductive event :=
| EvOpen (path : string)       (* ver.module.fs.fs.Open(path) *)
| EvCreateTemp                 (* os.CreateTemp *)
| EvCopy                       (* io.Copy(fi, f) *)
| EvSeek                       (* fi.Seek(0, 0) *)
| EvStat                       (* f.Stat() *)
| EvNewReader (size : Z)       (* zip.NewReader(r, size) *)
| EvClose (h : handle)         (* f.Close(), fi.Close() *)
| EvRemove.                    (* os.Remove(fi.Name()) *)

Global Instance handle_eq_dec : EqDecision handle.
Proof. solve_decision. Defined.

Global Instance event_eq_dec : EqDecision event.
Proof. solve_decision. Defined.

(** The outcomes of the calls.  [stat] is asked with the state of [f]:
    closed or not. *)
Record world := {
  now : Z;                                     (* time.Now() *)
  open_err : option any_error;
  is_ReaderAt : bool;         (* f implements io.ReaderAt and io.Closer *)
  createTemp_err : option any_error;
  copy_err : option any_error;
  seek_err : option any_error;
  stat : bool → any_error + (bool * Z);        (* IsDir(), Size() *)
  newReader : any_error + list zip.File
}.

(** The closer [r]: the file itself, or the wrapper around the temporary
    copy that removes it on [Close]. *)
Inductive closer := the_file | temp_copy.

(** What [r.Close()] does. *)
Definition Close (r : closer) : list event :=
  match r with
  | the_file => [EvClose source]
  | temp_copy => [EvClose temp; EvRemove]
  end.

(** The value that [OpenFS] returns: the view with the filesystem and the
    store of views it lives in, and the closer. *)
Record moduleFS := {
  ffs : FS;
  zfs : ZipFS;
  views : list subFS;
  r : closer
}.

(** An error of package [zipfs] as an error value. *)
Definition of_fs (err : fs.error) : any_error :=
  match err with
  | fs.PathError op p e => PathErr op p (Errno e)
  | fs.EOF => Foreign "EOF"
  end.

(** The part of [OpenFS] after [r] is set.  [closed] tells whether [f] is
    closed already; [None] stands for an index construction that does not
    return. *)
Definition serve (w : world) (modulePath version zipPath : string)
    (closed : bool) (r : closer)
  : option ((any_error + moduleFS) * list event) :=
  match stat w closed with
  | inl err => Some (inl (PathErr "stat" zipPath err), EvStat :: Close r)
  | inr (isDir, size) =>
      if isDir
      then Some (inl (PathErr "open" zipPath (Errno fs.ErrInvalid)),
                 EvStat :: Close r)
      else
        match newReader w with
        | inl err => Some (inl err, EvStat :: EvNewReader size :: Close r)
        | inr zr =>
            match NewZipFS (now w) zr with
            | None => None
            | Some zfs =>
                match ZipFS.Sub zfs [] (modulePath +:+ "@" +:+ version) with
                | (fs.Failed err, _) =>
                    Some (inl (PathErr "zipread" zipPath (of_fs err)),
                          EvStat :: EvNewReader size :: Close r)
                | (fs.Ok subfs, views) =>
                    Some (inr {| ffs := subfs; zfs := zfs; views := views;
                                 r := r |},
                          [EvStat; EvNewReader size])
                end
            end
        end
  end.

(** [Version.OpenFS]. *)
Definition OpenFS (w : world) (modulePath version : string)
  : option ((any_error + moduleFS) * list event) :=
  let zipPath := modulePath +:+ "/@v/" +:+ version +:+ ".zip" in
  match open_err w with
  | Some err => Some (inl err, [EvOpen zipPath])
  | None =>
      if is_ReaderAt w then
        '(res, t) ← serve w modulePath version zipPath false the_file;
        Some (res, EvOpen zipPath :: t)
      else
        match createTemp_err w with
        | Some err =>
            Some (inl (Errorf zipPath err),
                  [EvOpen zipPath; EvCreateTemp; EvClose source])
        | None =>
            match copy_err w with
            | Some err =>
                Some (inl (Errorf zipPath err),
                      [EvOpen zipPath; EvCreateTemp; EvCopy; EvClose source;
                       EvClose temp])
            | None =>
                match seek_err w with
                | Some err =>
                    Some (inl (Errorf zipPath err),
                          [EvOpen zipPath; EvCreateTemp; EvCopy;
                           EvClose source; EvSeek; EvClose temp])
                | None =>
                    '(res, t) ← serve w modulePath version zipPath true
                                  temp_copy;
                    Some (res,
                          [EvOpen zipPath; EvCreateTemp; EvCopy;
                           EvClose source; EvSeek] ++ t)
                end
            end
        end
  end.

(** [Open] succeeds; [OpenFS] creates the temporary file. *)
Definition opens (w : world) : bool :=
  match open_err w with None => true | Some _ => false end.

Definition makes_temp (w : world) : bool :=
  opens w && negb (is_ReaderAt w)
  && match createTemp_err w with None => true | Some _ => false end.

(** The temporary file is filled and rewound. *)
Definition fills_temp (w : world) : bool :=
  makes_temp w
  && match copy_err w with None => true | Some _ => false end
  && match seek_err w with None => true | Some _ => false end.

(** How often the handle [h] is closed in a trace. *)
Definition closes (h : handle) (t : list event) : nat :=
  length (filter (λ e, e = EvClose h) t).

(** The trace of a call of [OpenFS], followed by the [Close] of the
    filesystem it returned. *)
Definition whole (res : any_error + moduleFS) (t : list event) : list event :=
  match res with
  | inl _ => t
  | inr m => t ++ Close (r m)
  end.

(** [ReadFile] of the filesystem that [OpenFS] returns. *)
Definition ReadFile (R : zip.File → any_error + (string * option any_error))
    (m : moduleFS) (name : string) : outcome (string * option any_error) :=
  match ffs m with
  | rootFS => Ret (ZipFS_ReadFile R (zfs m) name)
  | subFSRef a =>
      match views m !! a with
      | Some s => Ret (subFS_ReadFile R s name)
      | None => Panic
      end
  end.

End modfs.

(** ** More notions used in the statements *)

(** The record is indexed as a directory. *)
Definition indexed_dir (f : zip.File) : bool :=
  negb (bool_decide (path.Clean (zip.Name f) = "."))
  && negb (bytes.rooted (path.Clean (zip.Name f)))
  && isDir f
  && bool_decide (zip.UncompressedSize64 f = 0%Z).

(** [Dir k], [Dir (Dir k)], ...: [n] steps up from [k]. *)
Fixpoint parents (n : nat) (k : string) : list string :=
  match n with
  | 0 => []
  | S n => path.Dir k :: parents n (path.Dir k)
  end.

(** The directories above [k], up to the root (the root repeats once it
    is reached). *)
Definition ancestors (k : string) : list string :=
  parents (String.length k) k.

(** Every directory of the index has its parent directory in the index. *)
Definition dirs_closed (z : ZipFS) : Prop :=
  ∀ k, is_Some (dirs z !! k) → is_Some (dirs z !! path.Dir k).

(** Every path of the index has its parent directory in the index. *)
Definition closed (z : ZipFS) : Prop :=
  dirs_closed z
  ∧ (∀ k, is_Some (files z !! k) → is_Some (dirs z !! path.Dir k)).

(** What the record [f] adds to the directories of the index: its own
    path when it is a directory record, and the directories above its
    path. *)
Definition adds_dir (f : zip.File) (k : string) : Prop :=
  (indexed_dir f = true ∧ k = path.Clean (zip.Name f))
  ∨ ((indexed_file f || indexed_dir f) = true
     ∧ k ∈ ancestors (path.Clean (zip.Name f))).

(** Every directory of the path map has an object, named after the last
    element of its path and stamped with the time [T] gives its path. *)
Definition dir_meta (T : string → Z) (z : ZipFS) : Prop :=
  ∀ k p, dirs z !! k = Some p →
    ∃ d, heap z !! p = Some d ∧ name d = path.Base k ∧ modTime d = T k.

(** No path is both a file and a directory. *)
Definition exclusive (z : ZipFS) : Prop :=
  ∀ k, is_Some (files z !! k) → dirs z !! k = None.

(** The record is indexed as the directory [key]. *)
Definition indexed_dir_at (key : string) (f : zip.File) : bool :=
  indexed_dir f && bool_decide (path.Clean (zip.Name f) = key).

(** The time stamp that the records give the directory [key]: the one of
    its last directory record, or the time of the build. *)
Definition dir_time (now : Z) (rs : list zip.File) (key : string) : Z :=
  match last (filter (λ f, indexed_dir_at key f) rs) with
  | Some f => zip.ModTime f
  | None => now
  end.

(** Every path of the index other than the root and [pend] is an entry of
    the child list of its parent directory. *)
Definition listed (z : ZipFS) (pend : option string) : Prop :=
  ∀ e k, path_of z e k → k ≠ "." → Some k ≠ pend →
    ∃ p d, dirs z !! path.Dir k = Some p ∧ heap z !! p = Some d
           ∧ e ∈ entries d.

(** The directory entry that stands for an opened file. *)
Definition entry_of (f : File) : DirEntry :=
  match f with
  | dirFile d => dirInfoRef (info d)
  | regFile r => fileEntry (file r)
  end.

(** No two paths share a directory object. *)
Definition dirs_inj (z : ZipFS) : Prop :=
  ∀ k1 k2 p, dirs z !! k1 = Some p → dirs z !! k2 = Some p → k1 = k2.

(** No directory entry refers to a missing directory object. *)
Definition refs_ok (z : ZipFS) : Prop :=
  ∀ p d q, heap z !! p = Some d → dirInfoRef q ∈ entries d →
    q < length (heap z).

(** ** Sample archives *)

(** A zip record with the given name and content, mode 0644. *)
Definition record (n d : string) : zip.File :=
  {| zip.Name := n; zip.UncompressedSize64 := Z.of_nat (String.length d);
     zip.Mode := 420%Z; zip.ModTime := 0%Z; zip.data := d |}.

(** The root directory of [demo_flat]. *)
Definition demo_dir : dirInfo :=
  {| name := "."; modTime := 0%Z;
     entries := [fileEntry (record "b.txt" "B"); fileEntry (record "a.txt" "A")] |}.

(** The index of an archive with the records [b.txt] and [a.txt], in this
    order; [demo_dir] is its root directory. *)
Definition demo_flat : ZipFS :=
  default (empty_index 0)
    (NewZipFS 0 [record "b.txt" "B"; record "a.txt" "A"]).

(** The index of an archive with the single record [d/f.txt]. *)
Definition demo_fs : ZipFS :=
  default (empty_index 0) (NewZipFS 0 [record "d/f.txt" "x"]).

(** An archive with an explicit directory, nested files and no two records
    of one path. *)
Definition demo_records : list zip.File :=
  [record "d/" ""; record "d/f.txt" "x"; record "x/y/z.txt" "z";
   record "a.txt" "A"; record "x/w.txt" "w"].


(** The index of [demo_records]. *)
Definition demo_tree : ZipFS :=
  default (empty_index 0) (NewZipFS 0 demo_records).

(** The view of [demo_tree] on its directory [x]. *)
Definition demo_view : subFS := {| parent := demo_tree; prefix := "x" |}.

(** The index of an archive whose directory record [d/] comes after a
    record below it. *)
Definition late_dir : ZipFS :=
  default (empty_index 0)
    (NewZipFS 0 ([record "d/f.txt" "x"] ++ [record "d/" ""])).

(** A directory record with a time stamp of its own, and a file two levels
    below it. *)
Definition stamped_records : list zip.File :=
  [ {| zip.Name := "d/"; zip.UncompressedSize64 := 0%Z; zip.Mode := 493%Z;
       zip.ModTime := 5%Z; zip.data := "" |};
    record "d/e/f.txt" "x" ].

(** The index of [stamped_records], built at the time 9. *)
Definition stamped : ZipFS :=
  default (empty_index 9) (NewZipFS 9 stamped_records).

(** The index of an archive with the single record [h.txt]. *)
Definition greeting : ZipFS :=
  default (empty_index 0) (NewZipFS 0 [record "h.txt" "hello"]).

(** The streams of an archive whose records are intact: a stream is the
    bytes that were not read yet, [Read] gives the next [n] of them, and
    [io.EOF] once none is left. *)
Definition intact_open (f : zip.File) : any_error + string :=
  inr (zip.data f).

Definition intact_read (st : string) (n : nat)
  : (string * option any_error) * string :=
  match st with
  | EmptyString => (("", Some (Foreign "EOF")), "")
  | _ => ((bytes.upto n st, None), bytes.from n st)
  end.

Definition intact_close (st : string) : option any_error := None.

(** The zip file of the version [v1] of a module [m]. *)
Definition module_records : list zip.File :=
  [record "m@v1/go.mod" "module m"; record "m@v1/a/b.go" "package a"].

(** A world where every call succeeds; the zip file cannot be read at
    arbitrary offsets and is copied to a temporary file. *)
Definition demo_world : modfs.world :=
  {| modfs.now := 0%Z; modfs.open_err := None; modfs.is_ReaderAt := false;
     modfs.createTemp_err := None; modfs.copy_err := None;
     modfs.seek_err := None; modfs.stat := λ _, inr (false, 100%Z);
     modfs.newReader := inr module_records |}.

(** The same world, where the copy to the temporary file fails. *)
Definition failing_copy : modfs.world :=
  {| modfs.now := 0%Z; modfs.open_err := None; modfs.is_ReaderAt := false;
     modfs.createTemp_err := None;
     modfs.copy_err := Some (Foreign "no space left on device");
     modfs.seek_err := None; modfs.stat := λ _, inr (false, 100%Z);
     modfs.newReader := inr module_records |}.

(** The filesystem that [OpenFS] returns in [demo_world]. *)
Definition demo_module : modfs.moduleFS :=
  let z := default (empty_index 0) (NewZipFS 0 module_records) in
  {| modfs.ffs := subFSRef 0; modfs.zfs := z;
     modfs.views := [ {| parent := z; prefix := "m@v1" |} ];
     modfs.r := modfs.temp_copy |}.


(** * Properties *)

(** ** The model of [path] agrees with Go's test tables *)

Example Clean_table :
  map path.Clean
    [""; "abc"; "abc/def"; "."; ".."; "../.."; "../../abc"; "/abc"; "/";
     "abc/"; "./"; "../"; "/abc/"; "abc//def//ghi"; "//abc"; "//abc//";
     "abc/./def"; "/./abc/def"; "abc/."; "abc/def/ghi/../jkl";
     "abc/def/../ghi/../jkl"; "abc/def/.."; "abc/def/../.."; "/abc/def/../..";
     "abc/def/../../.."; "/abc/def/../../..";
     "abc/def/../../../ghi/jkl/../../../mno"; "abc/./../def";
     "abc/../../././../def"; "/.."; "/../a"]
  = ["."; "abc"; "abc/def"; "."; ".."; "../.."; "../../abc"; "/abc"; "/";
     "abc"; "."; ".."; "/abc"; "abc/def/ghi"; "/abc"; "/abc";
     "abc/def"; "/abc/def"; "abc"; "abc/def/jkl";
     "abc/jkl"; "abc"; "."; "/";
     ".."; "/";
     "../../mno"; "def";
     "../../def"; "/"; "/a"].
Proof. vm_compute. reflexivity. Qed.

Example Base_table :
  map path.Base [""; "."; "/."; "/"; "////"; "x/"; "abc"; "abc/def"; "a/b/.x"; "a/b/c."; "a/b/c.x"]
  = ["."; "."; "."; "/"; "/"; "x"; "abc"; "def"; ".x"; "c."; "c.x"].
Proof. vm_compute. reflexivity. Qed.

Example Dir_table :
  map path.Dir [""; "."; "/."; "/"; "////"; "/foo"; "x/"; "abc"; "abc/def"; "abc////def"; "a/b/.x"; "a/b/c."; "a/b/c.x"]
  = ["."; "."; "/"; "/"; "/"; "/"; "x"; "."; "abc"; "abc"; "a/b"; "a/b"; "a/b"].
Proof. vm_compute. reflexivity. Qed.

Example Join_table :
  [path.Join "a" "b"; path.Join "a" ""; path.Join "" "b"; path.Join "/" "a";
   path.Join "a/" "b"; path.Join "a/" ""; path.Join "" ""; path.Join "a" "."]
  = ["a/b"; "a"; "b"; "/a"; "a/b"; "a"; ""; "a"].
Proof. vm_compute. reflexivity. Qed.

#[local] Arguments String.append : simpl nomatch.

Section BytesFacts.
Import bytes.

Lemma is_slash_spec c : is_slash c = true ↔ c = slash.
Proof. unfold is_slash. apply Ascii.eqb_eq. Qed.

Lemma append_assoc (a b c : string) : (a +:+ b) +:+ c = a +:+ (b +:+ c).
Proof. induction a; simpl; [done|]. by f_equal. Qed.

Lemma append_empty_r (a : string) : a +:+ "" = a.
Proof. induction a; simpl; [done|]. by f_equal. Qed.

Lemma length_append (a b : string) :
  String.length (a +:+ b) = String.length a + String.length b.
Proof. induction a; simpl; [done|]. by rewrite IHa. Qed.

Lemma split_nonnil s : split s ≠ [].
Proof. destruct s as [|c r]; simpl; [done|]. destruct (is_slash c); [done|]. by destruct (split r). Qed.

Lemma split_app_slash s t : split (s +:+ String slash t) = split s ++ split t.
Proof.
  induction s as [|c r IH]; simpl.
  - done.
  - rewrite IH. destruct (is_slash c); [done|].
    destruct (split r) eqn:E; [by apply split_nonnil in E|done].
Qed.

Lemma split_no_slash s : has_slash s = false → split s = [s].
Proof.
  induction s as [|c r IH]; simpl; [done|].
  intros [Hc Hr]%orb_false_iff. rewrite Hc, (IH Hr). done.
Qed.

Lemma split_elem_no_slash s : Forall (λ e, has_slash e = false) (split s).
Proof.
  induction s as [|c r IH]; simpl.
  - by repeat constructor.
  - destruct (is_slash c) eqn:Hc.
    + by constructor.
    + destruct (split r) as [|h t].
      * constructor; [|done]. simpl. by rewrite Hc.
      * inversion IH; subst. constructor; [|done]. simpl. by rewrite Hc.
Qed.

Lemma join_cons x l : l ≠ [] → join (x :: l) = x +:+ String slash (join l).
Proof. by destruct l. Qed.

Lemma join_split s : join (split s) = s.
Proof.
  induction s as [|c r IH]; simpl; [done|].
  destruct (is_slash c) eqn:Hc.
  - apply is_slash_spec in Hc as ->. pose proof (split_nonnil r).
    rewrite join_cons by done. simpl. by rewrite IH.
  - destruct (split r) as [|h t] eqn:E; [by apply split_nonnil in E|].
    destruct t; simpl in *; by rewrite <- IH.
Qed.

Lemma split_join l :
  l ≠ [] → Forall (λ e, has_slash e = false) l → split (join l) = l.
Proof.
  induction l as [|x l IH]; [done|]. intros _ Hl. inversion Hl; subst.
  destruct l as [|y l].
  - simpl. by apply split_no_slash.
  - rewrite join_cons by done. rewrite split_app_slash, IH by done.
    by rewrite split_no_slash.
Qed.


Lemma rooted_split s : rooted s = true → ∃ t, split s = "" :: t.
Proof. destruct s as [|c r]; simpl; [done|]. intros ->. eauto. Qed.

Lemma unrooted_split s h t :
  rooted s = false → split s = h :: t → h = "" → s = "".
Proof.
  destruct s as [|c r]; simpl; [done|]. intros ->.
  destruct (split r); intros; simplify_eq.
Qed.

Lemma rooted_app s t : s ≠ "" → rooted (s +:+ t) = rooted s.
Proof. by destruct s. Qed.

Lemma has_slash_app s t : has_slash (s +:+ t) = has_slash s || has_slash t.
Proof. induction s as [|c r IH]; simpl; [done|]. by rewrite IH, orb_assoc. Qed.

Lemma upto_app_length (s t : string) : upto (String.length s) (s +:+ t) = s.
Proof. induction s; simpl; [by destruct t|]. by f_equal. Qed.

Lemma from_app_length (s t : string) : from (String.length s) (s +:+ t) = t.
Proof. induction s; simpl; done. Qed.

Lemma LastIndexByte_None s : strings.LastIndexByte s slash = None ↔ has_slash s = false.
Proof.
  induction s as [|c r IH]; simpl; [done|].
  unfold is_slash. destruct (strings.LastIndexByte r slash).
  - split; [done|]. intros [_ H]%orb_false_iff. apply IH in H. done.
  - destruct (Ascii.eqb c slash); simpl; [done|]. tauto.
Qed.

Lemma LastIndexByte_Some s i :
  strings.LastIndexByte s slash = Some i →
  ∃ d r, s = d +:+ String slash r ∧ String.length d = i ∧ has_slash r = false.
Proof.
  revert i. induction s as [|c r IH]; simpl; [done|]. intros i.
  destruct (strings.LastIndexByte r slash) as [j|] eqn:E.
  - intros [= <-]. destruct (IH j eq_refl) as (d & t & -> & <- & Ht).
    exists (String c d), t. done.
  - destruct (Ascii.eqb c slash) eqn:Hc; [|done]. intros [= <-].
    apply Ascii.eqb_eq in Hc as ->. exists "", r. split_and!; [done..|].
    by apply LastIndexByte_None.
Qed.

Lemma size_app l1 l2 : size (l1 ++ l2) = size l1 + size l2.
Proof. unfold size. by rewrite map_app, list_sum_app. Qed.

Lemma length_join l : l ≠ [] → S (String.length (join l)) = size l.
Proof.
  induction l as [|x l IH]; [done|]. intros _. destruct l as [|y l].
  - unfold size. simpl. lia.
  - rewrite join_cons by done. rewrite length_append. simpl String.length.
    specialize (IH ltac:(done)). unfold size in *. simpl in *. lia.
Qed.

Lemma length_split s : size (split s) = S (String.length s).
Proof. rewrite <- (join_split s) at 2. symmetry. apply length_join, split_nonnil. Qed.

End BytesFacts.

Section CleanFacts.
Import bytes path.

Lemma clean_elem_good rt out dd e :
  good_elem e → clean_elem rt (out, dd) e = (e :: out, dd).
Proof. intros (?&?&?). unfold clean_elem. by repeat case_decide. Qed.

Lemma fold_clean_good rt l out dd :
  Forall good_elem l →
  fold_left (clean_elem rt) l (out, dd) = (rev l ++ out, dd).
Proof.
  revert out. induction l as [|e l IH]; intros out Hl; [done|].
  inversion Hl; subst. cbn [fold_left]. rewrite clean_elem_good by done.
  rewrite IH by done. simpl. by rewrite <- app_assoc.
Qed.

Lemma Clean_good p : Forall good_elem (split p) → Clean p = p.
Proof.
  intros Hp. unfold Clean. case_decide as Hnil.
  { subst. inversion Hp as [|?? (?&_)]. done. }
  destruct (rooted p) eqn:Hr.
  { apply rooted_split in Hr as [t Ht]. rewrite Ht in Hp.
    inversion Hp as [|?? (?&_)]. done. }
  rewrite fold_clean_good by done. simpl. rewrite app_nil_r, rev_involutive.
  pose proof (split_nonnil p). pose proof (join_split p).
  destruct (split p); done.
Qed.

Lemma clean_elem_kept rt st e :
  has_slash e = false → Forall kept st.1 → Forall kept (clean_elem rt st e).1.
Proof.
  destruct st as [out dd]. simpl. intros He Hout. unfold clean_elem.
  repeat case_decide; simpl; try done.
  - destruct out; simpl; [done|]. by inversion Hout.
  - destruct rt; simpl; [done|]. constructor; [|done]. by subst.
  - by constructor.
Qed.

Lemma fold_clean_kept rt l st :
  Forall (λ e, has_slash e = false) l → Forall kept st.1 →
  Forall kept (fold_left (clean_elem rt) l st).1.
Proof.
  revert st. induction l as [|e l IH]; intros st Hl Hst; [done|].
  inversion Hl; subst. simpl. apply IH; [done|]. by apply clean_elem_kept.
Qed.

Lemma clean_elem_size rt st e :
  size (clean_elem rt st e).1 ≤ size st.1 + S (String.length e).
Proof.
  destruct st as [out dd]. unfold clean_elem, size.
  repeat case_decide; subst; simpl; try lia.
  - destruct out; simpl; lia.
  - destruct rt; simpl; lia.
Qed.

Lemma fold_clean_size rt l st :
  size (fold_left (clean_elem rt) l st).1 ≤ size st.1 + size l.
Proof.
  revert st. induction l as [|e l IH]; intros st; cbn [fold_left].
  - lia.
  - etrans; [apply IH|]. pose proof (clean_elem_size rt st e).
    change (size (e :: l)) with (S (String.length e) + size l). lia.
Qed.

Lemma size_rev l : size (rev l) = size l.
Proof.
  induction l as [|e l IH]; [done|]. cbn [rev]. rewrite size_app, IH.
  change (size (e :: l)) with (S (String.length e) + size l).
  change (size [e]) with (S (String.length e) + 0). lia.
Qed.

Lemma rooted_join_kept l : Forall kept l → rooted (join l) = false.
Proof.
  destruct l as [|x l]; [done|]. intros Hl. inversion Hl as [|?? [Hx Hs]]; subst.
  assert (rooted x = false).
  { destruct x as [|c x]; [done|]. simpl in *. by apply orb_false_iff in Hs as [-> _]. }
  destruct l; [done|]. rewrite join_cons by done. by rewrite rooted_app.
Qed.

Lemma Clean_rooted p : rooted (Clean p) = rooted p.
Proof.
  unfold Clean. case_decide; [by subst|].
  destruct (rooted p) eqn:Hr; [done|].
  set (st := fold_left _ _ _).
  assert (Forall kept (rev st.1)) as Hk.
  { apply Forall_rev. apply fold_clean_kept; [apply split_elem_no_slash|by constructor]. }
  destruct (rev st.1) eqn:E; [done|]. by apply rooted_join_kept.
Qed.

Lemma Clean_nonempty p : Clean p ≠ "".
Proof.
  unfold Clean. case_decide; [done|]. destruct (rooted p); [done|].
  set (st := fold_left _ _ _).
  assert (Forall kept (rev st.1)) as Hk.
  { apply Forall_rev. apply fold_clean_kept; [apply split_elem_no_slash|by constructor]. }
  destruct (rev st.1) as [|x l] eqn:E; [done|].
  inversion Hk as [|?? [Hx _]]; subst. destruct l; [done|].
  rewrite join_cons by done. by destruct x.
Qed.

Lemma Clean_length p : p ≠ "" → String.length (Clean p) ≤ String.length p.
Proof.
  intros Hp. unfold Clean. case_decide; [done|].
  destruct (rooted p) eqn:Hr.
  - destruct p as [|c p]; [done|]. simpl in Hr. cbn [split]. rewrite Hr. cbn [fold_left].
    unfold clean_elem at 2. rewrite decide_True by done.
    set (st := fold_left _ _ _).
    pose proof (fold_clean_size true (split p) ([], 0)) as Hs. fold st in Hs.
    rewrite length_split in Hs. change (size ([], 0).1) with 0 in Hs.
    destruct (rev st.1) eqn:E.
    + simpl. lia.
    + assert (rev st.1 ≠ []) as Hne by (by rewrite E).
      apply length_join in Hne. rewrite size_rev in Hne. rewrite E in Hne. cbn [String.length]. lia.
  - set (st := fold_left _ _ _).
    pose proof (fold_clean_size false (split p) ([], 0)) as Hs. fold st in Hs.
    rewrite length_split in Hs. change (size ([], 0).1) with 0 in Hs.
    destruct (rev st.1) eqn:E.
    + destruct p; [done|]. simpl. lia.
    + assert (rev st.1 ≠ []) as Hne by (by rewrite E).
      apply length_join in Hne. rewrite size_rev in Hne. rewrite E in Hne. cbn [String.length]. lia.
Qed.

Lemma Clean_trailing_slash s : s ≠ "" → Clean (s +:+ "/") = Clean s.
Proof.
  intros Hs. unfold Clean. rewrite rooted_app by done.
  rewrite decide_False by (by destruct s). rewrite decide_False by done.
  change "/" with (String slash ""). rewrite split_app_slash. simpl split.
  rewrite fold_left_app. simpl fold_left.
  destruct (fold_left _ (split s) _) as [out dd] eqn:E.
  unfold clean_elem at 1 3. rewrite decide_True by done. done.
Qed.

Lemma Clean_trailing_dot s : s ≠ "" → Clean (s +:+ String slash ".") = Clean s.
Proof.
  intros Hs. unfold Clean. rewrite rooted_app by done.
  rewrite decide_False by (by destruct s). rewrite decide_False by done.
  rewrite split_app_slash. change (split ".") with ["."].
  rewrite fold_left_app. cbn [fold_left].
  destruct (fold_left _ (split s) _) as [out dd] eqn:E.
  unfold clean_elem at 1 3. rewrite decide_False by done.
  rewrite decide_True by done. done.
Qed.

Lemma Dir_no_slash p : has_slash p = false → Dir p = ".".
Proof.
  intros Hp. unfold Dir, Split. apply LastIndexByte_None in Hp. by rewrite Hp.
Qed.

Lemma Dir_slash p :
  rooted p = false → has_slash p = true →
  rooted (Dir p) = false ∧ String.length (Dir p) < String.length p.
Proof.
  intros Hr Hs. unfold Dir, Split.
  destruct (strings.LastIndexByte p slash) as [i|] eqn:E.
  2:{ apply LastIndexByte_None in E. congruence. }
  apply LastIndexByte_Some in E as (d & r & -> & <- & Hr').
  cbn [fst].
  assert (d ≠ "") as Hd by (intros ->; done).
  replace (upto (S (String.length d)) (d +:+ String slash r)) with (d +:+ "/").
  2:{ clear. induction d; simpl; [by destruct r|]. by f_equal. }
  rewrite Clean_trailing_slash by done. split.
  - rewrite Clean_rooted. by rewrite rooted_app in Hr.
  - pose proof (Clean_length d Hd). rewrite length_append. simpl. lia.
Qed.

End CleanFacts.

Section BuildFacts.
Import bytes path.

Lemma wf_with_heap z h : wf z → length h = length (heap z) → wf (with_heap z h).
Proof. intros [H1 H2] Hl. split; [done|]. simpl. intros k p Hk. rewrite Hl. eauto. Qed.

Lemma wf_new_dir z key d : wf z → wf (new_dir z key d).
Proof.
  intros [H1 H2]. split; simpl.
  - destruct (decide (key = ".")) as [->|Hne].
    + rewrite lookup_insert_eq. eauto.
    + by rewrite lookup_insert_ne.
  - intros k p. rewrite length_app. simpl. destruct (decide (key = k)) as [->|Hne].
    + rewrite lookup_insert_eq. intros [= <-]. lia.
    + rewrite lookup_insert_ne by done. intros ?%H2. lia.
Qed.

Lemma wf_set_file z key f : wf z → wf (set_file z key f).
Proof. intros [H1 H2]. by split. Qed.

Lemma populate_total fuel now z dir entry :
  wf z → dir ≠ "" → rooted dir = false →
  (is_Some (dirs z !! dir) ∧ 0 < fuel) ∨ String.length dir < fuel →
  ∃ z', populate fuel now z dir entry = Some z' ∧ wf z'.
Proof.
  revert z dir entry. induction fuel as [|k IH]; intros z dir entry Hwf Hne Hr Hfuel.
  { destruct Hfuel as [[_ ?]|?]; lia. }
  cbn [populate]. destruct (dirs z !! dir) as [p|] eqn:Hd.
  - destruct Hwf as [H1 H2]. pose proof (H2 _ _ Hd) as Hp.
    apply lookup_lt_is_Some in Hp as [parent Hparent]. rewrite Hparent.
    eexists; split; [done|]. apply wf_with_heap; [done|]. by rewrite length_insert.
  - destruct Hfuel as [[[? ?] _]|Hfuel]; [done|].
    apply IH.
    + by apply wf_new_dir.
    + apply Clean_nonempty.
    + destruct (has_slash dir) eqn:Hs.
      * by apply Dir_slash.
      * by rewrite Dir_no_slash.
    + destruct (has_slash dir) eqn:Hs.
      * right. pose proof (Dir_slash dir Hr Hs) as [_ ?]. lia.
      * left. rewrite Dir_no_slash by done. split.
        -- simpl. destruct Hwf as [H1 _]. destruct (decide (dir = ".")) as [->|?].
           ++ rewrite lookup_insert_eq. eauto.
           ++ by rewrite lookup_insert_ne.
        -- destruct dir; [done|]. simpl in Hfuel. lia.
Qed.

Lemma index_file_total now z f :
  wf z → ∃ z', index_file now z f = Some z' ∧ wf z'.
Proof.
  intros Hwf. unfold index_file.
  set (name := Clean (zip.Name f)).
  case_decide; [eauto|].
  destruct (rooted name) eqn:Hr; [eauto|].
  assert (∀ z1 e, wf z1 → (is_Some (dirs z1 !! ".")) →
     ∃ z', populate (S (String.length name)) now z1 (Dir name) e = Some z' ∧ wf z') as Hpop.
  { intros z1 e Hz1 Hroot. apply populate_total; [done|apply Clean_nonempty|..].
    - destruct (has_slash name) eqn:Hs; [by apply Dir_slash|by rewrite Dir_no_slash].
    - destruct (has_slash name) eqn:Hs.
      + right. pose proof (Dir_slash name Hr Hs) as [_ ?]. lia.
      + left. rewrite Dir_no_slash by done. split; [done|lia]. }
  destruct (isDir f).
  - case_decide; [eauto|]. apply Hpop; [by apply wf_new_dir|].
    by destruct (wf_new_dir z name {| name := Base name; modTime := zip.ModTime f; entries := [] |} Hwf).
  - apply Hpop; [by apply wf_set_file|]. by destruct Hwf.
Qed.

Lemma index_files_total now l z :
  wf z → ∃ z', index_files now z l = Some z' ∧ wf z'.
Proof.
  revert z. induction l as [|f l IH]; intros z Hwf; simpl; [eauto|].
  destruct (index_file_total now z f Hwf) as (z1 & -> & Hz1). by apply IH.
Qed.

Lemma NewZipFS_total now r : ∃ z, NewZipFS now r = Some z ∧ wf z.
Proof.
  unfold NewZipFS, buildIndex. simpl. rewrite lookup_singleton_eq. simpl.
  apply index_files_total. split; simpl.
  - rewrite lookup_singleton_eq. eauto.
  - intros k p. destruct (decide (k = ".")) as [->|?].
    + rewrite lookup_singleton_eq. intros [= <-]. lia.
    + by rewrite lookup_singleton_ne.
Qed.

End BuildFacts.

Section ValidPathFacts.
Import bytes path.

Lemma ValidString_app_aux n a b :
  String.length a ≤ n →
  utf8.ValidString a = true → utf8.ValidString (a +:+ b) = utf8.ValidString b.
Proof.
  revert a. induction n as [|n IH]; intros a Hn Ha.
  { destruct a; [done|]. simpl in Hn. lia. }
  destruct a as [|c0 a]; [done|].
  cbn [String.append utf8.ValidString] in *.
  destruct (utf8.byte_in 0 127 c0).
  { apply IH; [simpl in Hn; lia|done]. }
  destruct (utf8.byte_in 194 223 c0).
  { destruct a as [|c1 a]; [done|]. cbn [String.append] in *.
    apply andb_true_iff in Ha as [-> Ha]. simpl in Hn.
    rewrite IH by (done || lia). done. }
  destruct (utf8.byte_in 224 239 c0).
  { destruct a as [|c1 [|c2 a]]; [done..|]. cbn [String.append] in *.
    apply andb_true_iff in Ha as [Ha1 Ha]. rewrite Ha1. simpl in Hn.
    rewrite IH by (done || lia). done. }
  destruct (utf8.byte_in 240 244 c0); [|done].
  destruct a as [|c1 [|c2 [|c3 a]]]; [done..|]. cbn [String.append] in *.
  apply andb_true_iff in Ha as [Ha1 Ha]. rewrite Ha1. simpl in Hn.
  rewrite IH by (done || lia). done.
Qed.

Lemma ValidString_app a b :
  utf8.ValidString a = true → utf8.ValidString (a +:+ b) = utf8.ValidString b.
Proof. by apply (ValidString_app_aux (String.length a)). Qed.

Lemma bad_elem_good e : fs.bad_elem e = false ↔ good_elem e.
Proof.
  unfold fs.bad_elem, good_elem. rewrite bool_decide_eq_false. tauto.
Qed.

Lemma ValidPath_elems p :
  fs.ValidPath p = true → p ≠ "." → Forall good_elem (split p).
Proof.
  unfold fs.ValidPath. destruct (utf8.ValidString p); [|done]. simpl.
  case_decide; [done|]. intros Hall _. apply Forall_forall. intros e He.
  rewrite forallb_forall in Hall. apply list_elem_of_In in He. apply Hall in He.
  apply bad_elem_good. by apply negb_true_iff.
Qed.

Lemma ValidPath_utf8 p : fs.ValidPath p = true → utf8.ValidString p = true.
Proof. unfold fs.ValidPath. by destruct (utf8.ValidString p). Qed.

Lemma ValidPath_intro p :
  utf8.ValidString p = true → Forall good_elem (split p) → fs.ValidPath p = true.
Proof.
  intros Hu Hp. unfold fs.ValidPath. rewrite Hu. simpl. case_decide; [done|].
  apply forallb_forall. intros e He. apply list_elem_of_In in He.
  rewrite Forall_forall in Hp. apply negb_true_iff, bad_elem_good. auto.
Qed.

Lemma ValidPath_Clean p : fs.ValidPath p = true → Clean p = p.
Proof.
  intros Hp. destruct (decide (p = ".")) as [->|Hne]; [done|].
  by apply Clean_good, ValidPath_elems.
Qed.

Lemma ValidPath_nonempty p : fs.ValidPath p = true → p ≠ "".
Proof. intros Hp ->. done. Qed.


Lemma ValidPath_app a b :
  fs.ValidPath a = true → fs.ValidPath b = true → a ≠ "." → b ≠ "." →
  fs.ValidPath (a +:+ String slash b) = true.
Proof.
  intros Ha Hb Hna Hnb. apply ValidPath_intro.
  - rewrite ValidString_app by by apply ValidPath_utf8.
    cbn [utf8.ValidString]. replace (utf8.byte_in 0 127 slash) with true by done.
    by apply ValidPath_utf8.
  - rewrite split_app_slash. apply Forall_app. split; by apply ValidPath_elems.
Qed.

(** [path.Join] under a valid prefix. *)
Lemma Join_valid a b :
  fs.ValidPath a = true → fs.ValidPath b = true → a ≠ "." →
  Join a b = if decide (b = ".") then a else a +:+ String slash b.
Proof.
  intros Ha Hb Hna. unfold Join.
  destruct a as [|ca a]; [done|]. destruct b as [|cb b]; [done|].
  case_decide as Hb'.
  - rewrite Hb'. rewrite Clean_trailing_dot by done. by apply ValidPath_Clean.
  - apply ValidPath_Clean. by apply ValidPath_app.
Qed.

End ValidPathFacts.

Section Modes.

Lemma clear_write_bits (m : Z) : Z.land (Z.ldiff m fs.write_bits) fs.write_bits = 0%Z.
Proof.
  apply Z.bits_inj'. intros n Hn.
  rewrite Z.land_spec, Z.ldiff_spec, Z.bits_0.
  by destruct (Z.testbit m n), (Z.testbit fs.write_bits n).
Qed.

(** C9: the [FileInfo] that a file reader's [Stat] or a file entry's [Info]
    returns has a mode without any write permission bit (mode AND 0222 is
    0), whatever mode the archive stores; the [FileInfo] of a directory
    reader or directory entry has the fixed mode [ModeDir|0555]; so no
    [FileInfo] of the package shows a write bit. *)
Theorem C9_files_read_only_dirs_fixed_mode :
  (∀ r : fileReader, Z.land (Mode (Stat (regFile r))) 146 = 0%Z)
  ∧ (∀ f : zip.File, Z.land (Mode (Info (fileEntry f))) 146 = 0%Z)
  ∧ (∀ d : dirReader, Mode (Stat (dirFile d)) = Z.lor fs.ModeDir 365)
  ∧ (∀ p : nat, Mode (Info (dirInfoRef p)) = Z.lor fs.ModeDir 365)
  ∧ (∀ fi : FileInfo, Z.land (Mode fi) 146 = 0%Z).
Proof.
  split_and!; try done; try (intros; apply clear_write_bits).
  intros [f|p]; [apply clear_write_bits|done].
Qed.

End Modes.

Section DirReader.
Import dirReader.

Lemma wrap_int_id x : is_int x → wrap_int x = x.
Proof.
  unfold is_int, int_min, int_max, wrap_int. intros H.
  rewrite Z.mod_small by lia. lia.
Qed.

Lemma ReadDir_all z d i n :
  heap z !! info d = Some i → (n ≤ 0)%Z →
  (0 ≤ pos d ≤ Z.of_nat (length (entries i)))%Z →
  ∃ s, ReadDir z d n = Ret (fs.Ok s, with_pos d (Z.of_nat (length (entries i))))
       ∧ ∀ cs, elems z cs s = drop (Z.to_nat (pos d)) (entries i).
Proof.
  intros Hi Hn Hpos. unfold ReadDir. rewrite Hi.
  rewrite decide_True by done. rewrite decide_True by done.
  eexists; split; [done|]. intros cs. unfold elems. simpl. unfold live_entries.
  rewrite Hi. apply take_ge. rewrite length_drop. lia.
Qed.

Lemma ReadDir_eof z d i n :
  heap z !! info d = Some i → (0 < n)%Z →
  (Z.of_nat (length (entries i)) ≤ pos d)%Z →
  ReadDir z d n = Ret (fs.Failed fs.EOF, d).
Proof.
  intros Hi Hn Hpos. unfold ReadDir. rewrite Hi.
  rewrite decide_False by lia. by rewrite decide_True by done.
Qed.

Lemma ReadDir_some z d i n :
  heap z !! info d = Some i → (0 < n)%Z →
  (0 ≤ pos d < Z.of_nat (length (entries i)))%Z →
  (pos d + n ≤ int_max)%Z →
  ∃ s, ReadDir z d n =
         Ret (fs.Ok s, with_pos d (Z.min (pos d + n) (Z.of_nat (length (entries i)))))
       ∧ ∀ cs, elems z cs s = take (Z.to_nat n) (drop (Z.to_nat (pos d)) (entries i)).
Proof.
  intros Hi Hn Hpos Hov. unfold ReadDir. rewrite Hi.
  rewrite decide_False by lia. rewrite decide_False by lia.
  rewrite wrap_int_id by (unfold is_int, int_min, int_max in *; lia).
  destruct (decide (Z.of_nat (length (entries i)) < pos d + n)%Z).
  - rewrite Z.min_r by lia. rewrite decide_True by lia. rewrite decide_False by lia.
    eexists; split; [done|]. intros cs. unfold elems. simpl. unfold live_entries.
    rewrite Hi. rewrite !take_ge; [done|rewrite length_drop; lia..].
  - rewrite Z.min_l by lia. rewrite decide_True by lia. rewrite decide_False by lia.
    eexists; split; [done|]. intros cs. unfold elems. simpl. unfold live_entries.
    rewrite Hi. f_equal. lia.
Qed.

Lemma ReadDir_overflow z d i n :
  heap z !! info d = Some i → is_int n →
  (0 < pos d < Z.of_nat (length (entries i)))%Z →
  (Z.of_nat (length (entries i)) ≤ int_max)%Z →
  (int_max < pos d + n)%Z →
  ReadDir z d n = Panic.
Proof.
  intros Hi Hn Hpos Hl Hov. unfold ReadDir. rewrite Hi.
  unfold is_int, int_min, int_max in *.
  rewrite decide_False by lia. rewrite decide_False by lia.
  assert (wrap_int (pos d + n) = pos d + n - 2 ^ 64)%Z as ->.
  { unfold wrap_int.
    replace (pos d + n + 2 ^ 63)%Z with ((pos d + n - 2 ^ 63) + 1 * 2 ^ 64)%Z by lia.
    rewrite Z.mod_add by lia. rewrite Z.mod_small by lia. lia. }
  destruct (decide (Z.of_nat (length (entries i)) < pos d + n - 2 ^ 64)%Z); [lia|].
  by rewrite decide_False by lia.
Qed.

End DirReader.

Section DirReaderClaims.
Import dirReader.

(** C10, as amended: [Close] on a directory reader returns the nil error,
    also when it is repeated, and puts the cursor back to 0; a [ReadDir]
    after [Close] starts again at the first entry of the directory: all
    the entries for [n <= 0], the first [n] for [n > 0], [io.EOF] for
    [n > 0] on an empty directory.  A file reader is no different: [Close]
    closes the stream that the reader holds and leaves the reader as [Open]
    returns it, a repeated [Close] calls nothing and returns the nil error,
    and the next [Read] opens a stream of the record anew and reads from
    it. *)
Theorem C10_Close_rewinds (z : ZipFS) (d : dirReader) (i : dirInfo) (n : Z)
    (zopen : zip.File → any_error + string)
    (sread : string → nat → (string * option any_error) * string)
    (sclose : string → option any_error) (f : fileReader) (m : nat) :
  (heap z !! info d = Some i → is_int n →
   (Close d).2 = None
   ∧ Close (Close d).1 = Close d
   ∧ pos (Close d).1 = 0%Z
   ∧ ((n ≤ 0)%Z →
      ∃ s d', ReadDir z (Close d).1 n = Ret (fs.Ok s, d')
              ∧ ∀ cs, elems z cs s = entries i)
   ∧ ((0 < n)%Z → entries i ≠ [] →
      ∃ s d', ReadDir z (Close d).1 n = Ret (fs.Ok s, d')
              ∧ ∀ cs, elems z cs s = take (Z.to_nat n) (entries i))
   ∧ ((0 < n)%Z → entries i = [] →
      ReadDir z (Close d).1 n = Ret (fs.Failed fs.EOF, (Close d).1)))
  ∧ (∃ err t, fileReader_Close sclose f
              = (err, {| file := file f; rc := None |}, t)
              ∧ ∀ st, rc f = Some st → err = sclose st ∧ t = [StreamClose])
  ∧ (∀ name g, ZipFS.Open z name = fs.Ok (regFile g) → file g = file f →
       g = {| file := file f; rc := None |})
  ∧ fileReader_Close sclose {| file := file f; rc := None |}
    = (None, {| file := file f; rc := None |}, [])
  ∧ (∀ st, zopen (file f) = inr st →
       fileReader_Read zopen sread {| file := file f; rc := None |} m
       = ((sread st m).1, {| file := file f; rc := Some (sread st m).2 |},
          [StreamOpen true; StreamRead]))
  ∧ (∀ err, zopen (file f) = inl err →
       fileReader_Read zopen sread {| file := file f; rc := None |} m
       = (("", Some err), {| file := file f; rc := None |},
          [StreamOpen false])).
Proof.
  split_and!.
  - intros Hi Hn. split_and!; try done.
    + intros Hle. destruct (ReadDir_all z (Close d).1 i n) as (s & Hs & He);
        [done|done|simpl; lia|]. eauto.
    + intros Hlt Hne.
      destruct (ReadDir_some z (Close d).1 i n) as (s & Hs & He); [done|done|..].
      * simpl. destruct (entries i); [done|]. simpl. lia.
      * simpl. unfold is_int in Hn. lia.
      * eauto.
    + intros Hlt He. apply (ReadDir_eof z _ i); [done|done|].
      rewrite He. simpl. lia.
  - unfold fileReader_Close. destruct f as [g [st|]]; cbn.
    + eexists _, _. split; [done|]. by intros ? [= <-].
    + eexists _, _. split; [done|]. by intros ? [=].
  - intros name g Ho Hg. unfold ZipFS.Open in Ho.
    destruct (negb (fs.ValidPath name)); [done|].
    destruct (dirs z !! path.Clean name); [done|].
    destruct (files z !! path.Clean name) as [h|]; [|done].
    injection Ho as <-. cbn in Hg. by rewrite Hg.
  - done.
  - intros st Hst. unfold fileReader_Read. cbn [rc file]. rewrite Hst.
    by destruct (sread st m).
  - intros err Herr. unfold fileReader_Read. cbn [rc file]. by rewrite Herr.
Qed.

Lemma C10_witness :
  ((Close {| info := 0; path := "."; pos := 2 |}).2 = None
   ∧ ∃ s d', ReadDir demo_flat (Close {| info := 0; path := "."; pos := 2 |}).1 1
             = Ret (fs.Ok s, d')
             ∧ ∀ cs, elems demo_flat cs s = take (Z.to_nat 1) (entries demo_dir))
  ∧ fileReader_Read intact_open intact_read
      {| file := record "b.txt" "B"; rc := None |} 1
    = (("B", None), {| file := record "b.txt" "B"; rc := Some "" |},
       [StreamOpen true; StreamRead]).
Proof.
  destruct (C10_Close_rewinds demo_flat {| info := 0; path := "."; pos := 2 |}
              demo_dir 1 intact_open intact_read intact_close
              {| file := record "b.txt" "B"; rc := Some "" |} 1)
    as (Hd & _ & _ & _ & Hr & _).
  split.
  - destruct (Hd eq_refl) as (H1 & _ & _ & _ & H5 & _).
    + unfold is_int, int_min, int_max. lia.
    + split; [exact H1|]. apply H5; [lia|discriminate].
  - exact (Hr "B" eq_refl).
Defined.

(** C10, as stated, fails in its last clause: a closed file reader need
    not be reopened either.  The reader that [Open] returns for [h.txt]
    reads [he] and then [ll]; after [Close] it is the reader that [Open]
    returned, and the next [Read] on it, with no [Open] in between, opens
    the stream again and reads [he]. *)
Lemma C10_counterexample :
  ∃ f0 f1 f2,
    ZipFS.Open greeting "h.txt" = fs.Ok (regFile f0)
    ∧ fileReader_Read intact_open intact_read f0 2
      = (("he", None), f1, [StreamOpen true; StreamRead])
    ∧ fileReader_Read intact_open intact_read f1 2
      = (("ll", None), f2, [StreamRead])
    ∧ fileReader_Close intact_close f2 = (None, f0, [StreamClose])
    ∧ fileReader_Read intact_open intact_read f0 2
      = (("he", None), f1, [StreamOpen true; StreamRead]).
Proof.
  exists {| file := record "h.txt" "hello"; rc := None |},
    {| file := record "h.txt" "hello"; rc := Some "llo" |},
    {| file := record "h.txt" "hello"; rc := Some "o" |}.
  split_and!; vm_compute; reflexivity.
Qed.

(** The scenario of the pagination claim: two reads of one entry each on a
    directory of two children give the two children, a third one gives
    [io.EOF]; a read with [n <= 0] at the end gives the empty slice and no
    error. *)
Example two_bounded_reads_then_EOF :
  ∃ s1 d1 s2 d2,
    ReadDir demo_flat {| info := 0; path := "."; pos := 0 |} 1
    = Ret (fs.Ok s1, d1)
    ∧ ReadDir demo_flat d1 1 = Ret (fs.Ok s2, d2)
    ∧ elems demo_flat [] s1 ++ elems demo_flat [] s2 = entries demo_dir
    ∧ ReadDir demo_flat d2 1 = Ret (fs.Failed fs.EOF, d2)
    ∧ ∃ s3, ReadDir demo_flat d2 0 = Ret (fs.Ok s3, d2)
            ∧ elems demo_flat [] s3 = [].
Proof.
  eexists _, _, _, _. split; [vm_compute; reflexivity|].
  split; [vm_compute; reflexivity|]. split; [vm_compute; reflexivity|].
  split; [vm_compute; reflexivity|].
  eexists. split; vm_compute; reflexivity.
Qed.

(** C6: a [ReadDir] with [n > 0] is to return at most [n] entries.  On a
    directory of two children, after a first [ReadDir(1)] has moved the
    cursor to 1, [ReadDir(math.MaxInt)] does not return: [d.pos + n] wraps
    around to a negative [end], which the clamp [end > len] lets through,
    and the slice expression [entries[pos:end]] panics. *)
Theorem C6_bounded_read_overflows :
  ∃ s d', ReadDir demo_flat {| info := 0; path := "."; pos := 0 |} 1
          = Ret (fs.Ok s, d')
          ∧ elems demo_flat [] s = [fileEntry (record "b.txt" "B")]
          ∧ pos d' = 1%Z
          ∧ is_int int_max
          ∧ ReadDir demo_flat d' int_max = Panic.
Proof.
  eexists _, _. split; [vm_compute; reflexivity|].
  split_and!; try (vm_compute; reflexivity).
  unfold is_int, int_min, int_max. lia.
Qed.

(** C2, as amended: the directory reader's [ReadDir] presents the entries in
    the order of the child list of the directory in the index, as
    [buildIndex] appended them, and does not sort them.  With [n <= 0] it
    returns the rest of the child list from the cursor on; with [n > 0],
    the cursor before the end and [cursor + n] within the range of [int],
    it returns the next [n] entries of the child list (fewer at the end),
    so that what successive calls return are consecutive segments of the
    child list. *)
Theorem C2_reads_follow_child_list (z : ZipFS) (d : dirReader) (i : dirInfo) (n : Z) :
  heap z !! info d = Some i →
  (0 ≤ pos d ≤ Z.of_nat (length (entries i)))%Z →
  ((n ≤ 0)%Z →
   ∃ s d', ReadDir z d n = Ret (fs.Ok s, d')
           ∧ pos d' = Z.of_nat (length (entries i))
           ∧ ∀ cs, elems z cs s = drop (Z.to_nat (pos d)) (entries i))
  ∧ ((0 < n)%Z → (pos d + n ≤ int_max)%Z →
     (pos d < Z.of_nat (length (entries i)))%Z →
     ∃ s d', ReadDir z d n = Ret (fs.Ok s, d')
             ∧ (∀ cs, elems z cs s
                      = take (Z.to_nat n) (drop (Z.to_nat (pos d)) (entries i)))
             ∧ (∀ cs, drop (Z.to_nat (pos d)) (entries i)
                      = elems z cs s ++ drop (Z.to_nat (pos d')) (entries i))).
Proof.
  intros Hi Hpos. split.
  - intros Hn. destruct (ReadDir_all z d i n) as (s & Hs & He); [done..|].
    eexists _, _. split; [done|]. split; done.
  - intros Hn Hov Hlt.
    destruct (ReadDir_some z d i n) as (s & Hs & He); [done|done|lia|done|].
    eexists _, _. split; [done|]. split; [done|]. intros cs. rewrite He. simpl.
    set (l := entries i).
    destruct (decide (pos d + n ≤ Z.of_nat (length l))%Z).
    + rewrite Z.min_l by done.
      replace (Z.to_nat (pos d + n)) with (Z.to_nat (pos d) + Z.to_nat n) by lia.
      rewrite <- drop_drop. by rewrite take_drop.
    + rewrite Z.min_r by lia. rewrite Nat2Z.id. rewrite drop_all, app_nil_r.
      rewrite take_ge; [done|]. rewrite length_drop. lia.
Qed.

Lemma C2_witness :
  ∃ s d', ReadDir demo_flat {| info := 0; path := "."; pos := 0 |} (-1)
          = Ret (fs.Ok s, d')
          ∧ pos d' = Z.of_nat (length (entries demo_dir))
          ∧ ∀ cs, elems demo_flat cs s = drop (Z.to_nat 0) (entries demo_dir).
Proof.
  destruct (C2_reads_follow_child_list demo_flat
              {| info := 0; path := "."; pos := 0 |} demo_dir (-1) eq_refl) as [H1 _].
  - simpl. lia.
  - apply H1. lia.
Defined.

(** C2, as stated, fails: in the archive with the records [b.txt] and
    [a.txt], in this order, the reader opened on the root returns [b.txt]
    before [a.txt]. *)
Lemma C2_counterexample :
  ∃ z d s d',
    NewZipFS 0 [record "b.txt" "B"; record "a.txt" "A"] = Some z
    ∧ ZipFS.Open z "." = fs.Ok (dirFile d)
    ∧ ReadDir z d (-1) = Ret (fs.Ok s, d')
    ∧ Name z <$> elems z [] s = ["b.txt"; "a.txt"]
    ∧ ¬ sorted_by_name z (elems z [] s).
Proof.
  eexists _, _, _, _. split; [vm_compute; reflexivity|].
  split; [vm_compute; reflexivity|]. split; [vm_compute; reflexivity|].
  split; [vm_compute; reflexivity|].
  intros Hs. vm_compute in Hs. inversion Hs as [|?? _ Hall]; subst.
  inversion Hall as [|?? Hle _]; subst. vm_compute in Hle. done.
Qed.

End DirReaderClaims.

Section OpenClaims.
Import bytes path.





End OpenClaims.

Section BuildClaims.
Import bytes path.

Lemma with_reader_with_heap r z h :
  with_reader r (with_heap z h) = with_heap (with_reader r z) h.
Proof. done. Qed.

Lemma populate_with_reader r fuel now z dir e :
  populate fuel now (with_reader r z) dir e
  = with_reader r <$> populate fuel now z dir e.
Proof.
  revert z dir e. induction fuel as [|k IH]; intros z dir e; [done|].
  cbn [populate]. change (dirs (with_reader r z)) with (dirs z).
  change (heap (with_reader r z)) with (heap z).
  destruct (dirs z !! dir).
  - destruct (heap z !! n); done.
  - rewrite <- IH. done.
Qed.

Lemma index_file_with_reader r now z f :
  index_file now (with_reader r z) f = with_reader r <$> index_file now z f.
Proof.
  unfold index_file. repeat (case_decide || case_match); try done;
    rewrite <- populate_with_reader; done.
Qed.

Lemma index_files_with_reader r now l z :
  index_files now (with_reader r z) l = with_reader r <$> index_files now z l.
Proof.
  revert z. induction l as [|f l IH]; intros z; [done|]. cbn [index_files].
  rewrite index_file_with_reader. destruct (index_file now z f); simpl; [|done].
  apply IH.
Qed.

Lemma index_files_app now l1 l2 z :
  index_files now z (l1 ++ l2)
  = index_files now z l1 ≫= λ z', index_files now z' l2.
Proof.
  revert z. induction l1 as [|f l IH]; intros z; [done|]. simpl.
  destruct (index_file now z f); [apply IH|done].
Qed.

Lemma NewZipFS_index_files now r :
  NewZipFS now r = with_reader r <$> index_files now (empty_index now) r.
Proof.
  unfold NewZipFS, buildIndex. simpl. rewrite lookup_singleton_eq. simpl.
  rewrite <- index_files_with_reader. done.
Qed.

Lemma index_file_absolute now z f :
  rooted (zip.Name f) = true → index_file now z f = Some z.
Proof.
  intros Hr. unfold index_file. case_decide; [done|].
  by rewrite Clean_rooted, Hr.
Qed.

Lemma index_file_dir_with_content now z f :
  isDir f = true → zip.UncompressedSize64 f ≠ 0%Z → index_file now z f = Some z.
Proof.
  intros Hd Hs. unfold index_file. case_decide; [done|].
  destruct (rooted _); [done|]. rewrite Hd. by rewrite decide_True.
Qed.

Lemma index_file_malformed now z f : malformed f → index_file now z f = Some z.
Proof.
  intros [?|[??]]; eauto using index_file_absolute, index_file_dir_with_content.
Qed.

(** C8: [NewZipFS] returns an index for every list of records.  A record
    with an absolute path, and a record classified as a directory whose
    header declares a non-zero uncompressed size, leave the index as it
    was; the build of a list that holds such a record gives the same index
    as the build of the list without it, so the records around it are
    indexed all the same. *)
Theorem C8_buildIndex_total_and_lenient (now : Z) (rs rs1 rs2 : list zip.File)
    (f : zip.File) :
  (∃ z, NewZipFS now rs = Some z)
  ∧ (rooted (zip.Name f) = true → ∀ z, index_file now z f = Some z)
  ∧ (isDir f = true → zip.UncompressedSize64 f ≠ 0%Z →
     ∀ z, index_file now z f = Some z)
  ∧ (malformed f →
     same_index (NewZipFS now (rs1 ++ f :: rs2)) (NewZipFS now (rs1 ++ rs2))).
Proof.
  split_and!.
  - destruct (NewZipFS_total now rs) as (z & ? & _). eauto.
  - intros Hf z. by apply index_file_absolute.
  - intros Hd Hs z. by apply index_file_dir_with_content.
  - intros Hf. rewrite !NewZipFS_index_files, !index_files_app.
    destruct (index_files now (empty_index now) rs1) as [z1|] eqn:E1; simpl.
    2:{ destruct (NewZipFS_total now rs1) as (z & Hz & _).
        rewrite NewZipFS_index_files, E1 in Hz. done. }
    rewrite (index_file_malformed _ _ _ Hf).
    destruct (index_files now z1 rs2) as [z2|] eqn:E2; simpl; [done|].
    destruct (NewZipFS_total now (rs1 ++ rs2)) as (z & Hz & _).
    rewrite NewZipFS_index_files, index_files_app, E1 in Hz. simpl in Hz.
    rewrite E2 in Hz. done.
Qed.

Lemma C8_witness :
  same_index
    (NewZipFS 0 ([record "a.txt" "A"] ++ record "/etc/passwd" "x" :: [record "b.txt" "B"]))
    (NewZipFS 0 ([record "a.txt" "A"] ++ [record "b.txt" "B"]))
  ∧ index_file 0 (empty_index 0) (record "dir/" "junk") = Some (empty_index 0).
Proof.
  split.
  - apply (C8_buildIndex_total_and_lenient 0 []). left. reflexivity.
  - apply (C8_buildIndex_total_and_lenient 0 [] [] []); [reflexivity|].
    vm_compute. discriminate.
Defined.

End BuildClaims.

Section FileMapFacts.
Import bytes path.

Lemma populate_files fuel now z dir e z' :
  populate fuel now z dir e = Some z' → files z' = files z.
Proof.
  revert z dir e z'. induction fuel as [|k IH]; intros z dir e z'; [done|].
  cbn [populate]. destruct (dirs z !! dir).
  - destruct (heap z !! n); [|done]. by intros [= <-].
  - intros H%IH. done.
Qed.

Lemma populate_file_entries fuel now z dir e z' :
  populate fuel now z dir e = Some z' →
  file_entries z' ≡ₚ file_entries z ++ files_of [e].
Proof.
  revert z dir e z'. induction fuel as [|k IH]; intros z dir e z'; [done|].
  cbn [populate]. destruct (dirs z !! dir) as [p|].
  - destruct (heap z !! p) as [parent|] eqn:Hp; [|done]. intros [= <-].
    unfold file_entries. simpl.
    rewrite <- (take_drop_middle _ _ _ Hp) at 2.
    rewrite insert_take_drop by (by eapply lookup_lt_Some).
    rewrite !bind_app, !bind_cons. simpl. unfold files_of at 2.
    rewrite omap_app. fold (files_of (entries parent)). fold (files_of [e]).
    rewrite <- !app_assoc. do 2 apply Permutation_app_head.
    apply Permutation_app_comm.
  - intros H%IH. rewrite H. unfold file_entries at 1. simpl.
    rewrite bind_app, bind_singleton. simpl.
    change (files_of [dirInfoRef (length (heap z))]) with (@nil zip.File).
    by rewrite app_nil_r.
Qed.

Lemma index_file_files now z f z' :
  index_file now z f = Some z' →
  files z' = if indexed_file f
             then <[Clean (zip.Name f) := f]> (files z) else files z.
Proof.
  unfold index_file, indexed_file. case_decide as Hdot.
  { rewrite bool_decide_eq_true_2 by done. by intros [= <-]. }
  rewrite bool_decide_eq_false_2 by done.
  destruct (rooted _); [by intros [= <-]|]. destruct (isDir f); cbn [negb andb].
  - case_decide; [by intros [= <-]|]. by intros ->%populate_files.
  - by intros ->%populate_files.
Qed.

Lemma index_file_file_entries now z f z' :
  index_file now z f = Some z' →
  file_entries z' ≡ₚ file_entries z ++ (if indexed_file f then [f] else []).
Proof.
  unfold index_file, indexed_file. case_decide as Hdot.
  { rewrite bool_decide_eq_true_2 by done. intros [= <-]. by rewrite app_nil_r. }
  rewrite bool_decide_eq_false_2 by done.
  destruct (rooted _); [intros [= <-]; by rewrite app_nil_r|].
  destruct (isDir f); cbn [negb andb].
  - case_decide; [intros [= <-]; by rewrite app_nil_r|].
    intros ->%populate_file_entries. unfold file_entries at 1. cbn [heap new_dir].
    rewrite bind_app, bind_singleton. simpl. by rewrite !app_nil_r.
  - by intros ->%populate_file_entries.
Qed.

Lemma index_files_files now l z z' key :
  index_files now z l = Some z' →
  files z' !! key
  = match last (filter (λ f, indexed_at key f) l) with
    | Some f => Some f
    | None => files z !! key
    end.
Proof.
  revert z. induction l as [|f l IH]; intros z; simpl.
  { by intros [= <-]. }
  destruct (index_file now z f) as [z1|] eqn:E; [|done].
  intros Hl. rewrite (IH _ Hl). apply index_file_files in E.
  rewrite filter_cons. destruct (decide (indexed_at key f)) as [Hk|Hk].
  - rewrite last_cons. destruct (last _); [done|].
    unfold indexed_at in Hk. apply andb_prop_elim in Hk as [Hf Hk].
    apply Is_true_true in Hf. apply bool_decide_unpack in Hk.
    rewrite E, Hf, Hk. by rewrite lookup_insert_eq.
  - destruct (last _); [done|]. rewrite E.
    destruct (indexed_file f) eqn:Hf; [|done].
    rewrite lookup_insert_ne; [done|]. intros Heq. apply Hk.
    unfold indexed_at. rewrite Hf. simpl. by apply bool_decide_pack.
Qed.

Lemma index_files_file_entries now l z z' :
  index_files now z l = Some z' →
  file_entries z' ≡ₚ file_entries z ++ filter (λ f, indexed_file f) l.
Proof.
  revert z. induction l as [|f l IH]; intros z; simpl.
  { intros [= <-]. by rewrite app_nil_r. }
  destruct (index_file now z f) as [z1|] eqn:E; [|done].
  intros Hl. rewrite (IH _ Hl). apply index_file_file_entries in E. rewrite E.
  rewrite filter_cons. rewrite <- app_assoc. apply Permutation_app_head.
  by destruct (indexed_file f).
Qed.

End FileMapFacts.

Section SortFacts.
Context {A : Type} (cmp : A → A → comparison) (R : A → A → Prop).
Hypothesis cmp_le : ∀ a b, cmp a b ≠ Gt → R a b.
Hypothesis cmp_gt : ∀ a b, cmp a b = Gt → R b a.
Hypothesis R_trans : ∀ a b c, R a b → R b c → R a c.

Lemma insert_Permutation x l : slices.insert cmp x l ≡ₚ x :: l.
Proof.
  induction l as [|y l IH]; simpl; [done|].
  destruct (cmp x y); try done. rewrite IH. apply perm_swap.
Qed.

Lemma SortFunc_Permutation l : slices.SortFunc cmp l ≡ₚ l.
Proof.
  induction l as [|x l IH]; simpl; [done|].
  rewrite insert_Permutation. by rewrite IH.
Qed.

Lemma insert_sorted x l :
  StronglySorted R l → StronglySorted R (slices.insert cmp x l).
Proof.
  induction 1 as [|y l Hl IH Hy]; simpl; [by repeat constructor|].
  assert (cmp x y ≠ Gt → StronglySorted R (x :: y :: l)) as Hle.
  { intros Hxy. apply cmp_le in Hxy. constructor; [by constructor|].
    constructor; [done|]. eapply Forall_impl; [done|]. eauto. }
  destruct (cmp x y) eqn:E; [by apply Hle..|].
  constructor; [done|]. rewrite insert_Permutation. constructor; [|done].
  by apply cmp_gt.
Qed.

Lemma SortFunc_sorted l : StronglySorted R (slices.SortFunc cmp l).
Proof.
  induction l as [|x l IH]; simpl; [constructor|]. by apply insert_sorted.
Qed.
End SortFacts.

Section ReadDirClaims.
Import bytes path.

Lemma SortFunc_by_name_sorted z l :
  sorted_by_name z (slices.SortFunc (ZipFS.by_name z) l).
Proof.
  apply SortFunc_sorted.
  - intros a b. unfold ZipFS.by_name, strings.Compare, String.le, String.leb.
    by destruct (Name z a ?= Name z b)%string.
  - intros a b Hgt. unfold ZipFS.by_name, strings.Compare in Hgt.
    unfold String.le, String.leb. by rewrite String.compare_antisym, Hgt.
  - intros a b c. apply transitivity.
Qed.

(** A list of entries of pairwise distinct names has one permutation in
    ascending order of the names: every sort that meets the contract of
    [slices.SortFunc] returns the listing that the insertion sort
    returns. *)
Lemma sorted_listing_unique z (l l' : list DirEntry) :
  NoDup (Name z <$> l) → l' ≡ₚ l → sorted_by_name z l' →
  l' = slices.SortFunc (ZipFS.by_name z) l.
Proof.
  intros Hnd Hp Hs.
  assert (sorted_by_name z (slices.SortFunc (ZipFS.by_name z) l)) as Hs2
    by apply SortFunc_by_name_sorted.
  assert (l' ≡ₚ slices.SortFunc (ZipFS.by_name z) l) as Hp2
    by (by rewrite SortFunc_Permutation).
  assert (NoDup (Name z <$> l')) as Hnd' by (by rewrite Hp).
  clear Hp Hnd. revert Hs Hs2 Hp2 Hnd'.
  generalize (slices.SortFunc (ZipFS.by_name z) l). clear l.
  unfold sorted_by_name.
  induction l' as [|a r IH]; intros l2 Hs Hs2 Hp Hnd.
  { by apply Permutation_nil_l in Hp. }
  destruct l2 as [|b r2]; [by apply Permutation_nil_r in Hp|].
  inversion Hs as [|? ? Hsr Ha]; subst.
  inversion Hs2 as [|? ? Hsr2 Hb]; subst.
  rewrite fmap_cons in Hnd. apply NoDup_cons in Hnd as [Hna Hndr].
  assert (a = b) as <-.
  { destruct (decide (a = b)) as [|Hne]; [done|]. exfalso.
    assert (a ∈ r2) as Ha2.
    { assert (a ∈ b :: r2) as H by (rewrite <- Hp; left).
      apply elem_of_cons in H as [?|?]; done. }
    assert (b ∈ r) as Hb1.
    { assert (b ∈ a :: r) as H by (rewrite Hp; left).
      apply elem_of_cons in H as [?|?]; done. }
    rewrite Forall_forall in Ha, Hb.
    pose proof (Ha b Hb1) as H1. pose proof (Hb a Ha2) as H2.
    apply Hna. apply list_elem_of_fmap. exists b. split; [|done].
    unfold String.le in H1, H2. apply Is_true_true in H1, H2.
    by apply String.leb_antisym. }
  f_equal. apply IH; [done..| |done]. by apply Permutation_cons_inv in Hp.
Qed.

Lemma length_SortFunc {A} (cmp : A → A → comparison) l :
  length (slices.SortFunc cmp l) = length l.
Proof. apply Permutation_length, SortFunc_Permutation. Qed.

(** What a successful [ZipFS.ReadDir] shows. *)
Lemma ReadDir_Ok z cs name p :
  fs.ValidPath name = true → dirs z !! name = Some p →
  ∃ s cs', ZipFS.ReadDir z cs name = (fs.Ok s, cs')
    ∧ elems z cs' s = slices.SortFunc (ZipFS.by_name z) (live_entries z p)
    ∧ (∀ k l, cs !! k = Some l → cs' !! k = Some l)
    ∧ (∀ i v z' cs'', slice_set z cs' s i v = Ret (z', cs'') → z' = z).
Proof.
  intros Hv Hd. unfold ZipFS.ReadDir. rewrite Hv. simpl.
  rewrite (ValidPath_Clean _ Hv), Hd.
  destruct (live_entries z p) as [|e l] eqn:El.
  - eexists _, _. split; [done|]. by split_and!.
  - eexists _, _. split; [done|]. split_and!.
    + unfold elems. simpl. rewrite lookup_app_r by done.
      rewrite Nat.sub_diag. simpl. rewrite take_ge; [done|].
      rewrite insert_Permutation. simpl. by rewrite length_SortFunc.
    + intros k l' Hk. by apply lookup_app_l_Some.
    + intros i v z' cs''. unfold slice_set. simpl. case_decide; [|done].
      rewrite lookup_app_r by done. rewrite Nat.sub_diag. simpl.
      by intros [= <- _].
Qed.

(** C5, as amended: for a path argument that meets the path contract
    ([fs.ValidPath]) and is a directory path of the index, [ReadDir]
    returns the children of the directory in ascending order of their
    names, in an array of its own: a write through the returned slice
    leaves the index as it was, and a second call, before or after such a
    write, returns a listing equal to the first in content and in order.
    On a valid path that is not a directory path of the index it fails with
    [ErrNotExist]; on a path that fails the contract it fails with
    [ErrInvalid], whether or not the index has a directory of this path. *)
Theorem C5_ReadDir_sorted_copy (z : ZipFS) (cs : list (list DirEntry))
    (name : string) :
  (fs.ValidPath name = true →
   ∀ p, dirs z !! name = Some p →
     ∃ s cs', ZipFS.ReadDir z cs name = (fs.Ok s, cs')
       ∧ sorted_by_name z (elems z cs' s)
       ∧ elems z cs' s ≡ₚ live_entries z p
       ∧ (∀ i v z' cs'', slice_set z cs' s i v = Ret (z', cs'') →
            z' = z
            ∧ ∃ s2 cs2, ZipFS.ReadDir z' cs'' name = (fs.Ok s2, cs2)
                        ∧ elems z' cs2 s2 = elems z cs' s)
       ∧ (∃ s2 cs2, ZipFS.ReadDir z cs' name = (fs.Ok s2, cs2)
                    ∧ elems z cs2 s2 = elems z cs' s))
  ∧ (fs.ValidPath name = true → dirs z !! name = None →
     ZipFS.ReadDir z cs name
     = (fs.Failed (fs.PathError "readdir" name fs.ErrNotExist), cs))
  ∧ (fs.ValidPath name = false →
     ZipFS.ReadDir z cs name
     = (fs.Failed (fs.PathError "readdir" name fs.ErrInvalid), cs)).
Proof.
  split_and!.
  - intros Hv p Hd.
    destruct (ReadDir_Ok z cs name p Hv Hd) as (s & cs' & Hr & He & _ & Hz).
    exists s, cs'. split; [done|]. rewrite He. split_and!.
    + apply SortFunc_by_name_sorted.
    + apply SortFunc_Permutation.
    + intros i v z' cs'' Hset. pose proof (Hz _ _ _ _ Hset) as ->. split; [done|].
      destruct (ReadDir_Ok z cs'' name p Hv Hd) as (s2 & cs2 & Hr2 & He2 & _).
      eauto.
    + destruct (ReadDir_Ok z cs' name p Hv Hd) as (s2 & cs2 & Hr2 & He2 & _).
      eauto.
  - intros Hv Hd. unfold ZipFS.ReadDir. rewrite Hv. simpl.
    by rewrite (ValidPath_Clean _ Hv), Hd.
  - intros Hv. unfold ZipFS.ReadDir. by rewrite Hv.
Qed.

Lemma C5_witness :
  ∃ s cs', ZipFS.ReadDir demo_flat [] "." = (fs.Ok s, cs')
           ∧ sorted_by_name demo_flat (elems demo_flat cs' s)
           ∧ elems demo_flat cs' s ≡ₚ live_entries demo_flat 0
           ∧ ∃ s2 cs2, ZipFS.ReadDir demo_flat cs' "." = (fs.Ok s2, cs2)
                       ∧ elems demo_flat cs2 s2 = elems demo_flat cs' s.
Proof.
  destruct (C5_ReadDir_sorted_copy demo_flat [] ".") as [Hdir _].
  destruct (Hdir eq_refl 0 eq_refl) as (s & cs' & H1 & H2 & H3 & _ & H5).
  exists s, cs'. auto.
Defined.

(** The sorted listing of the sample directory, and a write through the
    returned slice: the index keeps its child list. *)
Example ReadDir_copy_is_detached :
  ∃ s cs', ZipFS.ReadDir demo_flat [] "." = (fs.Ok s, cs')
           ∧ Name demo_flat <$> elems demo_flat cs' s = ["a.txt"; "b.txt"]
           ∧ Name demo_flat <$> live_entries demo_flat 0 = ["b.txt"; "a.txt"]
           ∧ ∃ cs'', slice_set demo_flat cs' s 0 (dirInfoRef 0)
                     = Ret (demo_flat, cs'')
                     ∧ elems demo_flat cs'' s
                       = [dirInfoRef 0; fileEntry (record "b.txt" "B")].
Proof.
  eexists _, _. split; [vm_compute; reflexivity|].
  split; [vm_compute; reflexivity|]. split; [vm_compute; reflexivity|].
  eexists. split; vm_compute; reflexivity.
Qed.

(** C5, as stated, fails: ["/x"] is a path that is not a directory of the
    index, and [ReadDir] fails on it with [ErrInvalid], not with
    [ErrNotExist]; and the archive with the single record [../y] has the
    directory path [..] in its index, on which [ReadDir] fails with
    [ErrInvalid] as well. *)
Lemma C5_counterexample :
  dirs demo_flat !! "/x" = None
  ∧ ZipFS.ReadDir demo_flat [] "/x"
    = (fs.Failed (fs.PathError "readdir" "/x" fs.ErrInvalid), [])
  ∧ ZipFS.ReadDir demo_flat [] "/x"
    ≠ (fs.Failed (fs.PathError "readdir" "/x" fs.ErrNotExist), [])
  ∧ ∃ z p, NewZipFS 0 [record "../y" "Y"] = Some z
           ∧ dirs z !! ".." = Some p
           ∧ ZipFS.ReadDir z [] ".."
             = (fs.Failed (fs.PathError "readdir" ".." fs.ErrInvalid), []).
Proof.
  split; [reflexivity|]. split; [reflexivity|]. split; [discriminate|].
  eexists _, _. split; [vm_compute; reflexivity|].
  split; vm_compute; reflexivity.
Qed.

End ReadDirClaims.

Section SubClaims.
Import bytes path.

Lemma CutPrefix_app pre s : strings.CutPrefix (pre +:+ s) pre = Some s.
Proof.
  induction pre as [|c pre IH]; simpl; [by destruct s|].
  by rewrite Ascii.eqb_refl.
Qed.

Lemma TrimPrefix_app pre s : strings.TrimPrefix (pre +:+ s) pre = s.
Proof. unfold strings.TrimPrefix. by rewrite CutPrefix_app. Qed.

Lemma Sub_root z views : ZipFS.Sub z views "." = (fs.Ok rootFS, views).
Proof. done. Qed.

Lemma Sub_view_ok z views dir r views' :
  ZipFS.Sub z views dir = (r, views') →
  Forall view_ok views → Forall view_ok views'.
Proof.
  unfold ZipFS.Sub. destruct (fs.ValidPath dir) eqn:Hv; simpl; [|by intros [= _ <-]].
  rewrite (ValidPath_Clean _ Hv). case_decide; [by intros [= _ <-]|].
  destruct (dirs z !! dir) eqn:Hd; [|by intros [= _ <-]].
  intros [= _ <-] Hviews. apply Forall_app. split; [done|].
  constructor; [|done]. split_and!; simpl; eauto.
Qed.

Lemma subFS_Sub_dot s views :
  view_ok s →
  subFS.Sub s views "." = (fs.Ok (subFSRef (length views)), views ++ [s]).
Proof.
  intros (Hv & Hne & [p Hp]). unfold subFS.Sub. simpl.
  rewrite Join_valid by done. simpl.
  unfold ZipFS.Sub. rewrite Hv. simpl. rewrite (ValidPath_Clean _ Hv).
  rewrite decide_False by done. rewrite Hp. by destruct s.
Qed.

(** C3, as amended: [Sub(".")] on the root filesystem returns the root
    filesystem itself and allocates nothing; [Sub(".")] on a sub-tree view
    returns a newly allocated view, at an address other than the
    receiver's, whose parent and prefix are those of the receiver. *)
Theorem C3_Sub_dot (z : ZipFS) (views : list subFS) (a : nat) (s : subFS) :
  views !! a = Some s → view_ok s →
  FS_Sub z views rootFS "." = Ret (fs.Ok rootFS, views)
  ∧ FS_Sub z views (subFSRef a) "."
    = Ret (fs.Ok (subFSRef (length views)), views ++ [s])
  ∧ subFSRef (length views) ≠ subFSRef a
  ∧ (views ++ [s]) !! length views = Some s.
Proof.
  intros Ha Hs. split_and!.
  - done.
  - simpl. rewrite Ha. by rewrite subFS_Sub_dot.
  - apply lookup_lt_Some in Ha. intros [= ?]. lia.
  - by rewrite lookup_app_r, Nat.sub_diag.
Qed.

Lemma Clean_dot_slash rel :
  Forall good_elem (split rel) → Clean ("." +:+ String slash rel) = rel.
Proof.
  intros Hrel. unfold Clean.
  assert ("." +:+ String slash rel ≠ "") as Hne by (intros [=]).
  rewrite (decide_False _ _ Hne).
  change (rooted ("." +:+ String slash rel)) with false. cbv iota.
  rewrite split_app_slash. change (split ".") with ["."]. 
  cbn [app fold_left].
  assert (clean_elem false ([], 0) "." = ([], 0)) as -> by done.
  rewrite fold_clean_good by done. simpl. rewrite app_nil_r, rev_involutive.
  pose proof (split_nonnil rel). pose proof (join_split rel).
  destruct (split rel); done.
Qed.

Lemma Join_dot rel : fs.ValidPath rel = true → Join "." rel = rel.
Proof.
  intros Hv. unfold Join. destruct rel as [|c rel]; [done|].
  destruct (decide (String c rel = ".")) as [->|Hne]; [done|].
  apply Clean_dot_slash. by apply ValidPath_elems.
Qed.

Lemma Open_valid z name :
  fs.ValidPath name = true →
  ZipFS.Open z name =
    match dirs z !! name with
    | Some dir => fs.Ok (dirFile {| info := dir; path := name; pos := 0 |})
    | None =>
        match files z !! name with
        | Some f => fs.Ok (regFile {| file := f; rc := None |})
        | None => fs.Failed (fs.PathError "open" name fs.ErrNotExist)
        end
    end.
Proof.
  intros Hv. unfold ZipFS.Open. rewrite Hv. simpl. by rewrite (ValidPath_Clean _ Hv).
Qed.

(** C4: for a view obtained by [Sub(D)] on the filesystem and a valid
    path [rel], [Open(rel)] on the view gives the same kind of result with
    the same content as [Open] of the joined path [D/rel] on the
    filesystem (the same file, the same directory object, or the same
    error kind), and an error of the view reports the path [rel].  The
    joined path is [path.Join(D, rel)], which is [D], a slash and [rel]
    unless one of the two is ["."]. *)
Theorem C4_subtree_roundtrip (z : ZipFS) (views views' : list subFS)
    (D rel : string) (v : FS) :
  ZipFS.Sub z views D = (fs.Ok v, views') → fs.ValidPath rel = true →
  (∃ r, FS_Open z views' v rel = Ret r
        ∧ same_open rel r (ZipFS.Open z (Join D rel)))
  ∧ (D ≠ "." → rel ≠ "." → Join D rel = D +:+ "/" +:+ rel).
Proof.
  intros HSub Hrel. split; [revert HSub Hrel|].
  2:{ intros HD Hdot. unfold ZipFS.Sub in HSub.
      destruct (fs.ValidPath D) eqn:Hv; [|done].
      rewrite Join_valid by done. by rewrite decide_False. }
  unfold ZipFS.Sub. destruct (fs.ValidPath D) eqn:HD; simpl; [|done].
  rewrite (ValidPath_Clean _ HD). case_decide as HDdot.
  - intros [= <- <-] Hrel. subst D. rewrite Join_dot by done.
    eexists; split; [done|]. rewrite Open_valid by done. unfold same_open.
    destruct (dirs z !! rel); [done|]. destruct (files z !! rel); done.
  - destruct (dirs z !! D) as [p|] eqn:Hp; [|done].
    intros [= <- <-] Hrel. simpl. rewrite lookup_app_r by lia. rewrite Nat.sub_diag.
    simpl. eexists; split; [done|]. unfold subFS.Open. rewrite Hrel. simpl.
    rewrite Join_valid by done. case_decide as Hdot.
    + rewrite Open_valid by done. rewrite Hp. by simpl.
    + rewrite Open_valid by by apply ValidPath_app.
      destruct (dirs z !! (D +:+ String slash rel)); [by simpl|].
      destruct (files z !! (D +:+ String slash rel)); [by simpl|].
      simpl. split_and!; try done.
      change (D +:+ String slash rel) with (D +:+ ("/" +:+ rel)).
      rewrite <- append_assoc. apply TrimPrefix_app.
Qed.

End SubClaims.

Section ParentFacts.
Import bytes path.

Lemma join_snoc l b : l ≠ [] → join (l ++ [b]) = join l +:+ String slash b.
Proof.
  induction l as [|x l IH]; [done|]. intros _. destruct l as [|y l]; [done|].
  change ((x :: y :: l) ++ [b]) with (x :: (y :: l) ++ [b]).
  rewrite !join_cons by done. rewrite IH by done.
  change (String slash (join (y :: l) +:+ String slash b))
    with (String slash (join (y :: l)) +:+ String slash b).
  by rewrite append_assoc.
Qed.

Lemma LastIndexByte_app_slash d b :
  has_slash b = false →
  strings.LastIndexByte (d +:+ String slash b) slash = Some (String.length d).
Proof.
  intros Hb. induction d as [|c d IH]; simpl.
  - apply LastIndexByte_None in Hb. by rewrite Hb.
  - by rewrite IH.
Qed.

Lemma upto_app_slash d b :
  upto (S (String.length d)) (d +:+ String slash b) = d +:+ "/".
Proof.
  induction d as [|c d IH]; [done|].
  change (String c (upto (S (String.length d)) (d +:+ String slash b))
          = String c (d +:+ "/")).
  by rewrite IH.
Qed.

Lemma from_app_slash d b :
  from (S (String.length d)) (d +:+ String slash b) = b.
Proof. induction d as [|c d IH]; simpl; done. Qed.

Lemma strip_slashes_elem b :
  has_slash b = false → b ≠ "" → strip_slashes b = b.
Proof.
  induction b as [|c b IH]; [done|]. intros H _. simpl in H.
  apply orb_false_iff in H as [Hc Hb].
  change (strip_slashes (String c b))
    with (match strip_slashes b with
          | "" => if is_slash c then "" else String c ""
          | r' => String c r'
          end).
  destruct b as [|c' b].
  - simpl. by rewrite Hc.
  - by rewrite IH.
Qed.

Lemma strip_slashes_app d b :
  has_slash b = false → b ≠ "" → strip_slashes (d +:+ b) = d +:+ b.
Proof.
  intros Hb Hne. induction d as [|c d IH].
  - by apply strip_slashes_elem.
  - change (strip_slashes (String c d +:+ b))
      with (match strip_slashes (d +:+ b) with
            | "" => if is_slash c then "" else String c ""
            | r' => String c r'
            end).
    rewrite IH. change (String c d +:+ b) with (String c (d +:+ b)).
    destruct (d +:+ b) eqn:E; [|done].
    destruct d; simpl in E; [done|discriminate].
Qed.

Lemma good_elem_no_slash k e : e ∈ split k → has_slash e = false.
Proof.
  intros He. pose proof (split_elem_no_slash k) as H.
  rewrite Forall_forall in H. auto.
Qed.

(** The shape of a good path: parent elements and a last element. *)
Lemma good_path_decompose k :
  good_path k →
  ∃ l b, split k = l ++ [b] ∧ Forall good_elem l ∧ good_elem b
         ∧ has_slash b = false ∧ Forall (λ e, has_slash e = false) l.
Proof.
  intros Hk. unfold good_path in Hk. pose proof (split_elem_no_slash k) as Hs.
  assert (is_Some (last (split k))) as [b Hlast]
    by apply last_is_Some, split_nonnil.
  apply last_Some in Hlast as [l E]. rewrite E in Hk, Hs.
  apply Forall_app in Hk as [Hl Hb]. apply Forall_app in Hs as [Hsl Hsb].
  exists l, b. split_and!; try done.
  - by inversion Hb.
  - by inversion Hsb.
Qed.

Lemma Base_good k l b :
  good_path k → split k = l ++ [b] → Base k = b.
Proof.
  intros Hk Hs. pose proof (join_split k) as Hj. rewrite Hs in Hj.
  destruct (good_path_decompose k Hk) as (l' & b' & Hs' & _ & Hb & Hbs & _).
  rewrite Hs in Hs'. apply app_inj_tail in Hs' as [<- <-].
  destruct Hb as (Hne & _). unfold Base.
  assert (k ≠ "") as Hk0.
  { intros ->. unfold good_path in Hk. inversion Hk as [|?? (? & _)]. done. }
  rewrite decide_False by done.
  destruct l as [|x l].
  - simpl in Hj. subst k. rewrite strip_slashes_elem by done.
    apply LastIndexByte_None in Hbs. rewrite Hbs. by rewrite decide_False.
  - rewrite join_snoc in Hj by done. subst k.
    assert (strip_slashes (join (x :: l) +:+ String slash b)
            = join (x :: l) +:+ String slash b) as ->.
    { change (String slash b) with ("/" +:+ b). rewrite <- append_assoc.
      by apply strip_slashes_app. }
    rewrite LastIndexByte_app_slash by done. rewrite from_app_slash.
    by rewrite decide_False.
Qed.

Lemma Dir_good k l b :
  good_path k → split k = l ++ [b] →
  Dir k = match l with [] => "." | _ => join l end.
Proof.
  intros Hk Hs. pose proof (join_split k) as Hj. rewrite Hs in Hj.
  destruct (good_path_decompose k Hk) as (l' & b' & Hs' & Hl & Hb & Hbs & Hls).
  rewrite Hs in Hs'. apply app_inj_tail in Hs' as [<- <-].
  destruct l as [|x l].
  - simpl in Hj. subst k. by apply Dir_no_slash.
  - rewrite join_snoc in Hj by done. subst k. unfold Dir, Split.
    rewrite LastIndexByte_app_slash by done. cbn [fst].
    rewrite upto_app_slash. rewrite Clean_trailing_slash.
    + apply Clean_good. by rewrite split_join.
    + inversion Hl as [|?? (? & _)]; subst. destruct l; [done|].
      rewrite join_cons by done. by destruct x.
Qed.

Lemma good_path_join l :
  l ≠ [] → Forall good_elem l → Forall (λ e, has_slash e = false) l →
  good_path (join l).
Proof. intros. unfold good_path. by rewrite split_join. Qed.

Lemma good_path_not_dot k : good_path k → k ≠ ".".
Proof. intros Hk ->. inversion Hk as [|?? (_ & ? & _)]. done. Qed.

Lemma Dir_good_path k : good_path k → Dir k = "." ∨ good_path (Dir k).
Proof.
  intros Hk. destruct (good_path_decompose k Hk) as (l & b & Hs & Hl & Hb & Hbs & Hls).
  rewrite (Dir_good k l b Hk Hs). destruct l; [by left|right].
  by apply good_path_join.
Qed.

Lemma Dir_Base_inj k1 k2 :
  good_path k1 → good_path k2 → Dir k1 = Dir k2 → Base k1 = Base k2 → k1 = k2.
Proof.
  intros H1 H2 Hd Hb.
  destruct (good_path_decompose k1 H1) as (l1 & b1 & Hs1 & Hl1 & _ & _ & Hls1).
  destruct (good_path_decompose k2 H2) as (l2 & b2 & Hs2 & Hl2 & _ & _ & Hls2).
  rewrite (Base_good k1 l1 b1), (Base_good k2 l2 b2) in Hb by done. subst b2.
  rewrite (Dir_good k1 l1 b1), (Dir_good k2 l2 b1) in Hd by done.
  assert (l1 = l2) as ->.
  { destruct l1 as [|x1 l1], l2 as [|x2 l2]; [done|..].
    - exfalso. assert (good_path (join (x2 :: l2))) as Hg by by apply good_path_join.
      rewrite <- Hd in Hg. by apply good_path_not_dot in Hg.
    - exfalso. assert (good_path (join (x1 :: l1))) as Hg by by apply good_path_join.
      rewrite Hd in Hg. by apply good_path_not_dot in Hg.
    - rewrite <- (split_join (x1 :: l1)), <- (split_join (x2 :: l2)) by done.
      by rewrite Hd. }
  rewrite <- (join_split k1), <- (join_split k2). by rewrite Hs1, Hs2.
Qed.

(** A good path continues its parent directory. *)
Lemma Dir_prefix k :
  good_path k → Dir k ≠ "." → ∃ b, k = Dir k +:+ String slash b.
Proof.
  intros Hk Hd. destruct (good_path_decompose k Hk) as (l & b & Hs & _).
  rewrite (Dir_good k l b Hk Hs) in *. destruct l as [|x l]; [done|].
  exists b. rewrite <- (join_split k) at 1. rewrite Hs. by rewrite join_snoc.
Qed.

Lemma HasPrefix_app s pre r : s = pre +:+ r → strings.HasPrefix s pre = true.
Proof. intros ->. unfold strings.HasPrefix. by rewrite CutPrefix_app. Qed.

Lemma CutPrefix_Some s pre r : strings.CutPrefix s pre = Some r → s = pre +:+ r.
Proof.
  revert s. induction pre as [|c pre IH]; intros s; simpl.
  - destruct s; intros H; by simplify_eq/=.
  - destruct s as [|c' s]; simpl; [done|].
    destruct (Ascii.eqb c c') eqn:E; [|done].
    apply Ascii.eqb_eq in E as ->. intros H. apply IH in H. by subst.
Qed.

Lemma HasPrefix_inv s pre :
  strings.HasPrefix s pre = true → ∃ r, s = pre +:+ r.
Proof.
  unfold strings.HasPrefix. destruct (strings.CutPrefix s pre) as [r|] eqn:E; [|done].
  intros _. exists r. by apply CutPrefix_Some.
Qed.

End ParentFacts.

Section TreeFacts.
Import bytes path.

Lemma path_of_indexed z e k :
  path_of z e k → is_Some (dirs z !! k) ∨ is_Some (files z !! k).
Proof. destruct e; simpl; eauto. Qed.

Lemma Name_path z pend e k :
  inv z pend → path_of z e k → good_path k → Name z e = Base k.
Proof.
  intros Hinv He Hk. destruct e as [f|q]; simpl in *.
  - destruct (inv_fname _ _ Hinv _ _ He) as [_ Hf]. unfold fileEntry.Name.
    by rewrite Hf.
  - pose proof (inv_bound _ _ Hinv _ _ He) as Hq.
    apply lookup_lt_is_Some in Hq as [d Hd]. unfold dirInfo.Name. rewrite Hd.
    by destruct (inv_dname _ _ Hinv _ _ _ He Hd (good_path_not_dot _ Hk)).
Qed.

(** The names depend on the heap through the names of its objects only. *)
Lemma Name_ext z z1 e :
  (∀ q, e = dirInfoRef q → name <$> heap z1 !! q = name <$> heap z !! q) →
  Name z1 e = Name z e.
Proof.
  destruct e as [f|q]; [done|]. intros H. specialize (H q eq_refl).
  simpl. unfold dirInfo.Name.
  destruct (heap z1 !! q), (heap z !! q); simpl in H; congruence.
Qed.

Lemma Name_heap_app z z1 d e :
  heap z1 = heap z ++ [d] →
  (∀ q, e = dirInfoRef q → q < length (heap z)) →
  Name z1 e = Name z e.
Proof.
  intros Hh Hq. apply Name_ext. intros q ->. rewrite Hh.
  by rewrite lookup_app_l by eauto.
Qed.

Lemma Name_heap_insert z z1 p d d' e :
  heap z1 = <[p := d']> (heap z) → heap z !! p = Some d → name d' = name d →
  Name z1 e = Name z e.
Proof.
  intros Hh Hp Hn. apply Name_ext. intros q _. rewrite Hh.
  destruct (decide (p = q)) as [->|Hne].
  - rewrite list_lookup_insert_eq by by eapply lookup_lt_Some. rewrite Hp.
    simpl. by rewrite Hn.
  - by rewrite list_lookup_insert_ne.
Qed.


Lemma entry_ref_bound z pend dk p d e q :
  inv z pend → dirs z !! dk = Some p → heap z !! p = Some d →
  e ∈ entries d → e = dirInfoRef q → q < length (heap z).
Proof.
  intros Hinv Hdk Hd He ->.
  destruct (inv_kids _ _ Hinv _ _ _ _ Hdk Hd He) as (k & Hk & _).
  by eapply inv_bound.
Qed.

(** A new directory object for a path that is new to the maps, with
    children that the maps hold already. *)
Lemma inv_new_dir z pend dk t ents :
  inv z pend → good_path dk → dirs z !! dk = None → files z !! dk = None →
  (∀ e, e ∈ ents → ∃ k, path_of z e k ∧ Dir k = dk ∧ good_path k) →
  NoDup (Name z <$> ents) →
  inv (new_dir z dk {| name := Base dk; modTime := t; entries := ents |})
      (Some dk).
Proof.
  intros Hinv Hdk Hnd Hnf Hents Hnodup.
  set (z1 := new_dir z dk _).
  assert (∀ k p, dirs z !! k = Some p → dirs z1 !! k = Some p) as Hkeep.
  { intros k p Hk. simpl. rewrite lookup_insert_ne; [done|]. congruence. }
  assert (∀ e k, path_of z e k → path_of z1 e k ∧ k ≠ dk) as Hpath.
  { intros [f|q] k Hk; simpl in *; (split; [|congruence]); auto. }
  assert (∀ k p, dirs z1 !! k = Some p →
            (k = dk ∧ p = length (heap z)) ∨ (k ≠ dk ∧ dirs z !! k = Some p))
    as Hcases.
  { intros k p. simpl. destruct (decide (dk = k)) as [->|Hne].
    - rewrite lookup_insert_eq. intros [= <-]. by left.
    - rewrite lookup_insert_ne by done. intros ?. right. split; congruence. }
  assert (∀ p d, p < length (heap z) → heap z1 !! p = Some d →
            heap z !! p = Some d) as Hold.
  { intros p d Hp. simpl. by rewrite lookup_app_l. }
  assert (heap z1 !! length (heap z)
          = Some {| name := Base dk; modTime := t; entries := ents |}) as Hnew.
  { simpl. by rewrite lookup_app_r, Nat.sub_diag by lia. }
  split.
  - destruct (inv_root _ _ Hinv) as [p Hp]. eauto.
  - intros k p [[_ ->]|[_ Hk]]%Hcases; simpl; rewrite length_app; simpl.
    + lia.
    + pose proof (inv_bound _ _ Hinv _ _ Hk). lia.
  - intros k p d [[-> ->]|[Hne Hk]]%Hcases Hd Hdot.
    + rewrite Hnew in Hd. by simplify_eq.
    + eapply (inv_dname _ _ Hinv); [done| |done].
      apply Hold; [|done]. by eapply inv_bound.
  - intros k1 k2 p [[-> ->]|[Hne1 Hk1]]%Hcases [[-> Hp]|[Hne2 Hk2]]%Hcases;
      try done.
    + pose proof (inv_bound _ _ Hinv _ _ Hk2). lia.
    + pose proof (inv_bound _ _ Hinv _ _ Hk1). lia.
    + by eapply inv_inj.
  - intros k f Hf. by apply (inv_fname _ _ Hinv).
  - intros dk' p d e [[-> ->]|[Hne Hk]]%Hcases Hd He.
    + rewrite Hnew in Hd. simplify_eq. simpl in He.
      destruct (Hents e He) as (k & Hk & ? & ?).
      destruct (Hpath _ _ Hk). exists k. split_and!; try done. congruence.
    + apply Hold in Hd; [|by eapply inv_bound].
      destruct (inv_kids _ _ Hinv _ _ _ _ Hk Hd He) as (k & Hpk & ? & ? & _).
      destruct (Hpath _ _ Hpk). exists k. split_and!; try done. congruence.
  - intros dk' p d [[-> ->]|[Hne Hk]]%Hcases Hd.
    + rewrite Hnew in Hd. simplify_eq. simpl.
      erewrite list_fmap_ext; [exact Hnodup|]. intros i e Hie.
      apply (Name_heap_app z z1 _ e eq_refl). intros q ->.
      destruct (Hents (dirInfoRef q)) as (k & Hpk & _).
      { by eapply list_elem_of_lookup_2. }
      by eapply inv_bound.
    + apply Hold in Hd; [|by eapply inv_bound].
      erewrite list_fmap_ext; [by eapply (inv_nodup _ _ Hinv)|].
      intros i e Hie. apply (Name_heap_app z z1 _ e eq_refl). intros q ->.
      eapply entry_ref_bound; [done..| |done]. by eapply list_elem_of_lookup_2.
Qed.

(** The pending object joins the child list of its parent directory. *)
Lemma inv_append z k e p parent :
  inv z (Some k) → good_path k → path_of z e k →
  dirs z !! Dir k = Some p → heap z !! p = Some parent →
  inv (with_heap z (<[p := append_entry e parent]> (heap z))) None.
Proof.
  intros Hinv Hk He Hp Hparent.
  set (z1 := with_heap z _).
  assert (∀ q d, heap z1 !! q = Some d →
            (q = p ∧ d = append_entry e parent)
            ∨ (q ≠ p ∧ heap z !! q = Some d)) as Hcases.
  { intros q d. simpl. destruct (decide (p = q)) as [->|Hne].
    - rewrite list_lookup_insert_eq by by eapply lookup_lt_Some.
      intros [= <-]. by left.
    - rewrite list_lookup_insert_ne by done. intros ?. right. by split. }
  assert (∀ e0, Name z1 e0 = Name z e0) as HName.
  { intros e0. by apply (Name_heap_insert z z1 p parent (append_entry e parent)). }
  split.
  - apply (inv_root _ _ Hinv).
  - intros k0 q Hk0. simpl. rewrite length_insert. by eapply inv_bound.
  - intros k0 q d Hk0 [[-> ->]|[Hne Hd]]%Hcases Hdot.
    + by apply (inv_dname _ _ Hinv _ _ _ Hk0 Hparent).
    + by apply (inv_dname _ _ Hinv _ _ _ Hk0 Hd).
  - apply (inv_inj _ _ Hinv).
  - apply (inv_fname _ _ Hinv).
  - intros dk q d e0 Hdk [[-> ->]|[Hne Hd]]%Hcases He0.
    + pose proof (inv_inj _ _ Hinv _ _ _ Hdk Hp) as ->. simpl in He0.
      apply elem_of_app in He0 as [He0|He0].
      * destruct (inv_kids _ _ Hinv _ _ _ _ Hp Hparent He0) as (k0 & ? & ? & ? & _).
        exists k0. by split_and!.
      * apply list_elem_of_singleton in He0 as ->. exists k. by split_and!.
    + destruct (inv_kids _ _ Hinv _ _ _ _ Hdk Hd He0) as (k0 & ? & ? & ? & _).
      exists k0. by split_and!.
  - intros dk q d Hdk [[-> ->]|[Hne Hd]]%Hcases.
    + erewrite list_fmap_ext; [|intros; apply HName].
      simpl. rewrite fmap_app. simpl. apply NoDup_app. split_and!.
      * by eapply (inv_nodup _ _ Hinv).
      * intros n Hn ->%list_elem_of_singleton.
        apply list_elem_of_fmap in Hn as (e0 & Hn & He0).
        destruct (inv_kids _ _ Hinv _ _ _ _ Hp Hparent He0)
          as (k0 & Hpk0 & Hd0 & Hg0 & Hne).
        rewrite (Name_path z _ e k Hinv He Hk) in Hn.
        rewrite (Name_path z _ e0 k0 Hinv Hpk0 Hg0) in Hn.
        apply Hne. f_equal. by apply Dir_Base_inj.
      * apply NoDup_singleton.
    + erewrite list_fmap_ext; [|intros; apply HName].
      by eapply (inv_nodup _ _ Hinv).
Qed.

Lemma HasPrefix_self_longer k s : s ≠ "" → strings.HasPrefix k (k +:+ s) = false.
Proof.
  intros Hs. destruct (strings.HasPrefix k (k +:+ s)) eqn:E; [|done].
  apply HasPrefix_inv in E as [r Hr]. apply (f_equal String.length) in Hr.
  rewrite !length_append in Hr. destruct s; [done|]. simpl in Hr. lia.
Qed.

(** The file map takes a record under a path that is new to the maps. *)
Lemma inv_set_file z k f :
  inv z None → good_path k → dirs z !! k = None → files z !! k = None →
  zip.Name f = k →
  inv (set_file z k f) (Some k).
Proof.
  intros Hinv Hk Hnd Hnf Hname.
  assert (∀ e k0, path_of z e k0 → path_of (set_file z k f) e k0 ∧ k0 ≠ k)
    as Hpath.
  { intros [g|q] k0 Hk0; simpl in *; (split; [|congruence]); [|done].
    rewrite lookup_insert_ne; [done|]. congruence. }
  split; try solve [apply Hinv].
  - intros k0 g. simpl. destruct (decide (k = k0)) as [->|Hne].
    + rewrite lookup_insert_eq. by intros [= <-].
    + rewrite lookup_insert_ne by done. apply (inv_fname _ _ Hinv).
  - intros dk p d e Hdk Hd He.
    destruct (inv_kids _ _ Hinv _ _ _ _ Hdk Hd He) as (k0 & Hpk & ? & ? & _).
    destruct (Hpath _ _ Hpk). exists k0. split_and!; try done. congruence.
Qed.

Lemma under_file_Dir z k :
  good_path k → Dir k ≠ "." → ¬ under_file z k →
  files z !! Dir k = None ∧ ¬ under_file z (Dir k).
Proof.
  intros Hk Hd Hu. destruct (Dir_prefix k Hk Hd) as [b Hb]. split.
  - destruct (files z !! Dir k) as [f|] eqn:E; [|done]. exfalso. apply Hu.
    exists (Dir k), f. split; [done|].
    apply (HasPrefix_app _ _ b). rewrite Hb at 1.
    change (String slash b) with ("/" +:+ b). by rewrite append_assoc.
  - intros (a & f & Ha & Hpre). apply Hu. exists a, f. split; [done|].
    apply HasPrefix_inv in Hpre as [r Hr].
    apply (HasPrefix_app _ _ (r +:+ String slash b)). rewrite Hb at 1.
    rewrite Hr at 1. by rewrite !append_assoc.
Qed.

(** The walk of [populate] restores the invariant. *)
Lemma populate_inv fuel now z k e z' :
  inv z (Some k) → good_path k → path_of z e k → ¬ under_file z k →
  populate fuel now z (Dir k) e = Some z' → inv z' None.
Proof.
  revert z k e z'. induction fuel as [|n IH]; intros z k e z' Hinv Hk He Hu; [done|].
  cbn [populate]. destruct (dirs z !! Dir k) as [p|] eqn:Hp.
  - pose proof (inv_bound _ _ Hinv _ _ Hp) as Hlt.
    apply lookup_lt_is_Some in Hlt as [parent Hparent]. rewrite Hparent.
    intros [= <-]. by eapply inv_append.
  - assert (Dir k ≠ ".") as Hdot.
    { intros Heq. rewrite Heq in Hp. destruct (inv_root _ _ Hinv). congruence. }
    assert (good_path (Dir k)) as Hg by by destruct (Dir_good_path k Hk).
    destruct (under_file_Dir z k Hk Hdot Hu) as [Hnf Hu'].
    apply IH; [|done| |done].
    + apply (inv_new_dir z (Some k)); try done.
      * intros e0 ->%list_elem_of_singleton. by exists k.
      * apply NoDup_singleton.
    + simpl. by rewrite lookup_insert_eq.
Qed.

Lemma index_file_inv now z f z' :
  inv z None → admissible z f → index_file now z f = Some z' → inv z' None.
Proof.
  intros Hinv Hadm. unfold index_file. unfold admissible in Hadm.
  set (k := Clean (zip.Name f)) in *.
  case_decide as Hdot; [by intros [= <-]|].
  destruct (rooted k) eqn:Hr; [by intros [= <-]|].
  destruct Hadm as [?|[?|[[Hd Hs]|(Hk & Hnd & Hnf & Hu & Hname)]]]; [done..| |].
  { rewrite Hd. rewrite decide_True by done. by intros [= <-]. }
  destruct (isDir f).
  - case_decide; [by intros [= <-]|].
    apply populate_inv; [|done| |done].
    + apply (inv_new_dir z None); try done.
      * by intros e ?%elem_of_nil.
      * apply NoDup_nil_2.
    + simpl. by rewrite lookup_insert_eq.
  - apply populate_inv; [|done| |].
    + apply inv_set_file; auto.
    + simpl. by rewrite lookup_insert_eq.
    + intros (a & g & Ha & Hpre). simpl in Ha.
      destruct (decide (k = a)) as [<-|Hne].
      * by rewrite HasPrefix_self_longer in Hpre.
      * rewrite lookup_insert_ne in Ha by done. apply Hu. by exists a, g.
Qed.

Lemma index_files_inv now l z z' :
  inv z None → collision_free now z l → index_files now z l = Some z' →
  inv z' None.
Proof.
  revert z. induction l as [|f l IH]; intros z Hinv Hcf; simpl.
  { by intros [= <-]. }
  destruct Hcf as [Hadm Hrest].
  destruct (index_file now z f) as [z1|] eqn:E; [|done].
  apply IH; [|done]. by eapply index_file_inv.
Qed.

Lemma inv_empty_index now : inv (empty_index now) None.
Proof.
  split; simpl.
  - rewrite lookup_singleton_eq. eauto.
  - intros k p [<- <-]%lookup_singleton_Some. lia.
  - by intros k p d [<- <-]%lookup_singleton_Some.
  - by intros k1 k2 p [<- <-]%lookup_singleton_Some [<- _]%lookup_singleton_Some.
  - intros k f. by rewrite lookup_empty.
  - intros dk p d e [<- <-]%lookup_singleton_Some [= <-]. simpl.
    by intros ?%elem_of_nil.
  - intros dk p d [<- <-]%lookup_singleton_Some [= <-]. simpl. apply NoDup_nil_2.
Qed.

End TreeFacts.

Section ListingClaims.
Import bytes path.

(** Without colliding records no directory lists a name twice. *)
Lemma listing_NoDup_without_collisions now rs z key :
  collision_free now (empty_index now) rs → NewZipFS now rs = Some z →
  NoDup (child_names z key).
Proof.
  intros Hcf. rewrite NewZipFS_index_files.
  destruct (index_files now (empty_index now) rs) as [z1|] eqn:E; [|done].
  intros [= <-]. unfold child_names. simpl.
  destruct (dirs z1 !! key) as [p|] eqn:Hp; [|apply NoDup_nil_2].
  pose proof (index_files_inv _ _ _ _ (inv_empty_index now) Hcf E) as Hinv.
  pose proof (inv_bound _ _ Hinv _ _ Hp) as Hlt.
  apply lookup_lt_is_Some in Hlt as [d Hd].
  change (Name (with_reader rs z1) <$> live_entries (with_reader rs z1) p)
    with (Name z1 <$> live_entries z1 p).
  unfold live_entries. rewrite Hd. by eapply (inv_nodup _ _ Hinv).
Qed.

Example demo_records_collision_free :
  collision_free 0 (empty_index 0) demo_records.
Proof. apply (bool_decide_unpack _). vm_compute. reflexivity. Qed.

Example colliding_records :
  ¬ collision_free 0 (empty_index 0) [record "a/b.txt" "1"; record "a/" ""].
Proof. apply (bool_decide_eq_false_1 _). vm_compute. reflexivity. Qed.

(** C1, as amended: index construction succeeds on every list of records
    and removes no duplicate.  In the file map each path holds the last
    record of the list that is indexed as a file under this path, and
    every record indexed as a file has a child entry of its own: the file
    entries of all the directory objects are, up to their order, the
    records of the list indexed as files, a path as often as it occurs.
    A child list is free of duplicate names when no record collides with
    the index it meets: each record that is not dropped has a path in
    normal form that is not yet a path of the index, as a file or as an
    explicit or synthesized directory, and lies below no indexed file. *)
Theorem C1_no_deduplication (now : Z) (rs : list zip.File) :
  ∃ z, NewZipFS now rs = Some z
       ∧ (∀ key, files z !! key = last (filter (λ f, indexed_at key f) rs))
       ∧ file_entries z ≡ₚ filter (λ f, indexed_file f) rs
       ∧ (collision_free now (empty_index now) rs →
          ∀ key, NoDup (child_names z key)).
Proof.
  destruct (NewZipFS_total now rs) as (z0 & Hz0 & _).
  pose proof Hz0 as Hz. rewrite NewZipFS_index_files in Hz.
  destruct (index_files now (empty_index now) rs) as [z|] eqn:E; [|done].
  simpl in Hz. injection Hz as <-.
  exists (with_reader rs z). split; [done|]. split_and!.
  - intros key. simpl. rewrite (index_files_files _ _ _ _ key E).
    by destruct (last _).
  - change (file_entries (with_reader rs z)) with (file_entries z).
    by rewrite (index_files_file_entries _ _ _ _ E).
  - intros Hcf key. by eapply listing_NoDup_without_collisions.
Qed.

Lemma C1_witness :
  ∃ z, NewZipFS 0 demo_records = Some z ∧ NoDup (child_names z "x").
Proof.
  destruct (C1_no_deduplication 0 demo_records) as (z & Hz & _ & _ & Hnodup).
  exists z. split; [exact Hz|]. apply Hnodup.
  apply (bool_decide_unpack _). vm_compute. reflexivity.
Defined.

(** C1, as stated, fails: the records [a.txt] and [./a.txt] have the same
    path after normalization; the listing of the root shows the name
    [a.txt] twice and the file map holds the second record. *)
Lemma C1_counterexample :
  ∃ z, NewZipFS 0 [record "a.txt" "first"; record "./a.txt" "second"] = Some z
       ∧ child_names z "." = ["a.txt"; "a.txt"]
       ∧ ¬ NoDup (child_names z ".")
       ∧ files z !! "a.txt" = Some (record "./a.txt" "second")
       ∧ record "./a.txt" "second" ≠ record "a.txt" "first".
Proof.
  eexists. split; [vm_compute; reflexivity|].
  split; [vm_compute; reflexivity|]. split_and!.
  - intros Hnd. vm_compute in Hnd. apply NoDup_cons in Hnd as [Hin _].
    apply Hin. by left.
  - vm_compute. reflexivity.
  - discriminate.
Qed.

End ListingClaims.

Section ViewExamples.

Example demo_flat_heap : heap demo_flat = [demo_dir].
Proof. vm_compute. reflexivity. Qed.

Lemma demo_fs_eq : NewZipFS 0 [record "d/f.txt" "x"] = Some demo_fs.
Proof. vm_compute. reflexivity. Qed.

Lemma C3_witness :
  FS_Sub demo_fs [ {| parent := demo_fs; prefix := "d" |} ] (subFSRef 0) "."
  = Ret (fs.Ok (subFSRef 1),
         [ {| parent := demo_fs; prefix := "d" |};
           {| parent := demo_fs; prefix := "d" |} ]).
Proof.
  refine (proj1 (proj2 (C3_Sub_dot demo_fs
            [ {| parent := demo_fs; prefix := "d" |} ] 0
            {| parent := demo_fs; prefix := "d" |} eq_refl _))).
  split_and!; [reflexivity|discriminate|]. vm_compute. eauto.
Defined.

Lemma C4_witness :
  ∃ r, FS_Open demo_fs [ {| parent := demo_fs; prefix := "d" |} ] (subFSRef 0)
         "missing.txt" = Ret r
       ∧ same_open "missing.txt" r
           (ZipFS.Open demo_fs (path.Join "d" "missing.txt")).
Proof.
  apply (C4_subtree_roundtrip demo_fs [] _ "d" "missing.txt" (subFSRef 0));
    reflexivity.
Defined.

(** C3, as stated, fails for a sub-tree view: [Sub(".")] allocates a second
    wrapper. *)
Lemma C3_counterexample :
  ∃ z views,
    NewZipFS 0 [record "d/f.txt" "x"] = Some z
    ∧ ZipFS.Sub z [] "d" = (fs.Ok (subFSRef 0), views)
    ∧ FS_Sub z views (subFSRef 0) "."
      = Ret (fs.Ok (subFSRef 1), views ++ [ {| parent := z; prefix := "d" |} ])
    ∧ ¬ Sub_dot_returns_receiver z views (subFSRef 0).
Proof.
  exists demo_fs, [ {| parent := demo_fs; prefix := "d" |} ].
  split; [apply demo_fs_eq|]. split; [reflexivity|]. split; [reflexivity|].
  intros [views' H]. vm_compute in H. discriminate.
Qed.

End ViewExamples.

(** ** The sample indexes *)

Section SampleIndexes.

Lemma demo_tree_eq : NewZipFS 0 demo_records = Some demo_tree.
Proof. vm_compute. reflexivity. Qed.

Lemma late_dir_eq :
  NewZipFS 0 ([record "d/f.txt" "x"] ++ [record "d/" ""]) = Some late_dir.
Proof. vm_compute. reflexivity. Qed.

Lemma stamped_eq : NewZipFS 9 stamped_records = Some stamped.
Proof. vm_compute. reflexivity. Qed.

Lemma demo_view_ok : view_ok demo_view.
Proof. split_and!; [reflexivity|discriminate|]. vm_compute. eauto. Qed.

End SampleIndexes.

(** ** The directories of the index *)

Section IndexShape.
Import bytes path.

Lemma parents_mono n m k : n ≤ m → parents n k ⊆ parents m k.
Proof.
  revert m k. induction n as [|n IH]; intros m k Hnm a Ha.
  { by apply elem_of_nil in Ha. }
  destruct m as [|m]; [lia|]. cbn [parents] in *.
  apply elem_of_cons in Ha as [-> |Ha]; [left|right].
  apply (IH m); [lia|done].
Qed.

Lemma Dir_unrooted d : rooted d = false → rooted (Dir d) = false.
Proof.
  intros Hr. destruct (has_slash d) eqn:Hs; [by apply Dir_slash|by rewrite Dir_no_slash].
Qed.

Lemma populate_dirs_mono fuel now z d e z' k :
  populate fuel now z d e = Some z' →
  is_Some (dirs z !! k) → is_Some (dirs z' !! k).
Proof.
  revert z d e. induction fuel as [|n IH]; intros z d e; [done|]. cbn [populate].
  destruct (dirs z !! d) as [p|] eqn:Hd.
  - destruct (heap z !! p); [|done]. by intros [= <-].
  - intros H Hk. eapply IH; [done|]. cbn [dirs new_dir].
    destruct (decide (d = k)) as [-> |?].
    + rewrite lookup_insert_eq. eauto.
    + by rewrite lookup_insert_ne.
Qed.

Lemma populate_dirs_target fuel now z d e z' :
  populate fuel now z d e = Some z' → is_Some (dirs z' !! d).
Proof.
  destruct fuel as [|n]; [done|]. cbn [populate].
  destruct (dirs z !! d) as [p|] eqn:Hd.
  - destruct (heap z !! p); [|done]. intros [= <-]. cbn. rewrite Hd. eauto.
  - intros H. eapply populate_dirs_mono; [done|]. cbn [dirs new_dir].
    rewrite lookup_insert_eq. eauto.
Qed.

Lemma populate_dirs_sound fuel now z d e z' k :
  populate fuel now z d e = Some z' →
  is_Some (dirs z !! ".") → rooted d = false →
  is_Some (dirs z' !! k) →
  is_Some (dirs z !! k) ∨ k = d ∨ k ∈ parents (String.length d) d.
Proof.
  revert z d e. induction fuel as [|n IH]; intros z d e; [done|]. cbn [populate].
  destruct (dirs z !! d) as [p|] eqn:Hd.
  - destruct (heap z !! p); [|done]. intros [= <-]. cbn. eauto.
  - intros H Hroot Hr Hk.
    eapply IH in H; [|cbn [dirs new_dir]|by apply Dir_unrooted|done].
    2:{ rewrite lookup_insert_ne; [done|]. intros ->. rewrite Hd in Hroot. by destruct Hroot. }
    destruct H as [H|[H|H]].
    + cbn [dirs new_dir] in H. destruct (decide (d = k)) as [-> |?]; [eauto|].
      rewrite lookup_insert_ne in H by done. eauto.
    + destruct (has_slash d) eqn:Hs.
      * right; right. destruct d as [|c d]; [done|]. cbn [String.length parents]. subst k. left.
      * rewrite Dir_no_slash in H by done. subst k. eauto.
    + destruct (has_slash d) eqn:Hs.
      * right; right. pose proof (Dir_slash d Hr Hs) as [_ Hlen].
        destruct d as [|c d]; [done|]. cbn [String.length parents] in *. right.
        eapply parents_mono; [|done]. lia.
      * rewrite Dir_no_slash in H by done. cbn in H.
        apply list_elem_of_singleton in H. subst k. eauto.
Qed.

Lemma populate_dirs_closed fuel now z d e z' :
  populate fuel now z d e = Some z' →
  (∀ k, is_Some (dirs z !! k) → is_Some (dirs z !! Dir k) ∨ Dir k = d) →
  dirs_closed z'.
Proof.
  revert z d e. induction fuel as [|n IH]; intros z d e; [done|]. cbn [populate].
  destruct (dirs z !! d) as [p|] eqn:Hd.
  - destruct (heap z !! p); [|done]. intros [= <-] HQ k Hk. cbn in *.
    destruct (HQ k Hk) as [?| ->]; [done|]. rewrite Hd. eauto.
  - intros H HQ. eapply IH; [done|]. intros k. cbn [dirs new_dir].
    destruct (decide (d = k)) as [-> |Hne]; [by right|].
    rewrite lookup_insert_ne by done. intros Hk.
    destruct (HQ k Hk) as [?| ->].
    + left. destruct (decide (d = Dir k)) as [-> |?].
      * rewrite lookup_insert_eq. eauto.
      * by rewrite lookup_insert_ne.
    + left. rewrite lookup_insert_eq. eauto.
Qed.

Lemma parents_dirs_closed z n k :
  dirs_closed z → is_Some (dirs z !! Dir k) →
  ∀ a, a ∈ parents n k → is_Some (dirs z !! a).
Proof.
  intros Hc. revert k. induction n as [|n IH]; intros k Hk a Ha.
  { by apply elem_of_nil in Ha. }
  cbn [parents] in Ha. apply elem_of_cons in Ha as [-> |Ha]; [done|].
  eapply IH; [|done]. by apply Hc.
Qed.

Lemma closed_dirs_closed z : closed z → dirs_closed z.
Proof. by intros [? _]. Qed.

Lemma index_file_skip now z f z' :
  index_file now z f = Some z' → (indexed_file f || indexed_dir f) = false → z' = z.
Proof.
  unfold index_file, indexed_file, indexed_dir.
  case_decide as Hdot.
  { by intros [= <-]. }
  rewrite (bool_decide_eq_false_2 _ Hdot). cbn [negb andb].
  destruct (rooted _); [by intros [= <-]|]. cbn [negb andb].
  destruct (isDir f); cbn [negb andb orb].
  - case_decide as Hsz; [by intros [= <-]|].
    rewrite bool_decide_eq_true_2 by done. done.
  - done.
Qed.

Lemma ancestors_first k : k ≠ "" → Dir k ∈ ancestors k.
Proof. destruct k; [done|]. intros _. unfold ancestors. cbn. left. Qed.

Lemma ancestors_parents k :
  rooted k = false → k ≠ "" →
  ∀ a, a = Dir k ∨ a ∈ parents (String.length (Dir k)) (Dir k) → a = "." ∨ a ∈ ancestors k.
Proof.
  intros Hr Hne a [-> |Ha].
  { right. by apply ancestors_first. }
  destruct (has_slash k) eqn:Hs.
  - right. pose proof (Dir_slash k Hr Hs) as [_ Hlen].
    unfold ancestors. destruct k as [|c k]; [done|]. cbn [String.length parents] in *.
    right. eapply parents_mono; [|done]. lia.
  - rewrite Dir_no_slash in Ha by done. cbn in Ha.
    apply list_elem_of_singleton in Ha. by left.
Qed.

Lemma index_file_dirs now z f z' :
  index_file now z f = Some z' → closed z → is_Some (dirs z !! ".") →
  closed z'
  ∧ ∀ k, is_Some (dirs z' !! k) ↔ is_Some (dirs z !! k) ∨ adds_dir f k.
Proof.
  intros H Hc Hroot.
  destruct (indexed_file f || indexed_dir f) eqn:Hix.
  2:{ apply index_file_skip in H; [|done]. subst z'. split; [done|].
      intros k. split; [eauto|]. intros [?|[[Hd _]|[Hd _]]]; [done|..].
      - rewrite Hd, orb_true_r in Hix. done.
      - rewrite Hd in Hix. done. }
  revert H Hix. unfold index_file, adds_dir, indexed_file, indexed_dir.
  set (name := Clean (zip.Name f)).
  case_decide as Hdot.
  { rewrite (bool_decide_eq_true_2 _ Hdot). done. }
  rewrite (bool_decide_eq_false_2 _ Hdot). cbn [negb andb].
  destruct (rooted name) eqn:Hr; [done|]. cbn [negb andb].
  assert (name ≠ "") as Hne by apply Clean_nonempty.
  destruct (isDir f) eqn:Hdir; cbn [negb andb orb].
  - case_decide as Hsz; [rewrite bool_decide_eq_false_2 by done; done|].
    rewrite (bool_decide_eq_true_2 _ Hsz).
    intros H _.
    set (z1 := new_dir z name _) in H.
    assert (is_Some (dirs z1 !! ".")) as Hroot1.
    { cbn. by rewrite lookup_insert_ne. }
    assert (dirs_closed z') as Hc'.
    { eapply populate_dirs_closed; [done|]. intros k. cbn [dirs new_dir z1].
      destruct (decide (name = k)) as [<-|?]; [by right|].
      rewrite lookup_insert_ne by done. intros Hk. left.
      apply (proj1 Hc) in Hk. destruct (decide (name = Dir k)) as [<-|?].
      - rewrite lookup_insert_eq. eauto.
      - by rewrite lookup_insert_ne. }
    split.
    + split; [done|]. intros k Hk. erewrite populate_files in Hk by done.
      eapply populate_dirs_mono; [done|]. cbn [dirs files new_dir z1] in *.
      destruct Hc as [_ Hc]. apply Hc in Hk.
      destruct (decide (name = Dir k)) as [<-|?].
      * rewrite lookup_insert_eq. eauto.
      * by rewrite lookup_insert_ne.
    + intros k. split.
      * intros Hk. eapply populate_dirs_sound in Hk; [|done|done|by apply Dir_unrooted].
        destruct Hk as [Hk|Hk].
        -- cbn [dirs new_dir z1] in Hk. destruct (decide (name = k)) as [<-|?].
           ++ right. by left.
           ++ rewrite lookup_insert_ne in Hk by done. by left.
        -- destruct (ancestors_parents name Hr Hne k Hk) as [-> |Hk']; [by left|].
           right. by right.
      * intros [Hk|[[_ ->]|[_ Hk]]].
        -- eapply populate_dirs_mono; [done|]. cbn [dirs new_dir z1].
           destruct (decide (name = k)) as [<-|?].
           ++ rewrite lookup_insert_eq. eauto.
           ++ by rewrite lookup_insert_ne.
        -- eapply populate_dirs_mono; [done|]. cbn [dirs new_dir z1].
           rewrite lookup_insert_eq. eauto.
        -- eapply parents_dirs_closed; [done| |done].
           by eapply populate_dirs_target.
  - intros H _.
    set (z1 := set_file z name f) in H.
    assert (dirs_closed z') as Hc'.
    { eapply populate_dirs_closed; [done|]. intros k Hk. left. by apply (proj1 Hc). }
    split.
    + split; [done|]. intros k Hk. erewrite populate_files in Hk by done.
      cbn [files set_file z1] in Hk.
      destruct (decide (name = k)) as [<-|?].
      * by eapply populate_dirs_target.
      * rewrite lookup_insert_ne in Hk by done.
        eapply populate_dirs_mono; [done|]. cbn. by apply (proj2 Hc).
    + intros k. split.
      * intros Hk. eapply populate_dirs_sound in Hk; [|done|done|by apply Dir_unrooted].
        destruct Hk as [Hk|Hk]; [by left|].
        destruct (ancestors_parents name Hr Hne k Hk) as [-> |Hk']; [by left|].
        right. by right.
      * intros [Hk|[[? _]|[_ Hk]]]; [|done|].
        -- by eapply populate_dirs_mono.
        -- eapply parents_dirs_closed; [done| |done].
           by eapply populate_dirs_target.
Qed.

Lemma index_files_dirs now l z z' :
  index_files now z l = Some z' → closed z → is_Some (dirs z !! ".") →
  closed z'
  ∧ ∀ k, is_Some (dirs z' !! k)
         ↔ is_Some (dirs z !! k) ∨ ∃ f, f ∈ l ∧ adds_dir f k.
Proof.
  revert z. induction l as [|f l IH]; intros z; cbn [index_files].
  { intros [= <-] Hc _. split; [done|]. intros k. split; [eauto|].
    intros [?|(f & Hf & _)]; [done|]. by apply elem_of_nil in Hf. }
  destruct (index_file now z f) as [z1|] eqn:H1; [|done].
  intros H Hc Hroot.
  destruct (index_file_dirs _ _ _ _ H1 Hc Hroot) as [Hc1 Hd1].
  destruct (IH z1 H Hc1) as [Hc' Hd'].
  { apply Hd1. by left. }
  split; [done|]. intros k. rewrite Hd', Hd1. split.
  - intros [[?|?]|(g & Hg & ?)]; [by left|right..].
    + exists f. split; [left|done].
    + exists g. split; [by right|done].
  - intros [?|(g & Hg & ?)]; [by left; left|].
    apply elem_of_cons in Hg as [-> |Hg]; [by left; right|].
    right. eauto.
Qed.

Lemma closed_empty_index now : closed (empty_index now).
Proof.
  split; intros k; cbn.
  - intros [p Hp]. apply lookup_singleton_Some in Hp as [<- _].
    change (Dir ".") with ".". rewrite lookup_singleton_eq. eauto.
  - rewrite lookup_empty. by intros [? ?].
Qed.

Lemma NewZipFS_inv_index now rs z :
  NewZipFS now rs = Some z →
  ∃ z0, index_files now (empty_index now) rs = Some z0
        ∧ files z = files z0 ∧ dirs z = dirs z0 ∧ heap z = heap z0.
Proof.
  rewrite NewZipFS_index_files.
  destruct (index_files now (empty_index now) rs) as [z0|]; [|done].
  intros [= <-]. by exists z0.
Qed.

Lemma NewZipFS_dirs now rs z :
  NewZipFS now rs = Some z →
  (∀ k, is_Some (dirs z !! k) ↔ k = "." ∨ ∃ f, f ∈ rs ∧ adds_dir f k)
  ∧ closed z.
Proof.
  intros (z0 & H0 & Hf & Hd & _)%NewZipFS_inv_index.
  destruct (index_files_dirs _ _ _ _ H0 (closed_empty_index now)) as [Hc Hk].
  { cbn. rewrite lookup_singleton_eq. eauto. }
  split.
  - intros k. rewrite Hd, Hk. cbn. split.
    + intros [[p Hp]|?]; [|by right].
      apply lookup_singleton_Some in Hp as [<- _]. by left.
    + intros [-> |?]; [|by right]. left. rewrite lookup_singleton_eq. eauto.
  - destruct Hc as [Hc1 Hc2]. split; intros k; rewrite ?Hd, ?Hf; auto.
Qed.

(** X1: the directories of the index are the root, the paths of the
    directory records that are indexed, and every directory above the path
    of an indexed record, and nothing else; and every path of the index,
    file or directory, has its parent directory in the index.  This holds
    for every list of records. *)
Theorem X1_directories_of_the_index (now : Z) (rs : list zip.File) (z : ZipFS) :
  NewZipFS now rs = Some z →
  (∀ k, is_Some (dirs z !! k)
        ↔ k = "."
          ∨ ∃ f, f ∈ rs
                 ∧ ((indexed_dir f = true ∧ k = Clean (zip.Name f))
                    ∨ ((indexed_file f || indexed_dir f) = true
                       ∧ k ∈ ancestors (Clean (zip.Name f)))))
  ∧ (∀ k, is_Some (dirs z !! k) → is_Some (dirs z !! Dir k))
  ∧ (∀ k, is_Some (files z !! k) → is_Some (dirs z !! Dir k)).
Proof.
  intros Hz. destruct (NewZipFS_dirs _ _ _ Hz) as [Hk [Hc1 Hc2]].
  split_and!; [|done..]. intros k. apply Hk.
Qed.

Lemma X1_witness :
  is_Some (dirs demo_tree !! "x/y")
  ∧ is_Some (dirs demo_tree !! path.Dir "x/w.txt").
Proof.
  destruct (X1_directories_of_the_index 0 demo_records demo_tree demo_tree_eq)
    as (Hk & _ & Hf).
  split.
  - apply Hk. right. exists (record "x/y/z.txt" "z").
    split; [|right; split; [reflexivity|]].
    + apply list_elem_of_In. simpl. tauto.
    + apply list_elem_of_In. vm_compute. tauto.
  - apply Hf. vm_compute. eauto.
Defined.

End IndexShape.

(** ** Parent directories and the information of a directory *)

Section Utf8Facts.
Import bytes path.

Lemma ValidString_prefix_aux n a b :
  String.length a ≤ n →
  utf8.ValidString (a +:+ String slash b) = true → utf8.ValidString a = true.
Proof.
  assert (∀ x y : bool, (if x then false else if y then false else false) = false)
    as Hif by (by intros [] []).
  revert a. induction n as [|n IH]; intros a Hn.
  { destruct a; [done|]. simpl in Hn. lia. }
  destruct a as [|c0 a]; [done|].
  cbn [String.append utf8.ValidString].
  destruct (utf8.byte_in 0 127 c0).
  { apply IH. simpl in Hn. lia. }
  destruct (utf8.byte_in 194 223 c0).
  { destruct a as [|c1 a]; [done|]. cbn [String.append].
    intros [-> Ha]%andb_true_iff. simpl in Hn. apply IH in Ha; [done|lia]. }
  destruct (utf8.byte_in 224 239 c0).
  { destruct a as [|c1 [|c2 a]]; cbn [String.append].
    - destruct b; [done|].
      change (utf8.byte_in 160 191 slash) with false.
      change (utf8.byte_in 128 159 slash) with false.
      change (utf8.cont slash) with false. by rewrite Hif.
    - change (utf8.cont slash) with false. by rewrite andb_false_r.
    - intros [-> Ha]%andb_true_iff. simpl in Hn. apply IH in Ha; [done|lia]. }
  destruct (utf8.byte_in 240 244 c0); [|done].
  destruct a as [|c1 [|c2 [|c3 a]]]; cbn [String.append].
  - destruct b as [|? [|? ?]]; [done..|].
    change (utf8.byte_in 144 191 slash) with false.
    change (utf8.byte_in 128 143 slash) with false.
    change (utf8.cont slash) with false. by rewrite Hif.
  - destruct b; [done|].
    change (utf8.cont slash) with false. by rewrite andb_false_r.
  - change (utf8.cont slash) with false. by rewrite andb_false_r.
  - intros [-> Ha]%andb_true_iff. simpl in Hn. apply IH in Ha; [done|lia].
Qed.

Lemma ValidString_prefix a b :
  utf8.ValidString (a +:+ String slash b) = true → utf8.ValidString a = true.
Proof. by apply (ValidString_prefix_aux (String.length a)). Qed.

Lemma ValidPath_Dir k : fs.ValidPath k = true → fs.ValidPath (Dir k) = true.
Proof.
  intros Hk. destruct (decide (k = ".")) as [-> |Hne]; [done|].
  pose proof (ValidPath_elems k Hk Hne) as Hg.
  destruct (decide (Dir k = ".")) as [-> |Hd]; [done|].
  destruct (Dir_good_path k Hg) as [?|Hgd]; [done|].
  apply ValidPath_intro; [|done].
  destruct (Dir_prefix k Hg Hd) as [b Hb].
  apply ValidPath_utf8 in Hk. rewrite Hb in Hk. by apply ValidString_prefix in Hk.
Qed.

End Utf8Facts.

Section DirectoryObjects.
Import bytes path.

Lemma meta_new_dir T z key t ents :
  (∀ k p, k ≠ key → dirs z !! k = Some p →
     ∃ d, heap z !! p = Some d ∧ name d = Base k ∧ modTime d = T k) →
  T key = t →
  dir_meta T (new_dir z key {| name := Base key; modTime := t; entries := ents |}).
Proof.
  intros Hm Ht k p. cbn [dirs heap new_dir].
  destruct (decide (key = k)) as [<-|Hne].
  - rewrite lookup_insert_eq. intros [= <-]. eexists. split.
    + by apply list_lookup_middle.
    + done.
  - rewrite lookup_insert_ne by done. intros (d & Hd & ?)%Hm; [|done].
    exists d. split; [|done]. by apply lookup_app_l_Some.
Qed.

Lemma populate_meta T fuel now z d e z' :
  populate fuel now z d e = Some z' →
  dir_meta T z → (∀ k, dirs z !! k = None → T k = now) → dir_meta T z'.
Proof.
  revert z d e. induction fuel as [|n IH]; intros z d e; [done|]. cbn [populate].
  destruct (dirs z !! d) as [p|] eqn:Hd.
  - destruct (heap z !! p) as [parent|] eqn:Hp; [|done]. intros [= <-] Hm _ k q Hk.
    cbn [dirs heap with_heap] in *. destruct (Hm k q Hk) as (d0 & Hd0 & Hn & Ht).
    destruct (decide (q = p)) as [-> |Hne].
    + rewrite list_lookup_insert_eq by (by eapply lookup_lt_Some).
      eexists. split; [done|]. rewrite Hp in Hd0. injection Hd0 as <-. done.
    + rewrite list_lookup_insert_ne by done. eauto.
  - intros H Hm Hnew. eapply IH; [done| |].
    + apply meta_new_dir; [|by apply Hnew]. intros k p _. apply Hm.
    + intros k. cbn [dirs new_dir]. destruct (decide (d = k)) as [<-|Hne].
      * by rewrite lookup_insert_eq.
      * rewrite lookup_insert_ne by done. apply Hnew.
Qed.

Lemma indexed_dir_at_skip f k :
  (indexed_file f || indexed_dir f) = false → indexed_dir_at k f = false.
Proof. unfold indexed_dir_at. intros [_ ->]%orb_false_iff. done. Qed.

Lemma index_file_meta T now z f z' :
  index_file now z f = Some z' →
  dir_meta T z → (∀ k, dirs z !! k = None → T k = now) →
  let T' := λ k, if indexed_dir_at k f then zip.ModTime f else T k in
  dir_meta T' z' ∧ (∀ k, dirs z' !! k = None → T' k = now).
Proof.
  intros H Hm Hnew T'.
  destruct (indexed_file f || indexed_dir f) eqn:Hix.
  2:{ apply index_file_skip in H; [|done]. subst z'. unfold T'.
      split.
      - intros k p Hk. rewrite indexed_dir_at_skip by done. by apply Hm.
      - intros k Hk. rewrite indexed_dir_at_skip by done. by apply Hnew. }
  revert H Hix T'. unfold index_file, indexed_dir_at, indexed_file, indexed_dir.
  set (name := Clean (zip.Name f)).
  case_decide as Hdot.
  { rewrite (bool_decide_eq_true_2 _ Hdot). done. }
  rewrite (bool_decide_eq_false_2 _ Hdot). cbn [negb andb].
  destruct (rooted name) eqn:Hr; [done|]. cbn [negb andb].
  destruct (isDir f) eqn:Hdir; cbn [negb andb orb].
  - case_decide as Hsz; [rewrite bool_decide_eq_false_2 by done; done|].
    rewrite (bool_decide_eq_true_2 _ Hsz). cbn [andb].
    intros H _.
    set (T' := λ k : string, if bool_decide (name = k) then zip.ModTime f else T k).
    change (dir_meta T' z' ∧ ∀ k, dirs z' !! k = None → T' k = now).
    assert (∀ k, dirs z' !! k = None → T' k = now) as Hnew'.
    { intros k Hk. unfold T'.
      destruct (decide (name = k)) as [<-|Hne].
      - exfalso. assert (is_Some (dirs z' !! name)) as [? ?]; [|congruence].
        eapply populate_dirs_mono; [done|]. cbn. rewrite lookup_insert_eq. eauto.
      - rewrite bool_decide_eq_false_2 by done. apply Hnew.
        destruct (dirs z !! k) eqn:E; [|done].
        assert (is_Some (dirs z' !! k)) as [? ?]; [|congruence].
        eapply populate_dirs_mono; [done|]. cbn. rewrite lookup_insert_ne by done.
        rewrite E. eauto. }
    split; [|done].
    eapply populate_meta; [done| |].
    + apply meta_new_dir.
      * intros k p Hne Hk. destruct (Hm k p Hk) as (d & ? & ? & Ht). exists d.
        split_and!; [done..|]. unfold T'. by rewrite bool_decide_eq_false_2.
      * unfold T'. by rewrite bool_decide_eq_true_2.
    + intros k. cbn [dirs new_dir]. destruct (decide (name = k)) as [<-|Hne].
      * by rewrite lookup_insert_eq.
      * rewrite lookup_insert_ne by done. intros Hk. unfold T'.
        rewrite bool_decide_eq_false_2 by done. by apply Hnew.
  - intros H _. split.
    + eapply populate_meta; [done|..]; done.
    + intros k Hk. apply Hnew. destruct (dirs z !! k) eqn:E; [|done].
      assert (is_Some (dirs z' !! k)) as [? ?]; [|congruence].
      eapply populate_dirs_mono; [done|]. cbn. rewrite E. eauto.
Qed.

End DirectoryObjects.

Section OpenedDirectories.
Import bytes path.

Lemma meta_ext T T' z : (∀ k, T k = T' k) → dir_meta T z → dir_meta T' z.
Proof.
  intros HT Hm k p Hk. destruct (Hm k p Hk) as (d & ? & ? & ?).
  exists d. by rewrite <- HT.
Qed.

Lemma index_files_meta now l T z z' :
  index_files now z l = Some z' →
  dir_meta T z → (∀ k, dirs z !! k = None → T k = now) →
  dir_meta (λ k, match last (filter (λ f, indexed_dir_at k f) l) with
             | Some f => zip.ModTime f
             | None => T k
             end) z'.
Proof.
  revert T z. induction l as [|f l IH]; intros T z; cbn [index_files].
  { intros [= <-] Hm _. done. }
  destruct (index_file now z f) as [z1|] eqn:E; [|done].
  intros Hl Hm Hnew.
  destruct (index_file_meta T now z f z1 E Hm Hnew) as [Hm1 Hnew1].
  specialize (IH _ _ Hl Hm1 Hnew1). revert IH. apply meta_ext. intros k.
  rewrite filter_cons. destruct (decide (indexed_dir_at k f)) as [Hk|Hk].
  - rewrite last_cons. destruct (last _); [done|].
    apply Is_true_true in Hk. by rewrite Hk.
  - destruct (last _); [done|]. apply Is_true_false in Hk. by rewrite Hk.
Qed.

Lemma NewZipFS_meta now rs z :
  NewZipFS now rs = Some z → dir_meta (dir_time now rs) z.
Proof.
  intros (z0 & H0 & _ & Hd & Hh)%NewZipFS_inv_index.
  assert (dir_meta (dir_time now rs) z0) as Hm.
  { apply (index_files_meta now rs (λ _, now) _ _ H0); [|done].
    intros k p. cbn. intros [<- <-]%lookup_singleton_Some. by eexists. }
  intros k p. rewrite Hd, Hh. apply Hm.
Qed.

Lemma Open_dir_inv z k d :
  ZipFS.Open z k = fs.Ok (dirFile d) →
  fs.ValidPath k = true ∧ dirs z !! k = Some (info d) ∧ path d = k ∧ pos d = 0%Z.
Proof.
  destruct (fs.ValidPath k) eqn:Hv.
  2:{ unfold ZipFS.Open. by rewrite Hv. }
  rewrite Open_valid by done. destruct (dirs z !! k) as [p|].
  - by intros [= <-].
  - by destruct (files z !! k).
Qed.

Lemma Open_file_inv z k r :
  ZipFS.Open z k = fs.Ok (regFile r) →
  fs.ValidPath k = true ∧ dirs z !! k = None ∧ files z !! k = Some (file r)
  ∧ rc r = None.
Proof.
  destruct (fs.ValidPath k) eqn:Hv.
  2:{ unfold ZipFS.Open. by rewrite Hv. }
  rewrite Open_valid by done. destruct (dirs z !! k) as [p|]; [done|].
  destruct (files z !! k); [|done]. by intros [= <-].
Qed.

Lemma Open_failed_inv z k err :
  ZipFS.Open z k = fs.Failed err →
  (fs.ValidPath k = false ∧ err = fs.PathError "open" k fs.ErrInvalid)
  ∨ (fs.ValidPath k = true ∧ dirs z !! k = None ∧ files z !! k = None
     ∧ err = fs.PathError "open" k fs.ErrNotExist).
Proof.
  destruct (fs.ValidPath k) eqn:Hv.
  2:{ unfold ZipFS.Open. rewrite Hv. intros [= <-]. by left. }
  rewrite Open_valid by done. destruct (dirs z !! k) as [p|]; [done|].
  destruct (files z !! k); [done|]. intros [= <-]. by right.
Qed.

Lemma dir_time_root now rs : dir_time now rs "." = now.
Proof.
  unfold dir_time. replace (filter _ rs) with (@nil zip.File); [done|].
  symmetry. induction rs as [|f rs IH]; [done|].
  rewrite filter_cons, decide_False; [done|].
  unfold indexed_dir_at, indexed_dir. intros H.
  apply andb_prop_elim in H as [H Hk]. apply bool_decide_unpack in Hk.
  rewrite (bool_decide_eq_true_2 _ Hk) in H. done.
Qed.

(** X2: for every archive, the directory reader that [Open] returns for
    the path [k] has the information of the directory object as its
    [Stat]; the name of this object is the last element of [k] and its
    time stamp is the one of the last directory record indexed under [k],
    or the time of the build when there is none (synthesized directories
    and the root). *)
Theorem X2_directory_stat (now : Z) (rs : list zip.File) (z : ZipFS)
    (k : string) (d : dirReader) :
  NewZipFS now rs = Some z → ZipFS.Open z k = fs.Ok (dirFile d) →
  Stat (dirFile d) = dirInfoPtr (info d)
  ∧ dirInfo.Name z (info d) = Base k
  ∧ dirInfo_ModTime z (info d) = dir_time now rs k
  ∧ (k = "." → dirInfo_ModTime z (info d) = now).
Proof.
  intros Hz (Hv & Hk & _)%Open_dir_inv.
  destruct (NewZipFS_meta _ _ _ Hz k _ Hk) as (i & Hi & Hn & Ht).
  unfold dirInfo.Name, dirInfo_ModTime. rewrite Hi.
  split_and!; [done..|]. intros ->. rewrite Ht. apply dir_time_root.
Qed.

Lemma X2_witness :
  dirInfo.Name stamped 2 = "e" ∧ dirInfo_ModTime stamped 2 = 9%Z
  ∧ dirInfo.Name stamped 1 = "d" ∧ dirInfo_ModTime stamped 1 = 5%Z.
Proof.
  destruct (X2_directory_stat 9 stamped_records stamped "d/e"
              {| info := 2; path := "d/e"; pos := 0 |} stamped_eq)
    as (_ & Hn & Ht & _); [vm_compute; reflexivity|].
  destruct (X2_directory_stat 9 stamped_records stamped "d"
              {| info := 1; path := "d"; pos := 0 |} stamped_eq)
    as (_ & Hn' & Ht' & _); [vm_compute; reflexivity|].
  split_and!.
  - exact Hn.
  - etrans; [exact Ht|]. vm_compute. reflexivity.
  - exact Hn'.
  - etrans; [exact Ht'|]. vm_compute. reflexivity.
Defined.

(** X3: for every archive, when [Open] succeeds on a path, it also
    succeeds on the parent of this path ([path.Dir]) and returns a reader
    on a directory object that exists: directories that no record names
    are synthesized. *)
Theorem X3_parent_directory_opens (now : Z) (rs : list zip.File) (z : ZipFS)
    (k : string) (f : File) :
  NewZipFS now rs = Some z → ZipFS.Open z k = fs.Ok f →
  ∃ p i, ZipFS.Open z (Dir k)
         = fs.Ok (dirFile {| info := p; path := Dir k; pos := 0 |})
         ∧ heap z !! p = Some i.
Proof.
  intros Hz Ho.
  destruct (NewZipFS_dirs _ _ _ Hz) as [_ [Hc1 Hc2]].
  assert (fs.ValidPath k = true
          ∧ (is_Some (dirs z !! k) ∨ is_Some (files z !! k))) as [Hv Hk].
  { destruct f as [d|r].
    - apply Open_dir_inv in Ho as (? & ? & _). eauto.
    - apply Open_file_inv in Ho as (? & _ & ? & _). eauto. }
  assert (is_Some (dirs z !! Dir k)) as [p Hp].
  { destruct Hk; auto. }
  destruct (NewZipFS_meta _ _ _ Hz _ _ Hp) as (i & Hi & _).
  exists p, i. split; [|done].
  rewrite Open_valid by by apply ValidPath_Dir. by rewrite Hp.
Qed.

Lemma X3_witness :
  ∃ p i, ZipFS.Open demo_tree (path.Dir "x/y/z.txt")
         = fs.Ok (dirFile {| info := p; path := path.Dir "x/y/z.txt"; pos := 0 |})
         ∧ heap demo_tree !! p = Some i.
Proof.
  apply (X3_parent_directory_opens 0 demo_records demo_tree "x/y/z.txt"
           (regFile {| file := record "x/y/z.txt" "z"; rc := None |})
           demo_tree_eq).
  vm_compute. reflexivity.
Defined.

(** X4: [ZipFS.ReadDir] succeeds exactly on the paths that [Open] opens
    as a directory.  On such a path, reading everything from the reader of
    [Open] gives the child list of the directory, and [ZipFS.ReadDir] gives
    the same entries in ascending order of their names (in which order
    entries of one name come is left to the sort).  On a path that [Open]
    opens as a
    file, and on a path that [Open] refuses, [ZipFS.ReadDir] fails with
    the kind of error of [Open] (not-exist for a file) and the path it was
    given. *)
Theorem X4_Open_and_ReadDir_agree (now : Z) (rs : list zip.File) (z : ZipFS)
    (k : string) (cs : list (list DirEntry)) :
  NewZipFS now rs = Some z →
  (∀ d, ZipFS.Open z k = fs.Ok (dirFile d) →
     ∃ s d' s2 cs',
       dirReader.ReadDir z d 0 = Ret (fs.Ok s, d')
       ∧ elems z cs s = live_entries z (info d)
       ∧ ZipFS.ReadDir z cs k = (fs.Ok s2, cs')
       ∧ sorted_by_name z (elems z cs' s2)
       ∧ elems z cs' s2 ≡ₚ elems z cs s)
  ∧ (∀ r, ZipFS.Open z k = fs.Ok (regFile r) →
       ZipFS.ReadDir z cs k
       = (fs.Failed (fs.PathError "readdir" k fs.ErrNotExist), cs))
  ∧ (∀ op p e, ZipFS.Open z k = fs.Failed (fs.PathError op p e) →
       ZipFS.ReadDir z cs k = (fs.Failed (fs.PathError "readdir" k e), cs)).
Proof.
  intros Hz. split_and!.
  - intros d (Hv & Hk & Hpath & Hpos)%Open_dir_inv.
    destruct (NewZipFS_meta _ _ _ Hz _ _ Hk) as (i & Hi & _).
    destruct (ReadDir_all z d i 0 Hi) as (s & Hs & He); [lia|rewrite Hpos; lia|].
    destruct (ReadDir_Ok z cs k _ Hv Hk) as (s2 & cs' & H2 & He2 & _).
    assert (elems z cs s = live_entries z (info d)) as Hl.
    { rewrite He, Hpos. unfold live_entries. by rewrite Hi. }
    exists s, (dirReader.with_pos d (Z.of_nat (length (entries i)))), s2, cs'.
    split_and!; [done..| |].
    + rewrite He2. apply SortFunc_by_name_sorted.
    + rewrite He2, Hl. apply SortFunc_Permutation.
  - intros r (Hv & Hk & _)%Open_file_inv. unfold ZipFS.ReadDir.
    rewrite Hv. cbn [negb]. rewrite ValidPath_Clean by done. by rewrite Hk.
  - intros op p e [[Hv [= -> -> ->]]|(Hv & Hk & _ & [= -> -> ->])]%Open_failed_inv;
      unfold ZipFS.ReadDir; rewrite Hv; cbn [negb]; [done|].
    rewrite ValidPath_Clean by done. by rewrite Hk.
Qed.

Lemma X4_witness :
  (∃ s d' s2 cs',
     dirReader.ReadDir demo_tree {| info := 3; path := "x"; pos := 0 |} 0
     = Ret (fs.Ok s, d')
     ∧ elems demo_tree [] s = live_entries demo_tree 3
     ∧ ZipFS.ReadDir demo_tree [] "x" = (fs.Ok s2, cs')
     ∧ sorted_by_name demo_tree (elems demo_tree cs' s2)
     ∧ elems demo_tree cs' s2 ≡ₚ elems demo_tree [] s)
  ∧ ZipFS.ReadDir demo_tree [] "a.txt"
    = (fs.Failed (fs.PathError "readdir" "a.txt" fs.ErrNotExist), []).
Proof.
  split.
  - destruct (X4_Open_and_ReadDir_agree 0 demo_records demo_tree "x" []
                demo_tree_eq) as (Hd & _ & _).
    apply (Hd {| info := 3; path := "x"; pos := 0 |}). vm_compute. reflexivity.
  - destruct (X4_Open_and_ReadDir_agree 0 demo_records demo_tree "a.txt" []
                demo_tree_eq) as (_ & Hf & _).
    apply (Hf {| file := record "a.txt" "A"; rc := None |}). vm_compute. reflexivity.
Defined.

End OpenedDirectories.

(** ** Archives without colliding records: the index is a tree *)

Section TreeShape.
Import bytes path.

Lemma Dir_shorter k : good_path k → Dir k ≠ k.
Proof.
  intros Hk Heq. destruct (decide (Dir k = ".")) as [Hd|Hd].
  - rewrite Hd in Heq. subst k. by apply good_path_not_dot in Hk.
  - destruct (Dir_prefix k Hk Hd) as [b Hb]. rewrite Heq in Hb.
    apply (f_equal String.length) in Hb. rewrite length_append in Hb.
    simpl in Hb. lia.
Qed.

Lemma path_of_unique z e1 e2 k :
  exclusive z → path_of z e1 k → path_of z e2 k → e1 = e2.
Proof.
  intros Hdj. destruct e1 as [f1|q1], e2 as [f2|q2]; simpl; intros H1 H2.
  - congruence.
  - rewrite Hdj in H2 by eauto. done.
  - rewrite Hdj in H1 by eauto. done.
  - congruence.
Qed.

Lemma listed_new_dir z pend k dk t e :
  inv z (Some k) → exclusive z → listed z (Some k) →
  path_of z e k → path.Dir k = dk → k ≠ "." →
  dirs z !! dk = None → files z !! dk = None →
  let z1 := new_dir z dk {| name := Base dk; modTime := t; entries := [e] |} in
  pend = Some dk → exclusive z1 ∧ listed z1 pend.
Proof.
  intros Hinv Hdj Hl He Hdk Hkdot Hnd Hnf z1 ->. split.
  - intros k0 Hk0. cbn [dirs files new_dir z1] in *.
    rewrite lookup_insert_ne; [by apply Hdj|]. intros <-.
    rewrite Hnf in Hk0. by destruct Hk0.
  - intros e0 k0 He0 Hk0 Hpend.
    assert (k0 ≠ dk) as Hne by congruence.
    assert (path_of z e0 k0) as He0'.
    { destruct e0; cbn in *; [done|]. by rewrite lookup_insert_ne in He0. }
    destruct (decide (k0 = k)) as [-> |Hnk].
    + rewrite (path_of_unique z e0 e k Hdj He0' He).
      exists (length (heap z)), {| name := Base dk; modTime := t; entries := [e] |}.
      cbn [dirs heap new_dir z1]. rewrite Hdk, lookup_insert_eq.
      split_and!; [done| |by left]. by apply list_lookup_middle.
    + destruct (Hl e0 k0 He0' Hk0) as (p & d & Hp & Hd & Hin); [congruence|].
      exists p, d. cbn [dirs heap new_dir z1]. split_and!; [|by apply lookup_app_l_Some|done].
      rewrite lookup_insert_ne; [done|]. intros Heq. rewrite <- Heq in Hp. congruence.
Qed.

Lemma listed_append z k e p parent :
  exclusive z → listed z (Some k) → path_of z e k →
  dirs z !! path.Dir k = Some p → heap z !! p = Some parent →
  listed (with_heap z (<[p := append_entry e parent]> (heap z))) None.
Proof.
  intros Hdj Hl He Hp Hparent e0 k0 He0 Hk0 _.
  assert (path_of z e0 k0) as He0' by (by destruct e0).
  cbn [dirs heap with_heap].
  destruct (decide (k0 = k)) as [-> |Hnk].
  - rewrite (path_of_unique z e0 e k Hdj He0' He).
    exists p, (append_entry e parent). split_and!; [done| |].
    + apply list_lookup_insert_eq. by eapply lookup_lt_Some.
    + cbn. apply elem_of_app. right. by left.
  - destruct (Hl e0 k0 He0' Hk0) as (p0 & d & Hp0 & Hd & Hin); [congruence|].
    destruct (decide (p0 = p)) as [-> |Hpp].
    + exists p, (append_entry e parent). split_and!; [done| |].
      * apply list_lookup_insert_eq. by eapply lookup_lt_Some.
      * cbn. apply elem_of_app. left. congruence.
    + exists p0, d. split_and!; [done| |done]. by rewrite list_lookup_insert_ne.
Qed.

Lemma populate_listed fuel now z k e z' :
  inv z (Some k) → exclusive z → listed z (Some k) →
  good_path k → path_of z e k → ¬ under_file z k →
  populate fuel now z (Dir k) e = Some z' → exclusive z' ∧ listed z' None.
Proof.
  revert z k e z'. induction fuel as [|n IH]; intros z k e z' Hinv Hdj Hl Hk He Hu; [done|].
  cbn [populate]. destruct (dirs z !! Dir k) as [p|] eqn:Hp.
  - pose proof (inv_bound _ _ Hinv _ _ Hp) as Hlt.
    apply lookup_lt_is_Some in Hlt as [parent Hparent]. rewrite Hparent.
    intros [= <-]. split; [done|]. by eapply listed_append.
  - assert (Dir k ≠ ".") as Hdot.
    { intros Heq. rewrite Heq in Hp. destruct (inv_root _ _ Hinv). congruence. }
    assert (good_path (Dir k)) as Hg by by destruct (Dir_good_path k Hk).
    destruct (under_file_Dir z k Hk Hdot Hu) as [Hnf Hu'].
    destruct (listed_new_dir z (Some (Dir k)) k (Dir k) now e) as [Hdj1 Hl1];
      try done.
    { by apply good_path_not_dot. }
    apply IH; [|done|done|done| |done].
    + apply (inv_new_dir z (Some k)); try done.
      * intros e0 ->%list_elem_of_singleton. by exists k.
      * apply NoDup_singleton.
    + simpl. by rewrite lookup_insert_eq.
Qed.

Lemma index_file_listed now z f z' :
  inv z None → exclusive z → listed z None → admissible z f →
  index_file now z f = Some z' → exclusive z' ∧ listed z' None.
Proof.
  intros Hinv Hdj Hl Hadm. unfold index_file. unfold admissible in Hadm.
  set (k := Clean (zip.Name f)) in *.
  case_decide as Hdot; [by intros [= <-]|].
  destruct (rooted k) eqn:Hr; [by intros [= <-]|].
  destruct Hadm as [?|[?|[[Hd Hs]|(Hk & Hnd & Hnf & Hu & Hname)]]]; [done..| |].
  { rewrite Hd. rewrite decide_True by done. by intros [= <-]. }
  destruct (isDir f).
  - case_decide; [by intros [= <-]|].
    apply populate_listed; [| | |done| |done].
    + apply (inv_new_dir z None); try done.
      * by intros e ?%elem_of_nil.
      * apply NoDup_nil_2.
    + intros k0 Hk0. cbn [dirs files new_dir] in *.
      rewrite lookup_insert_ne; [by apply Hdj|]. intros <-.
      rewrite Hnf in Hk0. by destruct Hk0.
    + intros e0 k0 He0 Hk0 Hpend.
      assert (k0 ≠ k) as Hne by congruence.
      assert (path_of z e0 k0) as He0'.
      { destruct e0; cbn in *; [done|]. by rewrite lookup_insert_ne in He0. }
      destruct (Hl e0 k0 He0' Hk0) as (p & d & Hp & Hd & Hin); [done|].
      exists p, d. cbn [dirs heap new_dir].
      split_and!; [|by apply lookup_app_l_Some|done].
      rewrite lookup_insert_ne; [done|]. intros Heq. rewrite <- Heq in Hp. congruence.
    + simpl. by rewrite lookup_insert_eq.
  - apply populate_listed; [| | |done| |].
    + apply inv_set_file; auto.
    + intros k0 Hk0. cbn [dirs files set_file] in *.
      destruct (decide (k = k0)) as [<-|Hne]; [done|].
      rewrite lookup_insert_ne in Hk0 by done. by apply Hdj.
    + intros e0 k0 He0 Hk0 Hpend.
      assert (k0 ≠ k) as Hne by congruence.
      assert (path_of z e0 k0) as He0'.
      { destruct e0; cbn in *; [|done]. by rewrite lookup_insert_ne in He0. }
      destruct (Hl e0 k0 He0' Hk0) as (p & d & Hp & Hd & Hin); [done|].
      by exists p, d.
    + simpl. by rewrite lookup_insert_eq.
    + intros (a & g & Ha & Hpre). simpl in Ha.
      destruct (decide (k = a)) as [<-|Hne].
      * by rewrite HasPrefix_self_longer in Hpre.
      * rewrite lookup_insert_ne in Ha by done. apply Hu. by exists a, g.
Qed.

Lemma index_files_listed now l z z' :
  inv z None → exclusive z → listed z None → collision_free now z l →
  index_files now z l = Some z' → inv z' None ∧ exclusive z' ∧ listed z' None.
Proof.
  revert z. induction l as [|f l IH]; intros z Hinv Hdj Hl Hcf; simpl.
  { by intros [= <-]. }
  destruct Hcf as [Hadm Hrest].
  destruct (index_file now z f) as [z1|] eqn:E; [|done].
  destruct (index_file_listed _ _ _ _ Hinv Hdj Hl Hadm E) as [Hdj1 Hl1].
  apply IH; [|done..]. by eapply index_file_inv.
Qed.

Lemma NewZipFS_tree now rs z :
  collision_free now (empty_index now) rs → NewZipFS now rs = Some z →
  inv z None ∧ exclusive z ∧ listed z None.
Proof.
  intros Hcf. rewrite NewZipFS_index_files.
  destruct (index_files now (empty_index now) rs) as [z1|] eqn:E; [|done].
  intros [= <-].
  assert (exclusive (empty_index now)) as Hdj0.
  { intros k. cbn. rewrite lookup_empty. by intros [? ?]. }
  assert (listed (empty_index now) None) as Hl0.
  { intros [g|q] k; cbn.
    - by rewrite lookup_empty.
    - by intros [<- _]%lookup_singleton_Some. }
  destruct (index_files_listed _ _ _ _ (inv_empty_index now) Hdj0 Hl0 Hcf E)
    as (Hinv & Hdj & Hl).
  split_and!; [|done..]. destruct Hinv. by split.
Qed.

End TreeShape.

(** ** Listings and [Open] *)

Section Listings.
Import bytes path.

Lemma good_path_Dir_Base k :
  good_path k →
  good_elem (Base k)
  ∧ k = if decide (Dir k = ".") then Base k else Dir k +:+ String slash (Base k).
Proof.
  intros Hk. destruct (good_path_decompose k Hk) as (l & b & Hs & Hl & Hb & Hbs & Hls).
  rewrite (Base_good k l b Hk Hs), (Dir_good k l b Hk Hs).
  split; [done|]. pose proof (join_split k) as Hj. rewrite Hs in Hj.
  destruct l as [|x l].
  - by rewrite decide_True.
  - rewrite join_snoc in Hj by done.
    rewrite decide_False; [done|].
    apply good_path_not_dot. apply good_path_join; [done..|].
    done.
Qed.

Lemma Join_Dir_Base k : good_path k → Join (Dir k) (Base k) = k.
Proof.
  intros Hk. destruct (good_path_Dir_Base k Hk) as [Hb Heq].
  assert (Clean k = k) as Hc by by apply Clean_good.
  unfold Join. pose proof (Clean_nonempty (Split k).1) as Hd. fold (Dir k) in Hd.
  destruct (Dir k) as [|c d] eqn:Ed; [done|].
  destruct (Base k) as [|c' b] eqn:Eb; [by destruct Hb|].
  case_decide as Hdot.
  - rewrite Hdot. rewrite Clean_dot_slash; [done|]. rewrite <- Heq. done.
  - by rewrite <- Heq.
Qed.

Lemma ValidString_path dk name :
  fs.ValidPath dk = true →
  utf8.ValidString (dk +:+ String slash name) = utf8.ValidString name.
Proof.
  intros Hdk. rewrite ValidString_app by by apply ValidPath_utf8. done.
Qed.

(** X5: in an archive without colliding records, every entry of the child
    list of a directory opens under the path of the directory joined with
    the name of the entry, as the very object that the entry stands for (a
    file entry as its record, a directory entry as its directory object),
    provided that the name is valid UTF-8; an entry whose name is not valid
    UTF-8 is listed, and [Open] refuses its path as invalid. *)
Theorem X5_listed_entries_open (now : Z) (rs : list zip.File) (z : ZipFS)
    (dk : string) (d : dirReader) (e : DirEntry) :
  collision_free now (empty_index now) rs → NewZipFS now rs = Some z →
  ZipFS.Open z dk = fs.Ok (dirFile d) → e ∈ live_entries z (info d) →
  (utf8.ValidString (Name z e) = true →
   ∃ f, ZipFS.Open z (Join dk (Name z e)) = fs.Ok f ∧ entry_of f = e)
  ∧ (utf8.ValidString (Name z e) = false →
     ZipFS.Open z (Join dk (Name z e))
     = fs.Failed (fs.PathError "open" (Join dk (Name z e)) fs.ErrInvalid)).
Proof.
  intros Hcf Hz (Hv & Hdk & _)%Open_dir_inv He.
  destruct (NewZipFS_tree _ _ _ Hcf Hz) as (Hinv & Hdj & _).
  unfold live_entries in He.
  destruct (heap z !! info d) as [i|] eqn:Hi; [|by apply elem_of_nil in He].
  destruct (inv_kids _ _ Hinv _ _ _ _ Hdk Hi He) as (k & Hk & Hdir & Hg & _).
  rewrite (Name_path _ _ _ _ Hinv Hk Hg). rewrite <- Hdir.
  rewrite Join_Dir_Base by done.
  destruct (good_path_Dir_Base k Hg) as [Hb Heq].
  assert (utf8.ValidString k = utf8.ValidString (Base k)) as Hu.
  { rewrite Heq at 1. case_decide; [done|]. rewrite Hdir. by apply ValidString_path. }
  split; intros Hn.
  - assert (fs.ValidPath k = true) as Hvk.
    { apply ValidPath_intro; [congruence|done]. }
    rewrite Open_valid by done. destruct e as [f|q]; cbn in Hk.
    + rewrite (Hdj k) by eauto. rewrite Hk. by eexists.
    + rewrite Hk. by eexists.
  - unfold ZipFS.Open, fs.ValidPath. rewrite Hu, Hn. done.
Qed.

Lemma X5_witness :
  ∃ f, ZipFS.Open demo_tree
         (path.Join "x" (Name demo_tree (fileEntry (record "x/w.txt" "w"))))
       = fs.Ok f
       ∧ entry_of f = fileEntry (record "x/w.txt" "w").
Proof.
  destruct (X5_listed_entries_open 0 demo_records demo_tree "x"
              {| info := 3; path := "x"; pos := 0 |}
              (fileEntry (record "x/w.txt" "w"))
              demo_records_collision_free demo_tree_eq) as [Hv _].
  - vm_compute. reflexivity.
  - apply list_elem_of_In. vm_compute. tauto.
  - apply Hv. vm_compute. reflexivity.
Defined.

(** X6: in an archive without colliding records, whatever [Open] opens
    under a path other than the root is an entry of the child list of the
    parent directory, under the last element of the path as its name. *)
Theorem X6_opened_path_is_listed (now : Z) (rs : list zip.File) (z : ZipFS)
    (k : string) (f : File) :
  collision_free now (empty_index now) rs → NewZipFS now rs = Some z →
  ZipFS.Open z k = fs.Ok f → k ≠ "." →
  ∃ p, ZipFS.Open z (Dir k)
       = fs.Ok (dirFile {| info := p; path := Dir k; pos := 0 |})
       ∧ entry_of f ∈ live_entries z p
       ∧ Name z (entry_of f) = Base k.
Proof.
  intros Hcf Hz Ho Hdot.
  destruct (NewZipFS_tree _ _ _ Hcf Hz) as (Hinv & Hdj & Hl).
  assert (fs.ValidPath k = true ∧ path_of z (entry_of f) k) as [Hv Hk].
  { destruct f as [d|r].
    - by apply Open_dir_inv in Ho as (? & ? & _).
    - by apply Open_file_inv in Ho as (? & _ & ? & _). }
  destruct (Hl _ _ Hk Hdot) as (p & i & Hp & Hi & Hin); [done|].
  exists p. split_and!.
  - rewrite Open_valid by by apply ValidPath_Dir. by rewrite Hp.
  - unfold live_entries. by rewrite Hi.
  - eapply Name_path; [done..|]. by apply ValidPath_elems.
Qed.

Lemma X6_witness :
  ∃ p, ZipFS.Open demo_tree (path.Dir "x/y")
       = fs.Ok (dirFile {| info := p; path := path.Dir "x/y"; pos := 0 |})
       ∧ entry_of (dirFile {| info := 2; path := "x/y"; pos := 0 |})
         ∈ live_entries demo_tree p
       ∧ Name demo_tree (entry_of (dirFile {| info := 2; path := "x/y"; pos := 0 |}))
         = path.Base "x/y".
Proof.
  apply (X6_opened_path_is_listed 0 demo_records demo_tree "x/y"
           (dirFile {| info := 2; path := "x/y"; pos := 0 |})
           demo_records_collision_free demo_tree_eq).
  - vm_compute. reflexivity.
  - discriminate.
Defined.

End Listings.

(** ** Directory records *)

Section DirectoryRecords.
Import bytes path.

Lemma new_dir_inj z key d : wf z → dirs_inj z → dirs_inj (new_dir z key d).
Proof.
  intros [_ Hb] Hi k1 k2 p. cbn [dirs new_dir].
  destruct (decide (key = k1)) as [<-|H1], (decide (key = k2)) as [<-|H2];
    rewrite ?lookup_insert_eq, ?lookup_insert_ne by done.
  - done.
  - intros [= <-] ?%Hb. lia.
  - intros ?%Hb [= <-]. lia.
  - apply Hi.
Qed.

Lemma populate_wf fuel now z d e z' :
  populate fuel now z d e = Some z' → wf z → dirs_inj z → wf z' ∧ dirs_inj z'.
Proof.
  revert z d e. induction fuel as [|n IH]; intros z d e; [done|]. cbn [populate].
  destruct (dirs z !! d) as [p|] eqn:Hd.
  - destruct (heap z !! p) as [parent|] eqn:Hp; [|done]. intros [= <-] Hwf Hi.
    split; [|done]. apply wf_with_heap; [done|]. by rewrite length_insert.
  - intros H Hwf Hi. eapply IH; [done|by apply wf_new_dir|by apply new_dir_inj].
Qed.

Lemma populate_keeps fuel now z d e z' k q o :
  populate fuel now z d e = Some z' → wf z → dirs_inj z →
  dirs z !! k = Some q → heap z !! q = Some o → k ≠ "." →
  rooted d = false → d = "." ∨ String.length d < String.length k →
  dirs z' !! k = Some q ∧ heap z' !! q = Some o.
Proof.
  revert z d e. induction fuel as [|n IH]; intros z d e; [done|]. cbn [populate].
  intros H Hwf Hi Hk Hq Hdot Hr Hlen.
  assert (d ≠ k) as Hne.
  { intros ->. destruct Hlen; [done|lia]. }
  destruct (dirs z !! d) as [p|] eqn:Hd.
  - destruct (heap z !! p) as [parent|] eqn:Hp; [|done]. injection H as <-.
    cbn [dirs heap with_heap]. split; [done|].
    rewrite list_lookup_insert_ne; [done|]. intros ->. apply Hne. by eapply Hi.
  - eapply IH; [done|by apply wf_new_dir|by apply new_dir_inj|..|done| |].
    + cbn. by rewrite lookup_insert_ne.
    + cbn. by apply lookup_app_l_Some.
    + by apply Dir_unrooted.
    + destruct (has_slash d) eqn:Hs.
      * right. pose proof (Dir_slash d Hr Hs) as [_ ?].
        destruct Hlen as [-> |?]; [done|lia].
      * left. by apply Dir_no_slash.
Qed.

Lemma index_file_wf now z f z' :
  index_file now z f = Some z' → wf z → dirs_inj z → wf z' ∧ dirs_inj z'.
Proof.
  unfold index_file. case_decide as Hdot; [by intros [= <-]|].
  destruct (rooted _); [by intros [= <-]|].
  destruct (isDir f).
  - case_decide as Hsz; [by intros [= <-]|]. intros H Hwf Hi.
    eapply populate_wf; [done|by apply wf_new_dir|by apply new_dir_inj].
  - intros H Hwf Hi. eapply populate_wf; [done|by apply wf_set_file|done].
Qed.

Lemma index_files_wf now l z z' :
  index_files now z l = Some z' → wf z → dirs_inj z → wf z' ∧ dirs_inj z'.
Proof.
  revert z. induction l as [|f l IH]; intros z; cbn [index_files].
  { by intros [= <-]. }
  destruct (index_file now z f) as [z1|] eqn:E; [|done].
  intros H Hwf Hi. destruct (index_file_wf _ _ _ _ E Hwf Hi). by eapply IH.
Qed.

Lemma wf_empty_index now : wf (empty_index now) ∧ dirs_inj (empty_index now).
Proof.
  split; [split|]; unfold dirs_inj; cbn.
  - rewrite lookup_singleton_eq. eauto.
  - intros k p [<- <-]%lookup_singleton_Some. lia.
  - by intros k1 k2 p [<- <-]%lookup_singleton_Some [<- _]%lookup_singleton_Some.
Qed.

Lemma index_file_fresh_dir now z f z' :
  index_file now z f = Some z' → wf z → dirs_inj z → indexed_dir f = true →
  dirs z' !! Clean (zip.Name f) = Some (length (heap z))
  ∧ heap z' !! length (heap z)
    = Some {| name := Base (Clean (zip.Name f)); modTime := zip.ModTime f;
              entries := [] |}.
Proof.
  unfold index_file, indexed_dir.
  set (k := Clean (zip.Name f)).
  case_decide as Hdot; [by rewrite bool_decide_eq_true_2|].
  rewrite bool_decide_eq_false_2 by done.
  destruct (rooted k) eqn:Hr; [done|].
  destruct (isDir f); [|done]. cbn [negb andb].
  case_decide as Hsz; [by rewrite bool_decide_eq_false_2|].
  intros H Hwf Hi _.
  eapply populate_keeps; [done|by apply wf_new_dir|by apply new_dir_inj|..].
  - cbn. by rewrite lookup_insert_eq.
  - cbn. by apply list_lookup_middle.
  - done.
  - by apply Dir_unrooted.
  - destruct (has_slash k) eqn:Hs.
    + right. by apply Dir_slash.
    + left. by apply Dir_no_slash.
Qed.

Lemma indexed_dir_not_file f key : indexed_dir f = true → indexed_at key f = false.
Proof.
  unfold indexed_dir, indexed_at, indexed_file.
  intros [[[_ _]%andb_true_iff ->]%andb_true_iff _]%andb_true_iff.
  by rewrite !andb_false_r.
Qed.

(** X7: when the last record of an archive is a directory record that is
    indexed, its path holds a new directory object without children,
    whatever the records before put there: the directory lists nothing and
    carries the time stamp of the record, also when earlier records lie
    below its path; these stay in the file map, as the records before left
    it. *)
Theorem X7_directory_record_resets_listing (now : Z) (rs : list zip.File)
    (f : zip.File) (z : ZipFS) :
  indexed_dir f = true → NewZipFS now (rs ++ [f]) = Some z →
  (∃ q, dirs z !! Clean (zip.Name f) = Some q
        ∧ live_entries z q = []
        ∧ dirInfo_ModTime z q = zip.ModTime f)
  ∧ (∀ key, files z !! key = last (filter (λ g, indexed_at key g) rs))
  ∧ (fs.ValidPath (Clean (zip.Name f)) = true →
     ∀ cs, ZipFS.ReadDir z cs (Clean (zip.Name f))
           = (fs.Ok {| arr := no_array; off := 0; len := 0 |}, cs)).
Proof.
  intros Hf (z0 & H0 & Hfiles & Hdirs & Hheap)%NewZipFS_inv_index.
  pose proof H0 as H1. rewrite index_files_app in H1.
  destruct (index_files now (empty_index now) rs) as [z1|] eqn:E1; [|done].
  cbn in H1. destruct (index_file now z1 f) as [z2|] eqn:E2; [|done].
  injection H1 as ->.
  destruct (wf_empty_index now) as [Hwf0 Hi0].
  destruct (index_files_wf _ _ _ _ E1 Hwf0 Hi0) as [Hwf1 Hi1].
  destruct (index_file_fresh_dir _ _ _ _ E2 Hwf1 Hi1 Hf) as [Hk Hq].
  assert (live_entries z (length (heap z1)) = []) as Hlive.
  { unfold live_entries. by rewrite Hheap, Hq. }
  split_and!.
  - exists (length (heap z1)). rewrite Hdirs. split_and!; [done..|].
    unfold dirInfo_ModTime. by rewrite Hheap, Hq.
  - intros key. rewrite Hfiles, (index_files_files _ _ _ _ key H0).
    rewrite filter_app, filter_cons, filter_nil.
    rewrite decide_False; [|rewrite indexed_dir_not_file by done; by intros ?].
    rewrite app_nil_r. cbn. rewrite lookup_empty. by destruct (last _).
  - intros Hv cs. unfold ZipFS.ReadDir. rewrite Hv. cbn [negb].
    rewrite ValidPath_Clean by done. rewrite Hdirs, Hk. by rewrite Hlive.
Qed.

Lemma X7_witness :
  ZipFS.ReadDir late_dir [] "d"
  = (fs.Ok {| arr := no_array; off := 0; len := 0 |}, [])
  ∧ files late_dir !! "d/f.txt" = Some (record "d/f.txt" "x").
Proof.
  destruct (X7_directory_record_resets_listing 0 [record "d/f.txt" "x"]
              (record "d/" "") late_dir eq_refl late_dir_eq) as (_ & Hf & Hr).
  split.
  - apply Hr. reflexivity.
  - rewrite Hf. vm_compute. reflexivity.
Defined.

(** The directory record [d/] of [late_dir] comes after [d/f.txt]: the
    root lists the old and the new directory object, both as [d]. *)
Example late_directory_record_listed_twice :
  child_names late_dir "." = ["d"; "d"].
Proof. vm_compute. reflexivity. Qed.

End DirectoryRecords.

(** ** Sub-tree views: [ReadDir] and [Read] *)

Section Views.
Import bytes path.

Lemma TrimPrefix_self p s : s ≠ "" → strings.TrimPrefix p (p +:+ s) = p.
Proof.
  intros Hs. unfold strings.TrimPrefix.
  pose proof (HasPrefix_self_longer p s Hs) as H. unfold strings.HasPrefix in H.
  by destruct (strings.CutPrefix p (p +:+ s)).
Qed.

Lemma TrimPrefix_under p rel :
  strings.TrimPrefix (p +:+ String slash rel) (p +:+ "/") = rel.
Proof.
  change (String slash rel) with ("/" +:+ rel). rewrite <- append_assoc.
  apply TrimPrefix_app.
Qed.

(** The path under which a view presents [Join prefix rel]. *)
Lemma view_Join s rel :
  view_ok s → fs.ValidPath rel = true →
  fs.ValidPath (Join (prefix s) rel) = true
  ∧ strings.TrimPrefix (Join (prefix s) rel) (prefix s +:+ "/")
    = (if decide (rel = ".") then prefix s else rel)
  ∧ Join (prefix s) rel
    = (if decide (rel = ".") then prefix s else prefix s +:+ String slash rel).
Proof.
  intros (Hp & Hdot & _) Hrel. rewrite Join_valid by done.
  case_decide as Hr.
  - split_and!; [done| |done]. by apply TrimPrefix_self.
  - split_and!; [by apply ValidPath_app|apply TrimPrefix_under|done].
Qed.

Lemma subFS_Open_spec s rel :
  view_ok s → fs.ValidPath rel = true →
  subFS.Open s rel
  = match ZipFS.Open (parent s) (Join (prefix s) rel) with
    | fs.Ok (dirFile d) =>
        fs.Ok (dirFile {| info := info d;
                          path := if decide (rel = ".") then prefix s else rel;
                          pos := 0 |})
    | fs.Ok (regFile r) => fs.Ok (regFile r)
    | fs.Failed (fs.PathError op p e) =>
        fs.Failed (fs.PathError op (if decide (rel = ".") then prefix s else rel) e)
    | fs.Failed fs.EOF => fs.Failed fs.EOF
    end.
Proof.
  intros Hs Hrel. destruct (view_Join s rel Hs Hrel) as (Hv & Ht & _).
  unfold subFS.Open. rewrite Hrel. cbn [negb].
  destruct (ZipFS.Open (parent s) (Join (prefix s) rel)) as [[d|r]|[op p e|]] eqn:Ho.
  - apply Open_dir_inv in Ho as (_ & _ & Hpath & Hpos).
    cbn. unfold dirReader.rebase. by rewrite Hpath, Hpos, Ht.
  - done.
  - apply Open_failed_inv in Ho as [[Hf _]|(_ & _ & _ & [= -> -> ->])]; [congruence|].
    cbn. by rewrite Ht.
  - done.
Qed.

(** X8: [ReadDir] through a sub-tree view on [rel] is [ReadDir] of the
    archive on the prefix joined with [rel]: the same copy of the child
    list, in ascending order of the names, when this path is a directory;
    the error not-exist with the
    path [rel], the prefix removed, when it is not; an invalid [rel] is
    refused with the path as given; and ["."] lists the directory of the
    view. *)
Theorem X8_view_ReadDir (s : subFS) (cs : list (list DirEntry)) (rel : string) :
  view_ok s →
  (fs.ValidPath rel = true →
   ∀ p, dirs (parent s) !! Join (prefix s) rel = Some p →
     ∃ sl cs', subFS_ReadDir s cs rel = (fs.Ok sl, cs')
       ∧ ZipFS.ReadDir (parent s) cs (Join (prefix s) rel) = (fs.Ok sl, cs')
       ∧ sorted_by_name (parent s) (elems (parent s) cs' sl)
       ∧ elems (parent s) cs' sl ≡ₚ live_entries (parent s) p)
  ∧ (fs.ValidPath rel = true →
     dirs (parent s) !! Join (prefix s) rel = None →
     subFS_ReadDir s cs rel
     = (fs.Failed (fs.PathError "readdir" rel fs.ErrNotExist), cs))
  ∧ (fs.ValidPath rel = false →
     subFS_ReadDir s cs rel
     = (fs.Failed (fs.PathError "readdir" rel fs.ErrInvalid), cs))
  ∧ (∃ sl cs', subFS_ReadDir s cs "." = (fs.Ok sl, cs')
       ∧ ZipFS.ReadDir (parent s) cs (prefix s) = (fs.Ok sl, cs')).
Proof.
  intros Hs. split_and!.
  - intros Hrel p Hp. destruct (view_Join s rel Hs Hrel) as (Hv & _ & _).
    destruct (ReadDir_Ok (parent s) cs _ p Hv Hp) as (sl & cs' & Hr & He & _).
    exists sl, cs'. unfold subFS_ReadDir. rewrite Hrel, Hr.
    split_and!; [done..| |]; rewrite He.
    + apply SortFunc_by_name_sorted.
    + apply SortFunc_Permutation.
  - intros Hrel Hp. destruct (view_Join s rel Hs Hrel) as (Hv & Ht & Hj).
    unfold subFS_ReadDir, ZipFS.ReadDir. rewrite Hrel, Hv. cbn [negb].
    rewrite ValidPath_Clean by done. rewrite Hp. cbn.
    rewrite Ht. destruct (decide (rel = ".")) as [Hr|Hr]; [|done].
    exfalso. rewrite Hj in Hp. destruct Hs as (_ & _ & [? ?]). congruence.
  - intros Hrel. unfold subFS_ReadDir. by rewrite Hrel.
  - destruct Hs as (Hp & Hdot & [p Hk]).
    assert (Join (prefix s) "." = prefix s) as Hj.
    { rewrite Join_valid by done. by rewrite decide_True. }
    destruct (ReadDir_Ok (parent s) cs _ p Hp Hk) as (sl & cs' & Hr & _).
    exists sl, cs'. unfold subFS_ReadDir. cbn [fs.ValidPath negb].
    rewrite Hj, Hr. done.
Qed.

Lemma X8_witness :
  (∃ sl cs', subFS_ReadDir demo_view [] "y" = (fs.Ok sl, cs')
     ∧ ZipFS.ReadDir demo_tree [] "x/y" = (fs.Ok sl, cs'))
  ∧ subFS_ReadDir demo_view [] "nothing"
    = (fs.Failed (fs.PathError "readdir" "nothing" fs.ErrNotExist), []).
Proof.
  destruct (X8_view_ReadDir demo_view [] "y" demo_view_ok) as (Hy & _).
  destruct (X8_view_ReadDir demo_view [] "nothing" demo_view_ok) as (_ & Hn & _).
  split.
  - destruct (Hy eq_refl 2) as (sl & cs' & H1 & H2 & _); [vm_compute; reflexivity|].
    exists sl, cs'. split; [exact H1|exact H2].
  - apply Hn; [reflexivity|]. vm_compute. reflexivity.
Defined.

(** X9: [Read] on a directory reader returns no byte and the error
    invalid under the operation [read].  The path of the error is the path
    that was opened; for a reader opened through a sub-tree view it is the
    path relative to the view, except for the root ["."] of the view, where
    it is the prefix of the view in the archive. *)
Theorem X9_directory_Read_fails (z : ZipFS) (s : subFS) (k rel : string)
    (d : dirReader) :
  (ZipFS.Open z k = fs.Ok (dirFile d) →
   dirReader_Read d = (0%Z, fs.PathError "read" k fs.ErrInvalid))
  ∧ (view_ok s → subFS.Open s rel = fs.Ok (dirFile d) →
     dirReader_Read d
     = (0%Z, fs.PathError "read" (if decide (rel = ".") then prefix s else rel)
               fs.ErrInvalid)
     ∧ dirs (parent s) !! Join (prefix s) rel = Some (info d)).
Proof.
  split.
  - intros (_ & _ & Hpath & _)%Open_dir_inv. unfold dirReader_Read. by rewrite Hpath.
  - intros Hs Ho.
    assert (fs.ValidPath rel = true) as Hrel.
    { destruct (fs.ValidPath rel) eqn:E; [done|]. unfold subFS.Open in Ho.
      by rewrite E in Ho. }
    rewrite subFS_Open_spec in Ho by done.
    destruct (ZipFS.Open (parent s) (Join (prefix s) rel)) as [[d0|r]|[op p e|]] eqn:Hr;
      try done.
    injection Ho as <-. apply Open_dir_inv in Hr as (_ & Hk & _).
    done.
Qed.

Lemma X9_witness :
  dirReader_Read {| info := 2; path := "y"; pos := 0 |}
  = (0%Z, fs.PathError "read" "y" fs.ErrInvalid)
  ∧ dirReader_Read {| info := 3; path := "x"; pos := 0 |}
    = (0%Z, fs.PathError "read" "x" fs.ErrInvalid)
  ∧ subFS.Open demo_view "." = fs.Ok (dirFile {| info := 3; path := "x"; pos := 0 |}).
Proof.
  destruct (X9_directory_Read_fails demo_tree demo_view "x/y" "y"
              {| info := 2; path := "y"; pos := 0 |}) as [_ Hy].
  destruct (X9_directory_Read_fails demo_tree demo_view "x" "."
              {| info := 3; path := "x"; pos := 0 |}) as [_ Hd].
  split_and!.
  - apply Hy; [exact demo_view_ok|]. vm_compute. reflexivity.
  - apply Hd; [exact demo_view_ok|]. vm_compute. reflexivity.
  - vm_compute. reflexivity.
Defined.

End Views.

(** ** Views of views, [ReadFile], and the type of an entry *)

Section NestedViews.
Import bytes path.

Lemma under_not_dot a b : a +:+ String slash b ≠ ".".
Proof.
  intros H. destruct a as [|c a].
  - vm_compute in H. discriminate.
  - apply (f_equal String.length) in H. cbn [String.append String.length] in H.
    rewrite length_append in H. simpl in H. lia.
Qed.

Lemma Join_assoc a b c :
  fs.ValidPath a = true → a ≠ "." → fs.ValidPath b = true → b ≠ "." →
  fs.ValidPath c = true →
  Join (a +:+ String slash b) c = Join a (Join b c).
Proof.
  intros Ha Hna Hb Hnb Hc.
  assert (fs.ValidPath (a +:+ String slash b) = true) as Hab by by apply ValidPath_app.
  rewrite (Join_valid _ c Hab Hc) by apply under_not_dot.
  rewrite (Join_valid b c) by done.
  case_decide as Hcd.
  - rewrite Join_valid by done. rewrite decide_False by done. done.
  - rewrite Join_valid; [|done|by apply ValidPath_app|done].
    rewrite decide_False by apply under_not_dot.
    rewrite append_assoc. done.
Qed.

(** X10: [Sub] of a sub-tree view on a directory [dir] other than ["."]
    allocates a view of the archive itself whose prefix is the prefix of
    the receiver, a slash and [dir]; opening [rel] through the new view is
    opening [dir] joined with [rel] through the receiver; when the
    directory does not exist the error not-exist reports the path [dir]. *)
Theorem X10_nested_Sub (s : subFS) (views : list subFS) (dir : string) :
  view_ok s → fs.ValidPath dir = true → dir ≠ "." →
  (is_Some (dirs (parent s) !! (prefix s +:+ "/" +:+ dir)) →
   subFS.Sub s views dir
   = (fs.Ok (subFSRef (length views)),
      views ++ [ {| parent := parent s; prefix := prefix s +:+ "/" +:+ dir |} ])
   ∧ view_ok {| parent := parent s; prefix := prefix s +:+ "/" +:+ dir |}
   ∧ ∀ rel, fs.ValidPath rel = true →
       same_open rel
         (subFS.Open {| parent := parent s; prefix := prefix s +:+ "/" +:+ dir |} rel)
         (subFS.Open s (Join dir rel)))
  ∧ (dirs (parent s) !! (prefix s +:+ "/" +:+ dir) = None →
     subFS.Sub s views dir
     = (fs.Failed (fs.PathError "sub" dir fs.ErrNotExist), views)).
Proof.
  intros Hs Hdir Hnd.
  change ("/" +:+ dir) with (String slash dir).
  set (P := prefix s +:+ String slash dir).
  pose proof Hs as (Hp & Hnp & Hex).
  assert (fs.ValidPath P = true) as HP by by apply ValidPath_app.
  assert (P ≠ ".") as HPd by apply under_not_dot.
  assert (Join (prefix s) dir = P) as Hj.
  { rewrite Join_valid by done. by rewrite decide_False. }
  split.
  - intros [q Hq].
    set (s2 := {| parent := parent s; prefix := P |}).
    assert (view_ok s2) as Hs2 by (split_and!; [done..|eauto]).
    split_and!; [|done|].
    + unfold subFS.Sub, ZipFS.Sub. rewrite Hdir, Hj, HP. cbn [negb].
      rewrite ValidPath_Clean by done. rewrite decide_False by done. by rewrite Hq.
    + intros rel Hrel.
      assert (fs.ValidPath (Join dir rel) = true) as Hdr.
      { rewrite Join_valid by done. case_decide; [done|]. by apply ValidPath_app. }
      rewrite (subFS_Open_spec s2 rel Hs2 Hrel), (subFS_Open_spec s _ Hs Hdr).
      change (prefix s2) with P. change (parent s2) with (parent s).
      unfold P at 1. rewrite Join_assoc by done.
      destruct (ZipFS.Open (parent s) (Join (prefix s) (Join dir rel)))
        as [[d|r]|[op p e|]] eqn:Ho; cbn; try done.
      * split_and!; [done..|]. rewrite decide_False; [done|]. intros ->.
        assert (Join dir "." = dir) as Hd1.
        { rewrite Join_valid by done. by rewrite decide_True. }
        rewrite Hd1, Hj in Ho.
        apply Open_failed_inv in Ho as [[Hf _]|(_ & Hk & _)]; congruence.
      * by apply Open_failed_inv in Ho as [[_ ?]|(_ & _ & _ & ?)].
  - intros Hq. unfold subFS.Sub, ZipFS.Sub. rewrite Hdir, Hj, HP. cbn [negb].
    rewrite ValidPath_Clean by done. rewrite decide_False by done. rewrite Hq.
    cbn. unfold P. by rewrite TrimPrefix_under.
Qed.

Lemma X10_witness :
  subFS.Sub demo_view [demo_view] "y"
  = (fs.Ok (subFSRef 1),
     [demo_view; {| parent := demo_tree; prefix := "x/y" |}])
  ∧ same_open "z.txt"
      (subFS.Open {| parent := demo_tree; prefix := "x/y" |} "z.txt")
      (subFS.Open demo_view (path.Join "y" "z.txt"))
  ∧ subFS.Sub demo_view [demo_view] "nothing"
    = (fs.Failed (fs.PathError "sub" "nothing" fs.ErrNotExist), [demo_view]).
Proof.
  destruct (X10_nested_Sub demo_view [demo_view] "y" demo_view_ok eq_refl)
    as [Hy _]; [discriminate|].
  destruct (X10_nested_Sub demo_view [demo_view] "nothing" demo_view_ok eq_refl)
    as [_ Hn]; [discriminate|].
  destruct Hy as (Hs & _ & Ho); [vm_compute; eauto|].
  split_and!.
  - exact Hs.
  - apply (Ho "z.txt"). reflexivity.
  - apply Hn. vm_compute. reflexivity.
Defined.

End NestedViews.

Section ReadFileFacts.
Import bytes path.
Context (R : zip.File → any_error + (string * option any_error)).

(** X11: [ReadFile] reads the record that [Open] opens: on a path that
    [Open] opens as a file it returns what reading the record gives (its
    bytes when the record is intact), with an error of opening the record
    wrapped in a path error; on a path that [Open] refuses it fails with
    the same kind of error and the path; on a directory of an archive
    without colliding records it fails with not-exist. *)
Theorem X11_ReadFile_and_Open_agree (now : Z) (rs : list zip.File) (z : ZipFS)
    (k : string) :
  NewZipFS now rs = Some z →
  (∀ r, ZipFS.Open z k = fs.Ok (regFile r) →
     ZipFS_ReadFile R z k
     = match R (file r) with
       | inl err => ("", Some (PathErr "readfile" k err))
       | inr x => x
       end
     ∧ ZipFS_ReadFile intact z k = (zip.data (file r), None))
  ∧ (∀ op p e, ZipFS.Open z k = fs.Failed (fs.PathError op p e) →
       ZipFS_ReadFile R z k = ("", Some (PathErr "readfile" k (Errno e))))
  ∧ (collision_free now (empty_index now) rs →
     ∀ d, ZipFS.Open z k = fs.Ok (dirFile d) →
       ZipFS_ReadFile R z k
       = ("", Some (PathErr "readfile" k (Errno fs.ErrNotExist)))).
Proof.
  intros Hz. split_and!.
  - intros r (Hv & _ & Hf & _)%Open_file_inv. unfold ZipFS_ReadFile.
    rewrite Hv. cbn [negb]. rewrite ValidPath_Clean by done. by rewrite Hf.
  - intros op p e [[Hv [= -> -> ->]]|(Hv & _ & Hf & [= -> -> ->])]%Open_failed_inv;
      unfold ZipFS_ReadFile; rewrite Hv; cbn [negb]; [done|].
    rewrite ValidPath_Clean by done. by rewrite Hf.
  - intros Hcf d (Hv & Hd & _)%Open_dir_inv.
    destruct (NewZipFS_tree _ _ _ Hcf Hz) as (_ & Hdj & _).
    unfold ZipFS_ReadFile. rewrite Hv. cbn [negb]. rewrite ValidPath_Clean by done.
    destruct (files z !! k) as [f|] eqn:Hf; [|done].
    rewrite Hdj in Hd by eauto. done.
Qed.

Lemma subFS_ReadFile_spec s rel :
  view_ok s → fs.ValidPath rel = true →
  subFS_ReadFile R s rel
  = match files (parent s) !! Join (prefix s) rel with
    | None =>
        ("", Some (PathErr "readfile"
                     (if decide (rel = ".") then prefix s else rel)
                     (Errno fs.ErrNotExist)))
    | Some f =>
        match R f with
        | inl err =>
            ("", Some (PathErr "readfile"
                         (if decide (rel = ".") then prefix s else rel) err))
        | inr (b, err) => (b, rebaseError_any s <$> err)
        end
    end.
Proof.
  intros Hs Hrel. destruct (view_Join s rel Hs Hrel) as (Hv & Ht & _).
  unfold subFS_ReadFile, ZipFS_ReadFile. rewrite Hrel, Hv. cbn [negb].
  rewrite ValidPath_Clean by done.
  destruct (files (parent s) !! Join (prefix s) rel) as [f|].
  - destruct (R f) as [err|[b err]]; cbn; by rewrite ?Ht.
  - cbn. by rewrite Ht.
Qed.

(** X12: [ReadFile] through a sub-tree view on a valid [rel] reads the
    record under the prefix joined with [rel]; path errors report [rel],
    except on ["."], where they report the prefix of the view; the error of
    a read is rebased too when it is a path error.  An invalid [rel] is
    refused with the path as given. *)
Theorem X12_view_ReadFile (s : subFS) (rel : string) :
  view_ok s →
  (fs.ValidPath rel = true →
   subFS_ReadFile R s rel
   = match files (parent s) !! Join (prefix s) rel with
     | None =>
         ("", Some (PathErr "readfile"
                      (if decide (rel = ".") then prefix s else rel)
                      (Errno fs.ErrNotExist)))
     | Some f =>
         match R f with
         | inl err =>
             ("", Some (PathErr "readfile"
                          (if decide (rel = ".") then prefix s else rel) err))
         | inr (b, err) => (b, rebaseError_any s <$> err)
         end
     end)
  ∧ (fs.ValidPath rel = false →
     subFS_ReadFile R s rel
     = ("", Some (PathErr "readfile" rel (Errno fs.ErrInvalid)))).
Proof.
  intros Hs. split.
  - intros Hrel. by apply subFS_ReadFile_spec.
  - intros Hrel. unfold subFS_ReadFile. by rewrite Hrel.
Qed.

End ReadFileFacts.

Section ReadFileExamples.

Lemma X11_witness :
  ZipFS_ReadFile intact demo_tree "x/w.txt" = ("w", None)
  ∧ ZipFS_ReadFile intact demo_tree "x"
    = ("", Some (PathErr "readfile" "x" (Errno fs.ErrNotExist)))
  ∧ ZipFS_ReadFile intact demo_tree "nothing"
    = ("", Some (PathErr "readfile" "nothing" (Errno fs.ErrNotExist))).
Proof.
  split_and!.
  - destruct (X11_ReadFile_and_Open_agree intact 0 demo_records demo_tree "x/w.txt"
                demo_tree_eq) as (Hf & _ & _).
    destruct (Hf {| file := record "x/w.txt" "w"; rc := None |}) as [_ Hi];
      [vm_compute; reflexivity|].
    exact Hi.
  - destruct (X11_ReadFile_and_Open_agree intact 0 demo_records demo_tree "x"
                demo_tree_eq) as (_ & _ & Hd).
    apply (Hd demo_records_collision_free {| info := 3; path := "x"; pos := 0 |}).
    vm_compute. reflexivity.
  - destruct (X11_ReadFile_and_Open_agree intact 0 demo_records demo_tree "nothing"
                demo_tree_eq) as (_ & He & _).
    apply (He "open" "nothing"). vm_compute. reflexivity.
Defined.

(** With colliding records [Open] and [ReadFile] can disagree: the file
    [a] is hidden by the directory that [a/b] makes [Open] see. *)
Example ReadFile_of_a_shadowed_file :
  ∃ z d, NewZipFS 0 [record "a" "bytes"; record "a/b" "B"] = Some z
         ∧ ZipFS.Open z "a" = fs.Ok (dirFile d)
         ∧ ZipFS_ReadFile intact z "a" = ("bytes", None)
         ∧ ¬ collision_free 0 (empty_index 0)
               [record "a" "bytes"; record "a/b" "B"].
Proof.
  eexists _, _. split; [vm_compute; reflexivity|].
  split; [vm_compute; reflexivity|]. split; [vm_compute; reflexivity|].
  apply (bool_decide_eq_false_1 _). vm_compute. reflexivity.
Qed.

Lemma X12_witness :
  subFS_ReadFile intact demo_view "y/z.txt" = ("z", None)
  ∧ subFS_ReadFile intact demo_view "nothing"
    = ("", Some (PathErr "readfile" "nothing" (Errno fs.ErrNotExist)))
  ∧ subFS_ReadFile intact demo_view "."
    = ("", Some (PathErr "readfile" "x" (Errno fs.ErrNotExist))).
Proof.
  destruct (X12_view_ReadFile intact demo_view "y/z.txt" demo_view_ok) as [H1 _].
  destruct (X12_view_ReadFile intact demo_view "nothing" demo_view_ok) as [H2 _].
  destruct (X12_view_ReadFile intact demo_view "." demo_view_ok) as [H3 _].
  split_and!.
  - rewrite H1 by reflexivity. vm_compute. reflexivity.
  - rewrite H2 by reflexivity. vm_compute. reflexivity.
  - rewrite H3 by reflexivity. vm_compute. reflexivity.
Defined.

End ReadFileExamples.

Section EntryTypes.

Lemma Type_ignores_write_bits (m : Z) :
  FileMode_Type (Z.ldiff m fs.write_bits) = FileMode_Type m.
Proof.
  unfold FileMode_Type. apply Z.bits_inj'. intros n Hn.
  rewrite !Z.land_spec, Z.ldiff_spec.
  assert (Z.testbit (Z.land fs.write_bits ModeType) n = false) as H.
  { replace (Z.land fs.write_bits ModeType) with 0%Z by done. apply Z.bits_0. }
  rewrite Z.land_spec in H.
  by destruct (Z.testbit m n), (Z.testbit fs.write_bits n), (Z.testbit ModeType n).
Qed.

(** X13: the type that a directory entry reports is the type part of the
    mode of its [Info]: removing the write bits leaves the type bits of a
    record as they are; the type has no permission bit, and it is [ModeDir]
    for a directory entry. *)
Theorem X13_entry_Type_agrees_with_Info (e : DirEntry) :
  EntryType e = FileMode_Type (Mode (Info e))
  ∧ Z.land (EntryType e) fs.ModePerm = 0%Z
  ∧ (IsDir e = true → EntryType e = fs.ModeDir).
Proof.
  destruct e as [f|p]; cbn.
  - unfold fileEntry_Type, roFileInfo.Mode. rewrite Type_ignores_write_bits.
    split_and!; [done| |done].
    unfold FileMode_Type. rewrite <- Z.land_assoc.
    replace (Z.land ModeType fs.ModePerm) with 0%Z by done. apply Z.land_0_r.
  - done.
Qed.

End EntryTypes.

(** ** Pointers of the index, [Sub] and [Open] *)

Section Pointers.
Import bytes path.

Lemma refs_ok_new_dir z key d :
  refs_ok z → (∀ q, dirInfoRef q ∈ entries d → q < length (heap z)) →
  refs_ok (new_dir z key d).
Proof.
  intros Hr Hd p d0 q. cbn [heap new_dir]. rewrite length_app. cbn.
  intros Hp Hq. apply lookup_app_Some in Hp as [Hp|[_ Hp]].
  - pose proof (Hr _ _ _ Hp Hq). lia.
  - apply list_lookup_singleton_Some in Hp as [_ <-]. pose proof (Hd _ Hq). lia.
Qed.

Lemma populate_refs fuel now z d e z' :
  populate fuel now z d e = Some z' → refs_ok z →
  (∀ q, e = dirInfoRef q → q < length (heap z)) → refs_ok z'.
Proof.
  revert z d e. induction fuel as [|n IH]; intros z d e; [done|]. cbn [populate].
  destruct (dirs z !! d) as [p|] eqn:Hd.
  - destruct (heap z !! p) as [parent|] eqn:Hp; [|done]. intros [= <-] Hr He.
    intros p0 d0 q. cbn [heap with_heap]. rewrite length_insert.
    destruct (decide (p0 = p)) as [-> |Hne].
    + rewrite list_lookup_insert_eq by (by eapply lookup_lt_Some).
      intros [= <-]. cbn. intros [Hq|Hq%list_elem_of_singleton]%elem_of_app.
      * by eapply Hr.
      * by apply He.
    + rewrite list_lookup_insert_ne by done. apply Hr.
  - intros H Hr He. eapply IH; [done| |].
    + apply refs_ok_new_dir; [done|]. cbn. intros q Hq%list_elem_of_singleton.
      by apply He.
    + intros q [= <-]. cbn. rewrite length_app. cbn. lia.
Qed.

Lemma index_file_refs now z f z' :
  index_file now z f = Some z' → refs_ok z → refs_ok z'.
Proof.
  unfold index_file. case_decide as Hdot; [by intros [= <-]|].
  destruct (rooted _); [by intros [= <-]|].
  destruct (isDir f).
  - case_decide as Hsz; [by intros [= <-]|]. intros H Hr.
    eapply populate_refs; [done| |].
    + apply refs_ok_new_dir; [done|]. cbn. by intros q ?%elem_of_nil.
    + intros q [= <-]. cbn. rewrite length_app. cbn. lia.
  - intros H Hr. eapply populate_refs; [done|done|done].
Qed.

Lemma index_files_refs now l z z' :
  index_files now z l = Some z' → refs_ok z → refs_ok z'.
Proof.
  revert z. induction l as [|f l IH]; intros z; cbn [index_files].
  { by intros [= <-]. }
  destruct (index_file now z f) as [z1|] eqn:E; [|done].
  intros H Hr. eapply IH; [done|]. by eapply index_file_refs.
Qed.

(** X14: no pointer of the index dangles, for every archive: every path of
    the directory map and every directory entry of a child list refers to a
    directory object that exists, no two paths share an object, and the
    first [ReadDir] on a directory reader that [Open] returned does not
    panic, whatever the count. *)
Theorem X14_no_dangling_pointers (now : Z) (rs : list zip.File) (z : ZipFS) :
  NewZipFS now rs = Some z →
  (∀ k p, dirs z !! k = Some p → is_Some (heap z !! p))
  ∧ (∀ p d q, heap z !! p = Some d → dirInfoRef q ∈ entries d →
       is_Some (heap z !! q))
  ∧ (∀ k1 k2 p, dirs z !! k1 = Some p → dirs z !! k2 = Some p → k1 = k2)
  ∧ (∀ k d n, ZipFS.Open z k = fs.Ok (dirFile d) → is_int n →
       dirReader.ReadDir z d n ≠ Panic).
Proof.
  intros Hz. pose proof Hz as (z0 & H0 & _ & Hd & Hh)%NewZipFS_inv_index.
  destruct (wf_empty_index now) as [Hwf0 Hi0].
  destruct (index_files_wf _ _ _ _ H0 Hwf0 Hi0) as [[_ Hb] Hi].
  assert (refs_ok z0) as Hr.
  { eapply index_files_refs; [done|]. intros p d q. cbn.
    intros [_ <-]%list_lookup_singleton_Some. cbn. by intros ?%elem_of_nil. }
  rewrite Hd, Hh. split_and!.
  - intros k p Hk. apply lookup_lt_is_Some. by eapply Hb.
  - intros p d q Hp Hq. apply lookup_lt_is_Some. by eapply Hr.
  - done.
  - intros k d n (_ & Hk & _ & Hpos)%Open_dir_inv Hn.
    rewrite Hd in Hk. apply Hb, lookup_lt_is_Some in Hk as [i Hi'].
    unfold dirReader.ReadDir. rewrite Hh, Hi', Hpos.
    rewrite Z.add_0_l, wrap_int_id by done.
    repeat case_decide; try done; lia.
Qed.

Lemma X14_witness :
  is_Some (heap demo_tree !! 3)
  ∧ dirReader.ReadDir demo_tree {| info := 3; path := "x"; pos := 0 |} int_max
    ≠ Panic.
Proof.
  destruct (X14_no_dangling_pointers 0 demo_records demo_tree demo_tree_eq)
    as (Hp & _ & _ & Hr).
  split.
  - apply (Hp "x"). vm_compute. reflexivity.
  - apply (Hr "x"); [vm_compute; reflexivity|]. unfold is_int, int_min, int_max. lia.
Defined.

(** X15: [Sub] succeeds exactly on the paths that [Open] opens as a
    directory: it returns the archive filesystem itself for the root and
    allocates a view with the path as its prefix otherwise; on a file and
    on a path that [Open] refuses it fails with the kind of error of [Open]
    (not-exist for a file) and the path, and allocates nothing. *)
Theorem X15_Sub_and_Open_agree (now : Z) (rs : list zip.File) (z : ZipFS)
    (views : list subFS) (k : string) :
  NewZipFS now rs = Some z →
  (∀ d, ZipFS.Open z k = fs.Ok (dirFile d) →
     ZipFS.Sub z views k
     = (if decide (k = ".") then (fs.Ok rootFS, views)
        else (fs.Ok (subFSRef (length views)),
              views ++ [ {| parent := z; prefix := k |} ]))
     ∧ (k ≠ "." → view_ok {| parent := z; prefix := k |}))
  ∧ (∀ r, ZipFS.Open z k = fs.Ok (regFile r) →
       ZipFS.Sub z views k
       = (fs.Failed (fs.PathError "sub" k fs.ErrNotExist), views))
  ∧ (∀ op p e, ZipFS.Open z k = fs.Failed (fs.PathError op p e) →
       ZipFS.Sub z views k = (fs.Failed (fs.PathError "sub" k e), views)).
Proof.
  intros Hz.
  assert (is_Some (dirs z !! ".")) as Hroot.
  { apply (NewZipFS_dirs _ _ _ Hz). by left. }
  split_and!.
  - intros d (Hv & Hk & _)%Open_dir_inv. split.
    + unfold ZipFS.Sub. rewrite Hv. cbn [negb]. rewrite ValidPath_Clean by done.
      case_decide; [done|]. by rewrite Hk.
    + intros Hne. split_and!; [done..|]. cbn. eauto.
  - intros r (Hv & Hk & _)%Open_file_inv. unfold ZipFS.Sub.
    rewrite Hv. cbn [negb]. rewrite ValidPath_Clean by done.
    case_decide as Hdot; [|by rewrite Hk].
    subst k. rewrite Hk in Hroot. by destruct Hroot.
  - intros op p e [[Hv [= -> -> ->]]|(Hv & Hk & _ & [= -> -> ->])]%Open_failed_inv;
      unfold ZipFS.Sub; rewrite Hv; cbn [negb]; [done|].
    rewrite ValidPath_Clean by done.
    case_decide as Hdot; [|by rewrite Hk].
    subst k. rewrite Hk in Hroot. by destruct Hroot.
Qed.

Lemma X15_witness :
  ZipFS.Sub demo_tree [] "x"
  = (fs.Ok (subFSRef 0), [ {| parent := demo_tree; prefix := "x" |} ])
  ∧ ZipFS.Sub demo_tree [] "a.txt"
    = (fs.Failed (fs.PathError "sub" "a.txt" fs.ErrNotExist), []).
Proof.
  split.
  - destruct (X15_Sub_and_Open_agree 0 demo_records demo_tree [] "x" demo_tree_eq)
      as (Hd & _ & _).
    destruct (Hd {| info := 3; path := "x"; pos := 0 |}) as [Hs _];
      [vm_compute; reflexivity|].
    exact Hs.
  - destruct (X15_Sub_and_Open_agree 0 demo_records demo_tree [] "a.txt" demo_tree_eq)
      as (_ & Hf & _).
    apply (Hf {| file := record "a.txt" "A"; rc := None |}). vm_compute. reflexivity.
Defined.

End Pointers.

(** ** Reading the records back *)

Section RoundTrip.
Import bytes path.

Lemma collision_free_split now l1 l2 z z1 :
  collision_free now z (l1 ++ l2) → index_files now z l1 = Some z1 →
  collision_free now z1 l2.
Proof.
  revert z. induction l1 as [|g l1 IH]; intros z; cbn [app index_files collision_free].
  { by intros ? [= <-]. }
  intros [_ Hcf]. destruct (index_file now z g) as [z'|]; [|done]. by apply IH.
Qed.

Lemma admissible_indexed z f :
  admissible z f → (indexed_file f || indexed_dir f) = true →
  good_path (Clean (zip.Name f)) ∧ dirs z !! Clean (zip.Name f) = None
  ∧ files z !! Clean (zip.Name f) = None
  ∧ (isDir f = false → zip.Name f = Clean (zip.Name f)).
Proof.
  unfold admissible, indexed_file, indexed_dir.
  intros [Hk|[Hk|[[Hd Hs]|(? & ? & ? & _ & ?)]]]; [..|done].
  - rewrite bool_decide_eq_true_2 by done. cbn. done.
  - rewrite Hk. cbn. by rewrite !andb_false_r.
  - rewrite Hd, (bool_decide_eq_false_2 (_ = 0%Z)) by done. cbn.
    by rewrite !andb_false_r.
Qed.

Lemma index_file_dirs_mono now z f z' k :
  index_file now z f = Some z' → is_Some (dirs z !! k) → is_Some (dirs z' !! k).
Proof.
  unfold index_file. case_decide as Hdot; [by intros [= <-]|].
  destruct (rooted _); [by intros [= <-]|].
  destruct (isDir f).
  - case_decide as Hsz; [by intros [= <-]|]. intros H Hk.
    eapply populate_dirs_mono; [done|]. cbn [dirs new_dir].
    destruct (decide (Clean (zip.Name f) = k)) as [-> |?].
    + rewrite lookup_insert_eq. eauto.
    + by rewrite lookup_insert_ne.
  - intros H Hk. by eapply populate_dirs_mono.
Qed.

Lemma files_persist now l z z' k f :
  collision_free now z l → index_files now z l = Some z' →
  files z !! k = Some f → files z' !! k = Some f.
Proof.
  revert z. induction l as [|g l IH]; intros z; cbn [index_files collision_free].
  { by intros _ [= <-]. }
  intros [Hadm Hcf]. destruct (index_file now z g) as [z1|] eqn:E; [|done].
  intros H Hk. eapply IH; [done..|].
  rewrite (index_file_files _ _ _ _ E).
  destruct (indexed_file g) eqn:Hg; [|done].
  destruct (admissible_indexed z g Hadm) as (_ & _ & Hnf & _); [by rewrite Hg|].
  rewrite lookup_insert_ne; [done|]. congruence.
Qed.

Lemma no_second_dir_record now l z z' k :
  collision_free now z l → index_files now z l = Some z' →
  is_Some (dirs z !! k) → filter (λ g, indexed_dir_at k g) l = [].
Proof.
  revert z. induction l as [|g l IH]; intros z; cbn [index_files collision_free].
  { done. }
  intros [Hadm Hcf]. destruct (index_file now z g) as [z1|] eqn:E; [|done].
  intros H Hk. rewrite filter_cons.
  destruct (decide (indexed_dir_at k g)) as [Hg|Hg].
  - exfalso. unfold indexed_dir_at in Hg. apply andb_prop_elim in Hg as [Hd Hkey].
    apply Is_true_true in Hd. apply bool_decide_unpack in Hkey.
    destruct (admissible_indexed z g Hadm) as (_ & Hnd & _); [by rewrite Hd, orb_true_r|].
    rewrite Hkey in Hnd. rewrite Hnd in Hk. by destruct Hk.
  - eapply IH; [done..|]. by eapply index_file_dirs_mono.
Qed.

(** X16: in an archive without colliding records, every record that is
    indexed reads back: a file record opens under its own name as this
    record and [ReadFile] returns its bytes when it is intact; a directory
    record opens under its cleaned name as a directory with the last
    element of the path as its name and the time stamp of the record.  The
    path has to be valid UTF-8. *)
Theorem X16_records_read_back (now : Z) (rs : list zip.File) (z : ZipFS)
    (f : zip.File) :
  collision_free now (empty_index now) rs → NewZipFS now rs = Some z →
  f ∈ rs → utf8.ValidString (Clean (zip.Name f)) = true →
  (indexed_file f = true →
   zip.Name f = Clean (zip.Name f)
   ∧ ZipFS.Open z (zip.Name f) = fs.Ok (regFile {| file := f; rc := None |})
   ∧ ZipFS_ReadFile intact z (zip.Name f) = (zip.data f, None))
  ∧ (indexed_dir f = true →
     ∃ d, ZipFS.Open z (Clean (zip.Name f)) = fs.Ok (dirFile d)
          ∧ dirInfo.Name z (info d) = Base (Clean (zip.Name f))
          ∧ dirInfo_ModTime z (info d) = zip.ModTime f).
Proof.
  intros Hcf Hz Hin Hu.
  destruct (NewZipFS_tree _ _ _ Hcf Hz) as (_ & Hdj & _).
  pose proof Hz as (z0 & H0 & Hfiles & Hdirs & Hheap)%NewZipFS_inv_index.
  apply list_elem_of_split in Hin as (l1 & l2 & ->).
  pose proof H0 as H1. rewrite index_files_app in H1.
  destruct (index_files now (empty_index now) l1) as [z1|] eqn:E1; [|done].
  cbn in H1. destruct (index_file now z1 f) as [z2|] eqn:E2; [|done].
  pose proof (collision_free_split _ _ _ _ _ Hcf E1) as [Hadm Hcf2].
  rewrite E2 in Hcf2.
  set (k := Clean (zip.Name f)) in *.
  split.
  - intros Hf.
    destruct (admissible_indexed z1 f Hadm) as (Hg & _ & _ & Hname); [by rewrite Hf|].
    assert (isDir f = false) as Hnd.
    { unfold indexed_file in Hf. apply andb_true_iff in Hf as [_ Hf].
      by apply negb_true_iff. }
    specialize (Hname Hnd). fold k in Hname.
    assert (files z !! k = Some f) as Hk.
    { rewrite Hfiles. eapply files_persist; [done..|].
      rewrite (index_file_files _ _ _ _ E2), Hf. by rewrite lookup_insert_eq. }
    assert (fs.ValidPath k = true) as Hv by by apply ValidPath_intro.
    rewrite Hname. split_and!; [done| |].
    + rewrite Open_valid by done. rewrite Hdj by eauto. by rewrite Hk.
    + unfold ZipFS_ReadFile. rewrite Hv. cbn [negb].
      rewrite ValidPath_Clean by done. by rewrite Hk.
  - intros Hf.
    destruct (admissible_indexed z1 f Hadm) as (Hg & _); [by rewrite Hf, orb_true_r|].
    assert (fs.ValidPath k = true) as Hv by by apply ValidPath_intro.
    destruct (wf_empty_index now) as [Hwf0 Hi0].
    destruct (index_files_wf _ _ _ _ E1 Hwf0 Hi0) as [Hwf1 Hi1].
    destruct (index_file_fresh_dir _ _ _ _ E2 Hwf1 Hi1 Hf) as [Hk2 _].
    assert (is_Some (dirs z !! k)) as [p Hp].
    { rewrite Hdirs. clear Hcf2. revert H1. generalize l2 z2 (mk_is_Some _ _ Hk2).
      fold k. clear. intros l. induction l as [|g l IH]; intros z2 Hk; cbn [index_files].
      - by intros [= <-].
      - destruct (index_file now z2 g) as [z3|] eqn:E; [|done]. apply IH.
        by eapply index_file_dirs_mono. }
    destruct (NewZipFS_meta _ _ _ Hz _ _ Hp) as (i & Hi & Hn & Ht).
    exists {| info := p; path := k; pos := 0 |}. split_and!.
    + rewrite Open_valid by done. by rewrite Hp.
    + unfold dirInfo.Name. cbn. by rewrite Hi.
    + unfold dirInfo_ModTime. cbn. rewrite Hi, Ht. unfold dir_time.
      rewrite filter_app, filter_cons.
      rewrite decide_True.
      2:{ unfold indexed_dir_at. rewrite Hf. cbn. by apply bool_decide_pack. }
      rewrite (no_second_dir_record now l2 z2 z0 k) by eauto.
      by rewrite last_snoc.
Qed.

Lemma X16_witness :
  ZipFS.Open demo_tree "x/y/z.txt"
  = fs.Ok (regFile {| file := record "x/y/z.txt" "z"; rc := None |})
  ∧ ZipFS_ReadFile intact demo_tree "x/y/z.txt" = ("z", None)
  ∧ ∃ d, ZipFS.Open demo_tree "d" = fs.Ok (dirFile d)
         ∧ dirInfo.Name demo_tree (info d) = "d".
Proof.
  destruct (X16_records_read_back 0 demo_records demo_tree (record "x/y/z.txt" "z")
              demo_records_collision_free demo_tree_eq) as [Hf _].
  { apply list_elem_of_In. simpl. tauto. }
  { vm_compute. reflexivity. }
  destruct (X16_records_read_back 0 demo_records demo_tree (record "d/" "")
              demo_records_collision_free demo_tree_eq) as [_ Hd].
  { apply list_elem_of_In. simpl. tauto. }
  { vm_compute. reflexivity. }
  destruct (Hf eq_refl) as (_ & Ho & Hr).
  destruct (Hd eq_refl) as (d & Hod & Hn & _).
  split_and!; [exact Ho|exact Hr|]. exists d. split; [exact Hod|exact Hn].
Defined.

End RoundTrip.

(** ** Containment *)

Section Containment.
Import bytes path.
Context (R : zip.File → any_error + (string * option any_error)).

Lemma view_Join_under s rel :
  view_ok s → fs.ValidPath rel = true →
  strings.HasPrefix (Join (prefix s) rel +:+ "/") (prefix s +:+ "/") = true.
Proof.
  intros Hs Hrel. destruct (view_Join s rel Hs Hrel) as (_ & _ & ->).
  case_decide.
  - apply (HasPrefix_app _ _ ""). by rewrite append_empty_r.
  - apply (HasPrefix_app _ _ (rel +:+ "/")).
    change (String slash rel) with ("/" +:+ rel). by rewrite !append_assoc.
Qed.

(** X17: a sub-tree view does not reach outside its directory: what
    [Open], [ReadFile] and [ReadDir] return through the view is indexed
    under the prefix of the view or under a path below it; a listing holds
    the children of such a directory and nothing else. *)
Theorem X17_view_containment (s : subFS) (name : string) :
  view_ok s →
  (∀ f, subFS.Open s name = fs.Ok f →
     ∃ k, path_of (parent s) (entry_of f) k
          ∧ strings.HasPrefix (k +:+ "/") (prefix s +:+ "/") = true)
  ∧ (∀ b, subFS_ReadFile R s name = (b, None) →
       ∃ k f, files (parent s) !! k = Some f ∧ R f = inr (b, None)
              ∧ strings.HasPrefix (k +:+ "/") (prefix s +:+ "/") = true)
  ∧ (∀ cs sl cs', subFS_ReadDir s cs name = (fs.Ok sl, cs') →
       ∃ k p, dirs (parent s) !! k = Some p
              ∧ elems (parent s) cs' sl ≡ₚ live_entries (parent s) p
              ∧ strings.HasPrefix (k +:+ "/") (prefix s +:+ "/") = true).
Proof.
  intros Hs. split_and!.
  - intros f Ho.
    assert (fs.ValidPath name = true) as Hv.
    { destruct (fs.ValidPath name) eqn:E; [done|]. unfold subFS.Open in Ho.
      by rewrite E in Ho. }
    exists (Join (prefix s) name). split; [|by apply view_Join_under].
    rewrite subFS_Open_spec in Ho by done.
    destruct (ZipFS.Open (parent s) (Join (prefix s) name)) as [[d|r]|[op p e|]] eqn:Hr;
      try done; injection Ho as <-.
    + by apply Open_dir_inv in Hr as (_ & ? & _).
    + by apply Open_file_inv in Hr as (_ & _ & ? & _).
  - intros b. unfold subFS_ReadFile.
    destruct (fs.ValidPath name) eqn:Hv; [|done]. cbn [negb].
    destruct (view_Join s name Hs Hv) as (Hvj & _ & _).
    unfold ZipFS_ReadFile. rewrite Hvj. cbn [negb]. rewrite ValidPath_Clean by done.
    destruct (files (parent s) !! Join (prefix s) name) as [f|] eqn:Hf; [|done].
    destruct (R f) as [err|[b' [err|]]] eqn:HR; [done..|].
    intros [= <-]. exists (Join (prefix s) name), f.
    split_and!; [done..|]. by apply view_Join_under.
  - intros cs sl cs'. unfold subFS_ReadDir.
    destruct (fs.ValidPath name) eqn:Hv; [|done]. cbn [negb].
    destruct (view_Join s name Hs Hv) as (Hvj & _ & _).
    destruct (dirs (parent s) !! Join (prefix s) name) as [p|] eqn:Hp.
    + destruct (ReadDir_Ok (parent s) cs _ p Hvj Hp) as (sl0 & cs0 & Hr & He & _).
      rewrite Hr. intros [= <- <-]. exists (Join (prefix s) name), p.
      split_and!; [done| |by apply view_Join_under].
      rewrite He. apply SortFunc_Permutation.
    + unfold ZipFS.ReadDir. rewrite Hvj. cbn [negb].
      rewrite ValidPath_Clean by done. by rewrite Hp.
Qed.

End Containment.

Section ContainmentExamples.

Lemma X17_witness :
  ∃ k, path_of demo_tree
         (entry_of (regFile {| file := record "x/y/z.txt" "z"; rc := None |})) k
       ∧ strings.HasPrefix (k +:+ "/") "x/" = true.
Proof.
  destruct (X17_view_containment intact demo_view "y/z.txt" demo_view_ok)
    as (Ho & _ & _).
  apply (Ho (regFile {| file := record "x/y/z.txt" "z"; rc := None |})).
  vm_compute. reflexivity.
Defined.

End ContainmentExamples.

(** ** The caller: [OpenFS] *)

Section Caller.
Import bytes path modfs.

Lemma Sub_valid z views k :
  fs.ValidPath k = true → k ≠ "." →
  ZipFS.Sub z views k
  = match dirs z !! k with
    | Some _ =>
        (fs.Ok (subFSRef (length views)),
         views ++ [ {| parent := z; prefix := k |} ])
    | None => (fs.Failed (fs.PathError "sub" k fs.ErrNotExist), views)
    end.
Proof.
  intros Hv Hk. unfold ZipFS.Sub. rewrite Hv. cbn [negb].
  rewrite ValidPath_Clean by done. by rewrite decide_False.
Qed.

Lemma at_not_dot a b : a +:+ "@" +:+ b ≠ ".".
Proof.
  destruct a as [|c [|c' a]]; cbn; [discriminate| |discriminate].
  destruct b; discriminate.
Qed.

Ltac not_in_trace :=
  let H := fresh in
  intros H; repeat (apply elem_of_cons in H as [H|H]; [discriminate|]);
  by apply elem_of_nil in H.

Lemma serve_total w P V zp closed r0 :
  ∃ res t, serve w P V zp closed r0 = Some (res, t)
    ∧ (∀ h, closes h (whole res t) = closes h (Close r0))
    ∧ (EvRemove ∈ whole res t ↔ EvRemove ∈ Close r0)
    ∧ EvStat ∈ t
    ∧ (∀ m, res = inr m → r m = r0).
Proof.
  assert (∀ res t l,
            EvRemove ∉ l → (∀ h, closes h l = 0) →
            whole res t = l ++ Close r0 → EvStat ∈ t →
            (∀ m, res = inr m → r m = r0) →
            (∀ h, closes h (whole res t) = closes h (Close r0))
            ∧ (EvRemove ∈ whole res t ↔ EvRemove ∈ Close r0)
            ∧ EvStat ∈ t
            ∧ (∀ m, res = inr m → r m = r0)) as Hgen.
  { intros res t l Hl Hc -> Ht Hm. split_and!; [| |done|done].
    - intros h. unfold closes in *. rewrite filter_app, length_app, Hc. done.
    - rewrite elem_of_app. split; [by intros [?|?]|by right]. }
  unfold serve. destruct (stat w closed) as [err|[[] size]].
  - eexists _, _. split; [done|].
    apply (Hgen _ _ [EvStat]); [not_in_trace|done|done|by left|done].
  - eexists _, _. split; [done|].
    apply (Hgen _ _ [EvStat]); [not_in_trace|done|done|by left|done].
  - destruct (newReader w) as [err|zr].
    + eexists _, _. split; [done|].
      apply (Hgen _ _ [EvStat; EvNewReader size]);
        [not_in_trace|done|done|by left|done].
    + destruct (NewZipFS_total (now w) zr) as (z & -> & _).
      destruct (ZipFS.Sub z [] (P +:+ "@" +:+ V)) as [[v|err] vs].
      * eexists _, _. split; [done|].
        apply (Hgen _ _ [EvStat; EvNewReader size]);
          [not_in_trace|done|done|by left|by intros m [= <-]].
      * eexists _, _. split; [done|].
        apply (Hgen _ _ [EvStat; EvNewReader size]);
          [not_in_trace|done|done|by left|done].
Qed.

(** X18: [OpenFS] closes what it opens.  Whatever the calls answer,
    [OpenFS] returns; over the call and the [Close] of the filesystem it
    returned, the file that was opened from the module filesystem is closed
    exactly once, and so is the temporary file when it was created.  The
    temporary file is removed exactly when it was filled and rewound: when
    the copy or the seek fails it is closed and stays on disk.  When the
    file had to be copied, [f.Stat()] is called after [f] was closed. *)
Theorem X18_OpenFS_closes_what_it_opens (w : world) (modulePath version : string) :
  ∃ res t,
    OpenFS w modulePath version = Some (res, t)
    ∧ closes source (whole res t) = (if opens w then 1 else 0)
    ∧ closes temp (whole res t) = (if makes_temp w then 1 else 0)
    ∧ (EvRemove ∈ whole res t ↔ fills_temp w = true)
    ∧ (∀ m, res = inr m → is_ReaderAt w = false →
         ∃ t1 t2, t = t1 ++ EvClose source :: t2 ∧ EvStat ∈ t2).
Proof.
  unfold OpenFS, fills_temp, makes_temp, opens.
  set (zp := modulePath +:+ "/@v/" +:+ version +:+ ".zip").
  destruct (open_err w) as [err|].
  { eexists _, _. split; [reflexivity|]. cbn [whole andb].
    split_and!; [vm_compute; reflexivity..| |done].
    split; [not_in_trace|done]. }
  destruct (is_ReaderAt w); cbn [negb andb].
  { destruct (serve_total w modulePath version zp false the_file)
      as (res & t & -> & Hc & Hr & Ht & Hm).
    cbn [mbind option_bind]. exists res, (EvOpen zp :: t).
    assert (whole res (EvOpen zp :: t) = EvOpen zp :: whole res t) as ->.
    { by destruct res. }
    split; [done|]. split_and!.
    - unfold closes. rewrite filter_cons, decide_False by done. apply Hc.
    - unfold closes. rewrite filter_cons, decide_False by done. apply Hc.
    - rewrite elem_of_cons, Hr. split; [|done].
      intros [?|H]; [done|]. revert H. not_in_trace.
    - done. }
  destruct (createTemp_err w) as [err|].
  { eexists _, _. split; [reflexivity|]. cbn [whole andb].
    split_and!; [vm_compute; reflexivity..| |done].
    split; [not_in_trace|done]. }
  destruct (copy_err w) as [err|].
  { eexists _, _. split; [reflexivity|]. cbn [whole andb].
    split_and!; [vm_compute; reflexivity..| |done].
    split; [not_in_trace|done]. }
  destruct (seek_err w) as [err|].
  { eexists _, _. split; [reflexivity|]. cbn [whole andb].
    split_and!; [vm_compute; reflexivity..| |done].
    split; [not_in_trace|done]. }
  destruct (serve_total w modulePath version zp true temp_copy)
    as (res & t & -> & Hc & Hr & Ht & Hm).
  cbn [mbind option_bind].
  set (pre := [EvOpen zp; EvCreateTemp; EvCopy; EvClose source; EvSeek]).
  exists res, (pre ++ t).
  assert (whole res (pre ++ t) = pre ++ whole res t) as ->.
  { destruct res; [done|]. cbn [whole]. by rewrite <- app_assoc. }
  split; [done|]. split_and!.
  - unfold closes in *. rewrite filter_app, length_app, Hc. vm_compute. reflexivity.
  - unfold closes in *. rewrite filter_app, length_app, Hc. vm_compute. reflexivity.
  - rewrite elem_of_app, Hr. split; [done|]. intros _. right. cbn. by right; left.
  - intros m _ _. exists [EvOpen zp; EvCreateTemp; EvCopy], (EvSeek :: t).
    split; [done|]. by right.
Qed.

Lemma serve_inv w P V zp closed r0 m t :
  serve w P V zp closed r0 = Some (inr m, t) →
  ∃ size records,
    stat w closed = inr (false, size) ∧ newReader w = inr records
    ∧ NewZipFS (now w) records = Some (zfs m)
    ∧ ZipFS.Sub (zfs m) [] (P +:+ "@" +:+ V) = (fs.Ok (ffs m), views m)
    ∧ r m = r0 ∧ t = [EvStat; EvNewReader size].
Proof.
  unfold serve. destruct (stat w closed) as [err|[[] size]]; [done..|].
  destruct (newReader w) as [err|zr]; [done|].
  destruct (NewZipFS (now w) zr) as [z|] eqn:Hz; [|done].
  destruct (ZipFS.Sub z [] (P +:+ "@" +:+ V)) as [[v|err] vs] eqn:Hs; [|done].
  intros [= <- <-]. by exists size, zr.
Qed.

Lemma OpenFS_inv w P V m t :
  OpenFS w P V = Some (inr m, t) →
  opens w = true
  ∧ (is_ReaderAt w = true ∨ fills_temp w = true)
  ∧ r m = (if is_ReaderAt w then the_file else temp_copy)
  ∧ ∃ t0, serve w P V (P +:+ "/@v/" +:+ V +:+ ".zip") (negb (is_ReaderAt w)) (r m)
          = Some (inr m, t0).
Proof.
  unfold OpenFS, fills_temp, makes_temp, opens.
  destruct (open_err w) as [err|]; [done|].
  destruct (is_ReaderAt w); cbn [negb andb].
  { destruct (serve _ _ _ _ _ _) as [[res t0]|] eqn:Hs; [|done].
    intros [= -> <-]. pose proof Hs as (_ & _ & _ & _ & _ & _ & Hr & _)%serve_inv.
    rewrite Hr. split_and!; [done|by left|done|by exists t0]. }
  destruct (createTemp_err w) as [err|]; [done|].
  destruct (copy_err w) as [err|]; [done|].
  destruct (seek_err w) as [err|]; [done|].
  destruct (serve _ _ _ _ _ _) as [[res t0]|] eqn:Hs; [|done].
  intros [= -> <-]. pose proof Hs as (_ & _ & _ & _ & _ & _ & Hr & _)%serve_inv.
  rewrite Hr. split_and!; [done|by right|done|by exists t0].
Qed.

Lemma ValidPath_at P V :
  fs.ValidPath (P +:+ "@" +:+ V) = true → Clean (P +:+ "@" +:+ V) ≠ ".".
Proof. intros H. rewrite ValidPath_Clean by done. apply at_not_dot. Qed.

Lemma Sub_module z P V :
  ZipFS.Sub z [] (P +:+ "@" +:+ V)
  = if fs.ValidPath (P +:+ "@" +:+ V)
    then match dirs z !! (P +:+ "@" +:+ V) with
         | Some _ =>
             (fs.Ok (subFSRef 0),
              [ {| parent := z; prefix := P +:+ "@" +:+ V |} ])
         | None =>
             (fs.Failed (fs.PathError "sub" (P +:+ "@" +:+ V) fs.ErrNotExist), [])
         end
    else (fs.Failed (fs.PathError "sub" (P +:+ "@" +:+ V) fs.ErrInvalid), []).
Proof.
  destruct (fs.ValidPath (P +:+ "@" +:+ V)) eqn:Hv.
  - rewrite Sub_valid; [done..|]. apply at_not_dot.
  - unfold ZipFS.Sub. by rewrite Hv.
Qed.

(** When the copy fails the temporary file is closed and not removed. *)
Example OpenFS_leaves_the_temporary_file :
  OpenFS failing_copy "m" "v1"
  = Some (inl (Errorf "m/@v/v1.zip" (Foreign "no space left on device")),
          [EvOpen "m/@v/v1.zip"; EvCreateTemp; EvCopy; EvClose source;
           EvClose temp]).
Proof. vm_compute. reflexivity. Qed.

(** X19: when [OpenFS] succeeds, the filesystem it returns is the view on
    the directory [module@version] of the index built from the records of
    the zip file: this path is valid and is a directory of the index, the
    view is the only one allocated, and the closer is the file itself or
    the wrapper of the temporary copy.  [ReadFile] of a valid [rel] other
    than ["."] through it reads the record [module@version/rel]; its path
    errors report [rel]. *)
Theorem X19_OpenFS_serves_the_module
    (R : zip.File → any_error + (string * option any_error))
    (w : world) (modulePath version : string) (m : moduleFS)
    (t : list event) :
  OpenFS w modulePath version = Some (inr m, t) →
  ∃ records,
    newReader w = inr records
    ∧ NewZipFS (now w) records = Some (zfs m)
    ∧ fs.ValidPath (modulePath +:+ "@" +:+ version) = true
    ∧ is_Some (dirs (zfs m) !! (modulePath +:+ "@" +:+ version))
    ∧ ffs m = subFSRef 0
    ∧ views m = [ {| parent := zfs m; prefix := modulePath +:+ "@" +:+ version |} ]
    ∧ r m = (if is_ReaderAt w then the_file else temp_copy)
    ∧ ∀ rel, fs.ValidPath rel = true → rel ≠ "." →
        ReadFile R m rel
        = Ret match files (zfs m)
                      !! (modulePath +:+ "@" +:+ version +:+ "/" +:+ rel) with
              | None =>
                  ("", Some (PathErr "readfile" rel (Errno fs.ErrNotExist)))
              | Some f =>
                  match R f with
                  | inl err => ("", Some (PathErr "readfile" rel err))
                  | inr (b, err) =>
                      (b, rebaseError_any
                            {| parent := zfs m;
                               prefix := modulePath +:+ "@" +:+ version |}
                          <$> err)
                  end
              end.
Proof.
  intros (_ & _ & Hr & t0 & Hs)%OpenFS_inv.
  apply serve_inv in Hs as (size & records & _ & Hn & Hz & Hsub & _ & _).
  exists records. rewrite Sub_module in Hsub.
  set (k := modulePath +:+ "@" +:+ version) in *.
  destruct (fs.ValidPath k) eqn:Hv; [|done].
  destruct (dirs (zfs m) !! k) as [p|] eqn:Hk; [|done].
  injection Hsub as Hf Hvs.
  split_and!; [done..|eauto|done|done|done|].
  intros rel Hrel Hnd. unfold ReadFile. rewrite <- Hf, <- Hvs. cbn [lookup list_lookup].
  set (s := {| parent := zfs m; prefix := k |}).
  assert (view_ok s) as Hs.
  { split_and!; [done|apply at_not_dot|]. cbn. eauto. }
  rewrite (subFS_ReadFile_spec R s rel Hs Hrel).
  rewrite Join_valid; [|done|done|apply at_not_dot].
  rewrite !decide_False by done. cbn [parent prefix s].
  change (String slash rel) with ("/" +:+ rel).
  unfold k. rewrite !append_assoc. done.
Qed.

Lemma X19_witness :
  ReadFile intact demo_module "go.mod" = Ret ("module m", None)
  ∧ ReadFile intact demo_module "a/missing.go"
    = Ret ("", Some (PathErr "readfile" "a/missing.go" (Errno fs.ErrNotExist))).
Proof.
  destruct (X19_OpenFS_serves_the_module intact demo_world "m" "v1" demo_module
              [EvOpen "m/@v/v1.zip"; EvCreateTemp; EvCopy; EvClose source;
               EvSeek; EvStat; EvNewReader 100])
    as (records & _ & _ & _ & _ & _ & _ & _ & Hread).
  { vm_compute. reflexivity. }
  split.
  - rewrite Hread; [|reflexivity|discriminate]. vm_compute. reflexivity.
  - rewrite Hread; [|reflexivity|discriminate]. vm_compute. reflexivity.
Defined.

(** X20: when the zip file is opened, copied if need be, and read as an
    archive, [OpenFS] succeeds exactly when [module@version] is a valid
    path and a record of the archive puts a directory there: an indexed
    directory record of this path, or an indexed record below it.
    Otherwise it fails with a path error [zipread] on the path of the zip
    file around the error of [Sub], which is invalid for an invalid path
    and not-exist else. *)
Theorem X20_OpenFS_needs_the_module_directory (w : world)
    (modulePath version : string) (size : Z) (records : list zip.File) :
  opens w = true → is_ReaderAt w = true ∨ fills_temp w = true →
  stat w (negb (is_ReaderAt w)) = inr (false, size) →
  newReader w = inr records →
  ∃ res t,
    OpenFS w modulePath version = Some (res, t)
    ∧ ((∃ m, res = inr m)
       ↔ fs.ValidPath (modulePath +:+ "@" +:+ version) = true
         ∧ ∃ f, f ∈ records ∧ adds_dir f (modulePath +:+ "@" +:+ version))
    ∧ (∀ err, res = inl err →
         ∃ e, err = PathErr "zipread"
                      (modulePath +:+ "/@v/" +:+ version +:+ ".zip")
                      (PathErr "sub" (modulePath +:+ "@" +:+ version) (Errno e))
              ∧ (e = fs.ErrInvalid
                 ↔ fs.ValidPath (modulePath +:+ "@" +:+ version) = false)).
Proof.
  intros Ho Hpath Hstat Hn.
  set (k := modulePath +:+ "@" +:+ version).
  set (zp := modulePath +:+ "/@v/" +:+ version +:+ ".zip").
  destruct (NewZipFS_total (now w) records) as (z & Hz & _).
  destruct (NewZipFS_dirs _ _ _ Hz) as [Hdirs _].
  assert (∀ r0, ∃ res t0,
            serve w modulePath version zp (negb (is_ReaderAt w)) r0
            = Some (res, t0)
            ∧ ((∃ m, res = inr m)
               ↔ fs.ValidPath k = true ∧ ∃ f, f ∈ records ∧ adds_dir f k)
            ∧ (∀ err, res = inl err →
                 ∃ e, err = PathErr "zipread" zp (PathErr "sub" k (Errno e))
                      ∧ (e = fs.ErrInvalid ↔ fs.ValidPath k = false))) as Hserve.
  { intros r0. unfold serve. rewrite Hstat, Hn, Hz, Sub_module. fold k.
    destruct (fs.ValidPath k) eqn:Hv.
    - destruct (dirs z !! k) as [p|] eqn:Hk.
      + eexists _, _. split; [done|]. split; [|done]. split; [|eauto].
        intros _. split; [done|].
        destruct (proj1 (Hdirs k)) as [Hd|Hd]; [eauto| |done].
        by apply at_not_dot in Hd.
      + eexists _, _. split; [done|]. split.
        * split; [by intros [? ?]|]. intros [_ Hf].
          assert (is_Some (dirs z !! k)) as [? ?] by (apply Hdirs; by right).
          congruence.
        * intros err [= <-]. exists fs.ErrNotExist. split; [done|]. done.
    - eexists _, _. split; [done|]. split.
      + split; [by intros [? ?]|]. by intros [? _].
      + intros err [= <-]. exists fs.ErrInvalid. done. }
  unfold OpenFS. unfold opens in Ho.
  destruct (open_err w) as [err|]; [done|]. fold zp.
  destruct (is_ReaderAt w) eqn:Hra.
  - destruct (Hserve the_file) as (res & t0 & Hs & H1 & H2).
    cbn [negb] in Hs. rewrite Hs.
    cbn [mbind option_bind]. by exists res, (EvOpen zp :: t0).
  - destruct Hpath as [?|Hfill]; [done|].
    unfold fills_temp, makes_temp, opens in Hfill. rewrite Hra in Hfill.
    destruct (createTemp_err w); [by rewrite andb_false_r in Hfill|].
    destruct (copy_err w); [by rewrite andb_false_r in Hfill|].
    destruct (seek_err w); [by rewrite andb_false_r in Hfill|].
    destruct (Hserve temp_copy) as (res & t0 & Hs & H1 & H2).
    cbn [negb] in Hs. rewrite Hs.
    cbn [mbind option_bind]. by eexists res, _.
Qed.

Lemma X20_witness :
  ∃ res t,
    OpenFS demo_world "m" "v2" = Some (res, t)
    ∧ ∃ e, res = inl (PathErr "zipread" "m/@v/v2.zip"
                        (PathErr "sub" "m@v2" (Errno e)))
           ∧ e ≠ fs.ErrInvalid.
Proof.
  destruct (X20_OpenFS_needs_the_module_directory demo_world "m" "v2" 100
              module_records eq_refl (or_intror eq_refl) eq_refl eq_refl)
    as (res & t & Ho & _ & He).
  exists res, t. split; [exact Ho|].
  destruct res as [err|m].
  - destruct (He err eq_refl) as (e & -> & Hv). exists e. split; [reflexivity|].
    intros Hinv. apply Hv in Hinv. vm_compute in Hinv. discriminate.
  - vm_compute in Ho. discriminate.
Defined.

End Caller.

(** ** The streams of a file reader *)

Section FileReaderFacts.
Context (zopen : zip.File → any_error + string)
        (sread : string → nat → (string * option any_error) * string)
        (sclose : string → option any_error).

Lemma open_streams_app t1 t2 :
  open_streams (t1 ++ t2) = (open_streams t1 + open_streams t2)%Z.
Proof. unfold open_streams. rewrite !filter_app, !length_app. lia. Qed.

Lemma Read_balance f n res f' t :
  fileReader_Read zopen sread f n = (res, f', t) →
  file f' = file f ∧ (held f + open_streams t = held f')%Z
  ∧ (rc f = None → ∃ ok, t = StreamOpen ok :: (if ok then [StreamRead] else [])).
Proof.
  unfold fileReader_Read, held. destruct f as [g [st|]]; cbn.
  - destruct (sread st n) as [r st']. intros [= <- <- <-]. done.
  - destruct (zopen g) as [err|st].
    + intros [= <- <- <-]. split_and!; [done..|]. by exists false.
    + destruct (sread st n) as [r st']. intros [= <- <- <-].
      split_and!; [done..|]. by exists true.
Qed.

Lemma Close_balance f res f' t :
  fileReader_Close sclose f = (res, f', t) →
  file f' = file f ∧ rc f' = None ∧ (held f + open_streams t = held f')%Z
  ∧ (rc f = None → res = None ∧ f' = f ∧ t = []).
Proof.
  unfold fileReader_Close, held. destruct f as [g [st|]]; cbn.
  - by intros [= <- <- <-].
  - by intros [= <- <- <-].
Qed.

Lemma calls_balance l f f' t :
  calls zopen sread sclose f l = (f', t) →
  file f' = file f ∧ (held f + open_streams t = held f')%Z.
Proof.
  revert f f' t. induction l as [|c l IH]; intros f f' t; cbn [calls].
  { intros [= <- <-]. split; [done|]. unfold open_streams. cbn. lia. }
  destruct c as [n|].
  - destruct (fileReader_Read zopen sread f n) as [[res f1] t1] eqn:E1.
    destruct (calls zopen sread sclose f1 l) as [f2 t2] eqn:E2.
    intros [= <- <-]. apply Read_balance in E1 as (Hf1 & Hb1 & _).
    apply IH in E2 as (Hf2 & Hb2). rewrite open_streams_app.
    split; [congruence|lia].
  - destruct (fileReader_Close sclose f) as [[res f1] t1] eqn:E1.
    destruct (calls zopen sread sclose f1 l) as [f2 t2] eqn:E2.
    intros [= <- <-]. apply Close_balance in E1 as (Hf1 & _ & Hb1 & _).
    apply IH in E2 as (Hf2 & Hb2). rewrite open_streams_app.
    split; [congruence|lia].
Qed.

Lemma calls_app l1 l2 f :
  calls zopen sread sclose f (l1 ++ l2)
  = let '(f1, t1) := calls zopen sread sclose f l1 in
    let '(f2, t2) := calls zopen sread sclose f1 l2 in
    (f2, t1 ++ t2).
Proof.
  revert f. induction l1 as [|c l1 IH]; intros f; cbn [calls app].
  { by destruct (calls zopen sread sclose f l2). }
  destruct c as [n|].
  - destruct (fileReader_Read zopen sread f n) as [[res f1] t1].
    rewrite IH. destruct (calls zopen sread sclose f1 l1) as [f2 t2].
    destruct (calls zopen sread sclose f2 l2) as [f3 t3]. by rewrite app_assoc.
  - destruct (fileReader_Close sclose f) as [[res f1] t1].
    rewrite IH. destruct (calls zopen sread sclose f1 l1) as [f2 t2].
    destruct (calls zopen sread sclose f2 l2) as [f3 t3]. by rewrite app_assoc.
Qed.

(** X21: a file reader that [Open] returned holds no stream.  After any
    sequence of [Read] and [Close] calls on it, the streams that were
    opened and not closed are the one that the reader holds, if any: at
    most one stream is open, and none once [Close] was called last, which
    puts the reader back into the state in which [Open] returned it.
    [Close] on a reader that holds no stream calls nothing and returns no
    error; [Read] on such a reader, also after a [Close], starts by opening
    a stream of the record anew. *)
Theorem X21_file_reader_streams (z : ZipFS) (name : string) (f : fileReader)
    (l : list call) :
  ZipFS.Open z name = fs.Ok (regFile f) →
  ∃ f1 t1,
    calls zopen sread sclose f l = (f1, t1)
    ∧ file f1 = file f
    ∧ open_streams t1 = held f1
    ∧ (∃ f2 t2, calls zopen sread sclose f (l ++ [CallClose]) = (f2, t2)
                ∧ f2 = f ∧ open_streams t2 = 0%Z)
    ∧ (∃ res, fileReader_Close sclose f = (res, f, []) ∧ res = None)
    ∧ (∀ n res f3 t3,
         rc f1 = None → fileReader_Read zopen sread f1 n = (res, f3, t3) →
         ∃ ok, t3 = StreamOpen ok :: (if ok then [StreamRead] else [])).
Proof.
  intros (_ & _ & _ & Hrc)%Open_file_inv.
  destruct (calls zopen sread sclose f l) as [f1 t1] eqn:E1.
  pose proof (calls_balance _ _ _ _ E1) as [Hf1 Hb1].
  assert (held f = 0%Z) as Hh by (unfold held; by rewrite Hrc).
  exists f1, t1. split_and!; [done|done|lia| | |].
  - rewrite calls_app, E1. cbn [calls].
    destruct (fileReader_Close sclose f1) as [[res f2] t2] eqn:E2.
    apply Close_balance in E2 as (Hf2 & Hrc2 & Hb2 & _).
    eexists _, _. split; [done|]. split.
    + destruct f as [g rcf], f2 as [g2 rc2]. cbn in *. congruence.
    + rewrite app_nil_r, open_streams_app.
      assert (held f2 = 0%Z) by (unfold held; by rewrite Hrc2). lia.
  - unfold fileReader_Close. rewrite Hrc. by exists None.
  - intros n res f3 t3 Hn H3. apply Read_balance in H3 as (_ & _ & H3).
    by apply H3.
Qed.

End FileReaderFacts.

Section FileReaderExamples.

Lemma X21_witness :
  ∃ f2 t2,
    calls (λ f, inr (zip.data f))
      (λ st n, ((bytes.upto n st, None), bytes.from n st)) (λ _, None)
      {| file := record "a.txt" "A"; rc := None |}
      ([CallRead 1; CallClose; CallRead 1] ++ [CallClose])
    = (f2, t2)
    ∧ f2 = {| file := record "a.txt" "A"; rc := None |}
    ∧ open_streams t2 = 0%Z.
Proof.
  destruct (X21_file_reader_streams (λ f, inr (zip.data f))
              (λ st n, ((bytes.upto n st, None), bytes.from n st)) (λ _, None)
              demo_tree "a.txt" {| file := record "a.txt" "A"; rc := None |}
              [CallRead 1; CallClose; CallRead 1])
    as (f1 & t1 & _ & _ & _ & H & _).
  { vm_compute. reflexivity. }
  exact H.
Defined.

End FileReaderExamples.
